(** * Cortex: the cell / manager / link subsystem

    A shallow embedding of [cortex/__init__.py] (classes [Link] and
    [Manager]) and of the parameter machinery of [cortex/models/cell.py]
    (class [Cell]), followed by the properties established about them.

    Conventions of the embedding.
    - A Python [dict] used as a table is a [gmap]; an [OrderedDict], and a
      keyword-argument set that the code iterates over, is an association
      list kept in iteration order.
    - A raised exception is a value of [error]; [exn_class] gives back the
      Python exception class, which is what an [except] clause looks at.
    - Operations of the manager thread the manager explicitly and keep the
      state reached when an exception is raised, as Python does.
    - A [Link] object lives in the manager's [links] list; a reference to it
      held in an argument record is its position in that list ([VLink]). *)

From Stdlib Require Import String Ascii List ZArith Lia DecimalString.
From Stdlib Require DecimalNat DecimalFacts.
From stdpp Require Import base option list gmap strings.

Set Warnings "-register-all".

Local Open Scope string_scope.
Local Open Scope list_scope.

(** ** Python strings *)

(** [s.split(sep)] for a one-character separator: never the empty list. *)
Fixpoint py_split (sep : ascii) (s : string) : list string :=
  match s with
  | EmptyString => [EmptyString]
  | String c s' =>
      if Ascii.eqb c sep then EmptyString :: py_split sep s'
      else match py_split sep s' with
           | [] => [String c EmptyString]
           | w :: ws => String c w :: ws
           end
  end.

(** [sep.join(l)]. *)
Definition py_join (sep : string) (l : list string) : string :=
  String.concat sep l.

Definition dot : ascii := "."%char.

(** [l[:-1]] and [l[-1:]]. *)
Definition all_but_last {A} (l : list A) : list A := removelast l.

Definition last_slice {A} (l : list A) : list A :=
  match l with
  | [] => []
  | _ => skipn (length l - 1) l
  end.

(** [w in s] on strings. *)
Fixpoint py_contains (w s : string) : bool :=
  String.prefix w s
  || match s with
     | EmptyString => false
     | String _ s' => py_contains w s'
     end.

(** ['%d' % i]. *)
Definition py_decimal (i : nat) : string :=
  NilZero.string_of_uint (Nat.to_uint i).

(** [s.startswith('&')] together with [s[1:]]. *)
Definition strip_amp (s : string) : option string :=
  match s with
  | String c rest => if Ascii.eqb c "&"%char then Some rest else None
  | EmptyString => None
  end.

(** [s[1:]]. *)
Definition py_tail (s : string) : string :=
  match s with
  | String _ rest => rest
  | EmptyString => EmptyString
  end.

(** ** Values *)

(** The values an argument record or a dataset table holds.  A [Link] is
    held by reference: [VLink i] is the [i]-th link of the manager.  The
    embedded code only asks of a value whether it is [None], whether it is
    a [Link], and whether it differs from another value; numbers and
    strings stand for the values that are neither. *)
Inductive pyval :=
  | VNone
  | VInt (z : Z)
  | VStr (s : string)
  | VLink (i : nat).

#[global] Instance pyval_eq_dec : EqDecision pyval.
Proof. solve_decision. Defined.

(** [a != b]: by value on numbers and strings, by identity on links. *)
Definition py_ne (a b : pyval) : bool := bool_decide (a ≠ b).

Definition is_None (v : pyval) : bool :=
  match v with
  | VNone => true
  | _ => false
  end.

(** ** Exceptions *)

Inductive pyexn := KeyError | ValueError | TypeError | AttributeError.

(** One constructor per [raise] of the embedded code, plus the exceptions the
    interpreter raises by itself. *)
Inductive error :=
  | ReferenceNotFound (ref : string)
      (* KeyError('Cell or data %s not found'), Link.get_args *)
  | InvalidLink
      (* ValueError('Cannot link 2 datasets') *)
  | UnresolvableLink (f t : string)
      (* TypeError('Link between %s and %s requires a resolvable dimension') *)
  | NoLinkKey (key : string)
      (* TypeError('Class %s has no key `%s`'), Link.Node *)
  | UnknownCellType (tag : pyval)
      (* KeyError('Unexpected cell subclass ...'), resolve_class *)
  | CellArgsNotFound (cell_name : string)
      (* KeyError('Cell args of %s not found but cell already set') *)
  | UnknownArgument (k cell_name : string)
      (* KeyError('Requested key %s not found in %s and cell already exists.') *)
  | ArgumentMismatch (k : string)
      (* ValueError('Key %s already set and differs from requested value') *)
  | Unresolved
      (* bare ValueError of set_link_value, get_link_value, query *)
  | NoSuchNode (name : string)
      (* KeyError('Link does not have node `%s`') *)
  | UnsupportedKey (name key : string)
      (* KeyError('Link with node `%s` does not support key `%s`') *)
  | ComponentNotFound (key : string)
      (* KeyError('Component `%s` not found') *)
  | BareKeyError
      (* raise KeyError, and a failed dict lookup *)
  | CallError
      (* TypeError of the call protocol: missing or doubly bound argument *)
  | NoAttribute
      (* AttributeError: an attribute of None, or one the class lacks *)
  | NotSubscriptable
      (* TypeError: None[1:] *)
  | NotIterable
      (* TypeError: w in None *)
  | OutOfFuel.
      (* not an exception: the bound on the build loop was reached *)

Definition exn_class (e : error) : option pyexn :=
  match e with
  | ReferenceNotFound _ | UnknownCellType _ | CellArgsNotFound _
  | UnknownArgument _ _ | NoSuchNode _ | UnsupportedKey _ _
  | ComponentNotFound _ | BareKeyError => Some KeyError
  | InvalidLink | ArgumentMismatch _ | Unresolved => Some ValueError
  | UnresolvableLink _ _ | NoLinkKey _ | CallError | NotSubscriptable
  | NotIterable =>
      Some TypeError
  | NoAttribute => Some AttributeError
  | OutOfFuel => None
  end.

Definition is_ValueError (e : error) : bool :=
  match exn_class e with
  | Some ValueError => true
  | _ => false
  end.

(** Results of code that may raise. *)
Inductive result (A : Type) :=
  | Ok (a : A)
  | Raise (e : error).
Arguments Ok {A} a.
Arguments Raise {A} e.

#[global] Instance result_ret : MRet result := fun _ a => Ok a.
#[global] Instance result_bind : MBind result := fun _ _ f r =>
  match r with
  | Ok a => f a
  | Raise e => Raise e
  end.

(** [try: x = c  except ValueError: pass] around an assignment to [x]. *)
Definition try_assign {A} (old : A) (c : result A) : result A :=
  match c with
  | Ok a => Ok a
  | Raise e => if is_ValueError e then Ok old else Raise e
  end.

(** [d[k]] on a table, raising KeyError. *)
Definition subscript {V} (d : gmap string V) (k : string) : result V :=
  match d !! k with
  | Some v => Ok v
  | None => Raise BareKeyError
  end.

(** ** Classes, links, datasets *)

(** An argument record, the [**kwargs] of a call. *)
Abbreviation kwargs := (gmap string pyval).

(** [d.get(k, None)]. *)
Definition dict_get (d : kwargs) (k : string) : pyval := default VNone (d !! k).

(** The class-level declarations of a cell class that the manager and the
    links read.  [_distribution] is read by [Link.Node] and [add_link] but
    not declared by the base class: [None] is a class without the attribute,
    [Some None] one that declares it as [None]. *)
Record CellClass := {
  _dim_map : gmap string string;
  _dist_map : gmap string string;
  _distribution : option (option string)
}.

(** [Link.Node]. *)
Record Node := {
  node_C : CellClass;
  link_key : string;
  dim_key : string;
  dist_key : option string
}.

Record Link := {
  link_name : string;
  link_value : pyval;
  link_distribution : pyval;
  nodes : list (string * Node)
}.

(** What a dataset registers in [manager.datasets]. *)
Record Dataset := {
  dims : gmap string pyval;
  distributions : gmap string pyval
}.

(** ** Association lists in iteration order *)

Section assoc.
Context {K V : Type} `{EqDecision K}.

Fixpoint od_get (k : K) (d : list (K * V)) : option V :=
  match d with
  | [] => None
  | (k', v) :: d' => if decide (k = k') then Some v else od_get k d'
  end.

(** [d[k] = v]: an existing key keeps its place, a new one goes last. *)
Fixpoint od_set (k : K) (v : V) (d : list (K * V)) : list (K * V) :=
  match d with
  | [] => [(k, v)]
  | (k', v') :: d' =>
      if decide (k = k') then (k, v) :: d' else (k', v') :: od_set k v d'
  end.

Definition od_keys (d : list (K * V)) : list K := map fst d.

Definition od_mem (k : K) (d : list (K * V)) : bool :=
  bool_decide (k ∈ od_keys d).
End assoc.

(** ** Cells *)

(** The initial numeric value of a parameter is opaque here: only which
    value it is matters. *)
Definition ndarray := nat.

(** A shared tensor handle, [theano.shared(value, name=name)].  [h_id]
    stands for the identity of the object: the engine stamps each handle it
    creates with the number of handles created before it. *)
Record handle := {
  h_id : nat;
  h_name : string;
  h_value : ndarray
}.

#[global] Instance handle_eq_dec : EqDecision handle.
Proof. solve_decision. Defined.

(** An entry of [self.params] as [init_params] leaves it. *)
Inductive pvalue :=
  | PArr (a : ndarray)
  | PArrs (l : list ndarray).

(** What a parameter attribute of a cell, or an entry of a parameter list,
    holds: a handle, a list of handles, or a handle with noise added. *)
Inductive pobj :=
  | OHandle (h : handle)
  | OHandles (hs : list handle)
  | ONoisy (h : handle).

(** Keys of [self.params]: names, and the positions [get_params] writes. *)
Inductive pkey :=
  | KName (s : string)
  | KPos (i : nat).

#[global] Instance pkey_eq_dec : EqDecision pkey.
Proof. solve_decision. Defined.

Inductive pentry :=
  | EInit (p : pvalue)
  | ETensor (o : pobj).

(** What [self.__dict__[k]] holds for a component key [k]. *)
Inductive component_of (C : Type) :=
  | CompNone
  | CompCell (c : C)
  | CompList (cs : list C).
Arguments CompNone {C}.
Arguments CompCell {C} c.
Arguments CompList {C} cs.

(** A constructed cell.  The attributes of the instance are kept in
    separate fields: [comps] holds [self.__dict__[k]] for [k] in
    [component_keys], in that order, and [attrs] holds [self.__dict__[k]]
    for the parameter names [set_tparams] assigns.  Parameter names,
    component names and the fixed attribute names are taken to be distinct
    name spaces. *)
Inductive cell := Cell {
  name : string;
  _weights : list string;
  weight_noise : bool;
  params : list (pkey * pentry);
  comps : list (string * component_of cell);
  n_params : nat;
  n_component_params : nat;
  total_params : nat;
  param_keys : list string;
  attrs : list (string * pobj)
}.

Abbreviation component := (component_of cell).

(** ** The manager *)

(** The attributes of [Manager], and [allocated]: the number of shared
    handles the tensor engine has created so far, which is not an attribute
    of the manager but part of the state its operations thread. *)
Record Manager := {
  cells : list (string * cell);
  cell_args : list (string * kwargs);
  links : list Link;
  classes : gmap string CellClass;
  tparams : gmap string handle;
  datasets : gmap string Dataset;
  allocated : nat
}.

(** Operations of the manager return the manager they leave with their
    result: the state is kept when an exception is raised. *)
Definition M (A : Type) : Type := Manager → Manager * result A.

Definition has_key {V} (d : gmap string V) (k : string) : bool :=
  bool_decide (is_Some (d !! k)).

Definition set_cell_args (cell_name : string) (args : kwargs) (cm : Manager)
  : Manager :=
  {| cells := cells cm;
     cell_args := od_set cell_name args (cell_args cm);
     links := links cm;
     classes := classes cm;
     tparams := tparams cm;
     datasets := datasets cm;
     allocated := allocated cm |}.

Definition append_link (l : Link) (cm : Manager) : Manager :=
  {| cells := cells cm;
     cell_args := cell_args cm;
     links := links cm ++ [l];
     classes := classes cm;
     tparams := tparams cm;
     datasets := datasets cm;
     allocated := allocated cm |}.

(** [self.cell_args[name]]. *)
Definition get_cell_args (cm : Manager) (cell_name : string) : result kwargs :=
  match od_get cell_name (cell_args cm) with
  | Some args => Ok args
  | None => Raise BareKeyError
  end.

(** ** [resolve_class] *)

Definition resolve_class (cm : Manager) (cell_type : pyval) : result CellClass :=
  match cell_type with
  | VStr tag =>
      match classes cm !! tag with
      | Some C => Ok C
      | None => Raise (UnknownCellType cell_type)
      end
  | _ => Raise (UnknownCellType cell_type)
  end.

(** ** [Manager.match_args] *)

(** The loop over [kwargs.iteritems()]; [args] is the record of the cell,
    updated in place. *)
Fixpoint match_args_loop (fail_on_mismatch : bool) (cell_name : string)
    (kw : list (string * pyval)) (args : kwargs) : kwargs * result unit :=
  match kw with
  | [] => (args, Ok tt)
  | (k, v) :: kw' =>
      if negb (has_key args k) && fail_on_mismatch then
        (args, Raise (UnknownArgument k cell_name))
      else
        let args1 := if negb (has_key args k) then <[k := v]> args else args in
        match args1 !! k with
        | None => (args1, Raise BareKeyError)
        | Some a =>
            if negb (is_None a) && py_ne a v then
              (args1, Raise (ArgumentMismatch k))
            else match_args_loop fail_on_mismatch cell_name kw' args1
        end
  end.

(** [kw] lists the keyword arguments in the order [iteritems()] yields
    them. *)
Definition match_args (cell_name : string) (kw : list (string * pyval))
  : M unit := fun cm =>
  let fail_on_mismatch := od_mem cell_name (cells cm) in
  if fail_on_mismatch && negb (od_mem cell_name (cell_args cm)) then
    (cm, Raise (CellArgsNotFound cell_name))
  else
    let '(args, r) := match_args_loop fail_on_mismatch cell_name kw ∅ in
    (set_cell_args cell_name args cm, r).

(** ** Class methods of [Cell] used by links *)

(** [Cell.set_link_value(C, key, **kwargs)]; [ls] is the list the [Link]
    references of [kwargs] point into. *)
Definition set_link_value (ls : list Link) (C : CellClass) (key : string)
    (kw : kwargs) : result pyval :=
  match _dim_map C !! key with
  | Some k =>
      match dict_get kw k with
      | VNone => Raise Unresolved
      | VLink i =>
          match ls !! i with
          | Some l =>
              if is_None (link_value l) then Raise Unresolved
              else Ok (link_value l)
          | None => Raise NoAttribute
          end
      | value => Ok value
      end
  | None => Raise BareKeyError
  end.

(** [Cell.set_link_distribution(C, key, **kwargs)]. *)
Definition set_link_distribution (C : CellClass) (key : pyval) (kw : kwargs)
  : result pyval :=
  match key with
  | VStr key =>
      match _dist_map C !! key with
      | Some k =>
          match dict_get kw k with
          | VNone | VLink _ => Raise Unresolved
          | value => Ok value
          end
      | None => Raise BareKeyError
      end
  | _ => Raise BareKeyError
  end.

(** [Cell.get_link_value(C, link, key)]. *)
Definition get_link_value (C : CellClass) (l : Link) (key : string)
  : result (string * pyval) :=
  match _dim_map C !! key with
  | Some k =>
      if is_None (link_value l) then Raise Unresolved else Ok (k, link_value l)
  | None => Raise BareKeyError
  end.

(** The call [C.set_link_value(key, **kw)]: [C] and [key] are bound by
    position, so a record that holds one of these names binds it twice; and
    [C] is [None] for a dataset endpoint. *)
Definition call_set_link_value (ls : list Link) (C : option CellClass)
    (key : string) (kw : kwargs) : result pyval :=
  match C with
  | None => Raise NoAttribute
  | Some C =>
      if has_key kw "C" || has_key kw "key" then Raise CallError
      else set_link_value ls C key kw
  end.

(** The call [C.set_link_distribution] with the record as its only,
    keyword, arguments: the parameter [key] is bound only if the record
    holds an entry of that name. *)
Definition call_set_link_distribution (C : option CellClass) (kw : kwargs)
  : result pyval :=
  match C with
  | None => Raise NoAttribute
  | Some C =>
      if has_key kw "C" then Raise CallError
      else match kw !! "key" with
           | Some key => set_link_distribution C key (delete "key" kw)
           | None => Raise CallError
           end
  end.

(** ** [Link] *)

(** [Link.Node.__init__(C, key)]. *)
Definition Node_init (C : option CellClass) (key : string) : result Node :=
  match C with
  | None => Raise NoAttribute
  | Some C =>
      match _dim_map C !! key with
      | None => Raise (NoLinkKey key)
      | Some dk =>
          match _distribution C with
          | None => Raise NoAttribute
          | Some d =>
              Ok {| node_C := C; link_key := key; dim_key := dk; dist_key := d |}
          end
      end
  end.

(** [split_arg(arg)] with the default [idx=-1]. *)
Definition split_arg (arg : string) : string * string :=
  let s := py_split dot arg in
  (py_join "." (all_but_last s), py_join "." (last_slice s)).

(** [get_args(name)] of [Link.__init__]. *)
Definition get_args (cm : Manager) (ref : string)
  : result (string * string * option CellClass) :=
  if has_key (datasets cm) (hd "" (py_split dot ref)) then
    let '(name_, key) := split_arg ref in
    Ok (name_, key, None)
  else if od_mem (py_join "." (all_but_last (py_split dot ref))) (cell_args cm)
  then
    let '(name_, key) := split_arg ref in
    args ← get_cell_args cm name_;
    cell_type ← subscript args "cell_type";
    C ← resolve_class cm cell_type;
    Ok (name_, key, Some C)
  else Raise (ReferenceNotFound ref).

(** The choice of [dataset_name] and [dataset_key]. *)
Definition dataset_endpoint (cm : Manager) (f_name f_key t_name t_key : string)
  : result (option (string * string)) :=
  if has_key (datasets cm) f_name then
    if has_key (datasets cm) t_name then Raise InvalidLink
    else Ok (Some (f_name, f_key))
  else if has_key (datasets cm) t_name then Ok (Some (t_name, t_key))
  else Ok None.

(** The assignments to [self.value] and [self.distribution]. *)
Definition link_values (cm : Manager) (ds : option (string * string))
    (f_name f_key : string) (f_class : option CellClass)
    (t_name t_key : string) (t_class : option CellClass)
  : result (pyval * pyval) :=
  match ds with
  | Some (dataset_name, dataset_key) =>
      d ← subscript (datasets cm) dataset_name;
      value ← subscript (dims d) dataset_key;
      distribution ← subscript (distributions d) dataset_key;
      Ok (value, distribution)
  | None =>
      t_args ← get_cell_args cm t_name;
      f_args ← get_cell_args cm f_name;
      v1 ← try_assign VNone (call_set_link_value (links cm) t_class t_key t_args);
      v2 ← try_assign v1 (call_set_link_value (links cm) f_class f_key f_args);
      d1 ← try_assign VNone (call_set_link_distribution t_class t_args);
      d2 ← try_assign d1 (call_set_link_distribution f_class f_args);
      Ok (v2, d2)
  end.

(** [self.nodes], filled for the endpoints other than the dataset. *)
Definition link_nodes (ds : option (string * string))
    (f_name f_key : string) (f_class : option CellClass)
    (t_name t_key : string) (t_class : option CellClass)
  : result (list (string * Node)) :=
  let dataset_name := fst <$> ds in
  nodes1 ← (if bool_decide (Some f_name ≠ dataset_name)
            then n ← Node_init f_class f_key; Ok (od_set f_name n [])
            else Ok []);
  if bool_decide (Some t_name ≠ dataset_name)
  then n ← Node_init t_class t_key; Ok (od_set t_name n nodes1)
  else Ok nodes1.

(** The object [Link.__init__(cm, f, t)] leaves, before it is appended to
    [cm.links]. *)
Definition Link_new (cm : Manager) (f t : string) : result Link :=
  '(f_name, f_key, f_class) ← get_args cm f;
  '(t_name, t_key, t_class) ← get_args cm t;
  ds ← dataset_endpoint cm f_name f_key t_name t_key;
  '(value, distribution) ←
    link_values cm ds f_name f_key f_class t_name t_key t_class;
  if is_None value then Raise (UnresolvableLink f t)
  else
    ns ← link_nodes ds f_name f_key f_class t_name t_key t_class;
    Ok {| link_name := f ++ "->" ++ t;
          link_value := value;
          link_distribution := distribution;
          nodes := ns |}.

(** [Link(cm, f, t)]. *)
Definition Link_init (f t : string) : M Link := fun cm =>
  match Link_new cm f t with
  | Ok l => (append_link l cm, Ok l)
  | Raise e => (cm, Raise e)
  end.

(** [Link.query(name, key)]. *)
Definition query (l : Link) (cell_name key : string) : result pyval :=
  match od_get cell_name (nodes l) with
  | None => Raise (NoSuchNode cell_name)
  | Some node =>
      if bool_decide (key = dim_key node) then
        '(_, value) ← get_link_value (node_C node) l (link_key node);
        if is_None value then Raise Unresolved else Ok value
      else if bool_decide (key = "cell_type") then Ok (link_distribution l)
      else match dist_key node with
           | None => Raise NotSubscriptable
           | Some dk =>
               if bool_decide (key = py_tail dk) then Ok (link_distribution l)
               else Raise (UnsupportedKey cell_name key)
           end
  end.

(** ** [Manager.add_link] *)

(** The argument name the distribution is back-filled under: [dk] after the
    [if dk is None / elif dk.startswith('&') / else] cascade. *)
Definition dist_arg (dk : option string) : option string :=
  match dk with
  | None => None
  | Some s =>
      match strip_amp s with
      | Some s' => Some s'
      | None => Some "cell_type"
      end
  end.

(** [node.C._distribution is not None]. *)
Definition declares_distribution (C : CellClass) : result bool :=
  match _distribution C with
  | None => Raise NoAttribute
  | Some d => Ok (bool_decide (d ≠ None))
  end.

(** The body of the loop over [link.nodes.iteritems()] for a node that is
    not a dataset; [link] is the reference to the new link.  A record has
    no entry under the key [None], so [get(dk, None)] gives [None] when
    [dk] is [None]; the node of a constructed link has [dist_key] equal to
    the class's [_distribution], so the assignment is not reached then. *)
Definition backfill (link : pyval) (node : Node) (args : kwargs)
  : kwargs * result unit :=
  let args1 :=
    if is_None (dict_get args (dim_key node))
    then <[dim_key node := link]> args else args in
  let dk := dist_arg (dist_key node) in
  let unset :=
    match dk with
    | Some k => is_None (dict_get args1 k)
    | None => true
    end in
  if unset then
    match declares_distribution (node_C node) with
    | Raise e => (args1, Raise e)
    | Ok true =>
        match dk with
        | Some k => (<[k := link]> args1, Ok tt)
        | None => (args1, Ok tt)
        end
    | Ok false => (args1, Ok tt)
    end
  else (args1, Ok tt).

Fixpoint add_link_loop (link : pyval) (ns : list (string * Node)) : M unit :=
  fun cm =>
  match ns with
  | [] => (cm, Ok tt)
  | (cell_name, node) :: ns' =>
      if has_key (datasets cm) cell_name then add_link_loop link ns' cm
      else
        match get_cell_args cm cell_name with
        | Raise e => (cm, Raise e)
        | Ok args =>
            match backfill link node args with
            | (args', Ok _) =>
                add_link_loop link ns' (set_cell_args cell_name args' cm)
            | (args', Raise e) => (set_cell_args cell_name args' cm, Raise e)
            end
        end
  end.

Definition add_link (f t : string) : M unit := fun cm =>
  match Link_init f t cm with
  | (cm', Ok l) => add_link_loop (VLink (length (links cm))) (nodes l) cm'
  | (cm', Raise e) => (cm', Raise e)
  end.

(** ** [Manager.build] *)

Section build.

(** [C.factory(name=name, **kwargs)]: the constructor of the class, which is
    specific to each class. *)
Variable factory : CellClass → string → kwargs → M unit.

(** The loop of [build_cell] that replaces the links of the record by the
    values they resolve to; [ks] is [kwargs.keys()]. *)
Fixpoint resolve_placeholders (ls : list Link) (cell_name : string)
    (ks : list string) (args : kwargs) : kwargs * result unit :=
  match ks with
  | [] => (args, Ok tt)
  | k :: ks' =>
      match args !! k with
      | Some (VLink i) =>
          match ls !! i with
          | None => (args, Raise NoAttribute)
          | Some l =>
              match query l cell_name k with
              | Ok value =>
                  resolve_placeholders ls cell_name ks' (<[k := value]> args)
              | Raise e => (args, Raise e)
              end
          end
      | _ => resolve_placeholders ls cell_name ks' args
      end
  end.

Definition build_cell (cell_name : string) : M unit := fun cm =>
  match get_cell_args cm cell_name with
  | Raise e => (cm, Raise e)
  | Ok args =>
      match cell_type ← subscript args "cell_type"; resolve_class cm cell_type with
      | Raise e => (cm, Raise e)
      | Ok C =>
          let '(args', r) :=
            resolve_placeholders (links cm) cell_name
              (fst <$> map_to_list args) args in
          let cm' := set_cell_args cell_name args' cm in
          match r with
          | Raise e => (cm', Raise e)
          | Ok _ =>
              if has_key args' "C" || has_key args' "name"
              then (cm', Raise CallError)
              else factory C cell_name args' cm'
          end
      end
  end.

(** The loop over [self.cell_args.iteritems()].  The table may grow while
    it is walked (building a cell registers its components); the walk goes
    by position and sees the entries added behind it, and [fuel] bounds the
    number of entries visited. *)
Fixpoint build_pending (fuel i : nat) : M unit := fun cm =>
  match od_keys (cell_args cm) !! i with
  | None => (cm, Ok tt)
  | Some k =>
      match fuel with
      | 0 => (cm, Raise OutOfFuel)
      | S fuel' =>
          if od_mem k (cells cm) then build_pending fuel' (S i) cm
          else
            match build_cell k cm with
            | (cm', Ok _) => build_pending fuel' (S i) cm'
            | (cm', Raise e) => (cm', Raise e)
            end
      end
  end.

Definition build (fuel : nat) (cell_name : option string) : M unit := fun cm =>
  match cell_name with
  | Some n =>
      if negb (od_mem n (cells cm)) then build_cell n cm
      else build_pending fuel 0 cm
  | None => build_pending fuel 0 cm
  end.

End build.

(** ** Construction of a cell: the parameter counts and [set_tparams] *)

(** Modelled from the spec: [_p] of [cortex/utils/tools.py] is not among the
    sources; the fully-qualified name of a parameter is
    ["<cell_name>.<param_key>"]. *)
Definition _p (cell_name key : string) : string := cell_name ++ "." ++ key.

(** ['%s[%d]' % (k, i)]. *)
Definition indexed (k : string) (i : nat) : string :=
  k ++ "[" ++ py_decimal i ++ "]".

(** The loop that sets [self.n_params]. *)
Fixpoint count_params (ps : list (string * pvalue)) (n : nat) : nat :=
  match ps with
  | [] => n
  | (_, PArrs l) :: ps' => count_params ps' (n + length l)
  | (_, PArr _) :: ps' => count_params ps' (n + 1)
  end.

(** The loops that set [self.n_component_params]. *)
Fixpoint count_list (cs : list cell) (n : nat) : nat :=
  match cs with
  | [] => n
  | c_ :: cs' => count_list cs' (n + total_params c_)
  end.

Fixpoint count_components (cs : list (string * component)) (n : nat) : nat :=
  match cs with
  | [] => n
  | (_, CompNone) :: cs' => count_components cs' n
  | (_, CompList l) :: cs' => count_components cs' (count_list l n)
  | (_, CompCell c) :: cs' => count_components cs' (n + total_params c)
  end.

(** The handle registered under a name, created and registered if the name
    is new: the [if name not in self.manager.tparams.keys()] of
    [set_tparams]. *)
Definition tparam (full_name : string) (value : ndarray) (cm : Manager)
  : Manager * handle :=
  match tparams cm !! full_name with
  | Some tp => (cm, tp)
  | None =>
      let tp := {| h_id := allocated cm; h_name := full_name; h_value := value |} in
      ({| cells := cells cm;
          cell_args := cell_args cm;
          links := links cm;
          classes := classes cm;
          tparams := <[full_name := tp]> (tparams cm);
          datasets := datasets cm;
          allocated := S (allocated cm) |}, tp)
  end.

(** The inner loop of [set_tparams] over [enumerate(p)]: the handles
    appended to [self.__dict__[k]] and the keys appended to [param_keys]. *)
Fixpoint set_tparams_list (cell_name k : string) (p : list ndarray) (i : nat)
    (cm : Manager) : Manager * (list handle * list string) :=
  match p with
  | [] => (cm, ([], []))
  | pp :: p' =>
      let kk := indexed k i in
      let '(cm1, tp) := tparam (_p cell_name kk) pp cm in
      let '(cm2, (tps, kks)) := set_tparams_list cell_name k p' (S i) cm1 in
      (cm2, (tp :: tps, kk :: kks))
  end.

(** The loop of [set_tparams] over [self.params.iteritems()], from the
    attributes and the [param_keys] reached so far. *)
Fixpoint set_tparams_loop (cell_name : string) (ps : list (string * pvalue))
    (keys : list string) (dict : list (string * pobj)) (cm : Manager)
  : Manager * (list string * list (string * pobj)) :=
  match ps with
  | [] => (cm, (keys, dict))
  | (k, PArrs p) :: ps' =>
      let '(cm1, (tps, kks)) := set_tparams_list cell_name k p 0 cm in
      set_tparams_loop cell_name ps' (keys ++ kks)
        (od_set k (OHandles tps) dict) cm1
  | (k, PArr p) :: ps' =>
      let '(cm1, tp) := tparam (_p cell_name k) p cm in
      set_tparams_loop cell_name ps' (keys ++ [k])
        (od_set k (OHandle tp) dict) cm1
  end.

Definition set_tparams (cell_name : string) (ps : list (string * pvalue))
    (cm : Manager) : Manager * (list string * list (string * pobj)) :=
  set_tparams_loop cell_name ps [] [] cm.

(** [Cell.__init__] from the parameter counts on: [ps] is [self.params] as
    [init_params] left it and [cs] the components [set_components] bound. *)
Definition Cell_init (cell_name : string) (ws : list string) (wn : bool)
    (ps : list (string * pvalue)) (cs : list (string * component))
    (cm : Manager) : Manager * cell :=
  let n := count_params ps 0 in
  let nc := count_components cs 0 in
  let '(cm', (keys, dict)) := set_tparams cell_name ps cm in
  (cm', {| name := cell_name;
           _weights := ws;
           weight_noise := wn;
           params := (fun kp => (KName kp.1, EInit kp.2)) <$> ps;
           comps := cs;
           n_params := n;
           n_component_params := nc;
           total_params := n + nc;
           param_keys := keys;
           attrs := dict |}).

(** The direct sub-cells of a cell. *)
Definition component_cells (comp : component) : list cell :=
  match comp with
  | CompNone => []
  | CompCell c => [c]
  | CompList cs => cs
  end.

Definition subcells (cs : list (string * component)) : list cell :=
  concat (map (fun kc => component_cells kc.2) cs).

(** A cell as construction leaves it, with components that were constructed
    before it. *)
Inductive Built : cell → Prop :=
  | Built_init cell_name ws wn ps cs cm :
      (∀ sub, sub ∈ subcells cs → Built sub) →
      Built (Cell_init cell_name ws wn ps cs cm).2.

(** ** [Cell.get_params] *)

(** [[self.__dict__[k] for k in self.param_keys]]. *)
Fixpoint own_params (dict : list (string * pobj)) (keys : list string)
  : result (list pobj) :=
  match keys with
  | [] => Ok []
  | k :: keys' =>
      match od_get k dict with
      | None => Raise BareKeyError
      | Some o => os ← own_params dict keys'; Ok (o :: os)
      end
  end.

(** [param.name], as the operand of [w in param.name]: a list has no such
    attribute, and the name of a sum is [None]. *)
Definition param_name (param : pobj) : result string :=
  match param with
  | OHandle h => Ok (h_name h)
  | OHandles _ => Raise NoAttribute
  | ONoisy _ => Raise NotIterable
  end.

(** [param += self.trng.normal(...)]: a new symbolic value. *)
Definition noisy (param : pobj) : pobj :=
  match param with
  | OHandle h => ONoisy h
  | _ => param
  end.

(** The loop [for w in self._weights] with its [break]. *)
Fixpoint add_noise (ws : list string) (param : pobj) : result pobj :=
  match ws with
  | [] => Ok param
  | w :: ws' =>
      nm ← param_name param;
      if py_contains w nm then Ok (noisy param) else add_noise ws' param
  end.

(** The loop [for i in range(len(params))] of the noise branch: it writes
    [self.params[i]] and leaves the list [params] as it is. *)
Fixpoint noise_loop (ws : list string) (own : list pobj) (i : nat)
    (ps : list (pkey * pentry)) : list (pkey * pentry) * result unit :=
  match own with
  | [] => (ps, Ok tt)
  | param :: own' =>
      match add_noise ws param with
      | Raise e => (ps, Raise e)
      | Ok param' => noise_loop ws own' (S i) (od_set (KPos i) (ETensor param') ps)
      end
  end.

(** The loop over a list-valued component; [gp] is [get_params]. *)
Definition get_params_list (gp : cell → cell * result (list pobj))
  : list cell → list pobj → list cell * result (list pobj) :=
  fix walk (l : list cell) (acc : list pobj) :=
    match l with
    | [] => ([], Ok acc)
    | c_ :: l' =>
        match gp c_ with
        | (c_', Ok c_params) =>
            let '(l'', r) := walk l' (acc ++ c_params) in (c_' :: l'', r)
        | (c_', Raise e) => (c_' :: l', Raise e)
        end
    end.

(** The loop [for key in self.component_keys]. *)
Definition get_params_comps (gp : cell → cell * result (list pobj))
  : list (string * component) → list pobj →
    list (string * component) * result (list pobj) :=
  fix walk (cs : list (string * component)) (acc : list pobj) :=
    match cs with
    | [] => ([], Ok acc)
    | (k, CompNone) :: cs' =>
        let '(cs'', r) := walk cs' acc in ((k, CompNone) :: cs'', r)
    | (k, CompCell sub) :: cs' =>
        match gp sub with
        | (sub', Ok c_params) =>
            let '(cs'', r) := walk cs' (acc ++ c_params) in
            ((k, CompCell sub') :: cs'', r)
        | (sub', Raise e) => ((k, CompCell sub') :: cs', Raise e)
        end
    | (k, CompList l) :: cs' =>
        match get_params_list gp l acc with
        | (l', Ok acc') =>
            let '(cs'', r) := walk cs' acc' in ((k, CompList l') :: cs'', r)
        | (l', Raise e) => ((k, CompList l') :: cs', Raise e)
        end
    end.

(** [get_params()] with [params=None]; [noise_switch] is what the global
    [noise_switch()] returns.  The cell is returned as the call leaves it. *)
Fixpoint get_params (noise_switch : bool) (c : cell) {struct c}
  : cell * result (list pobj) :=
  match c with
  | Cell nm ws wn ps cs n nc t keys dict =>
      match own_params dict keys with
      | Raise e => (c, Raise e)
      | Ok own =>
          let '(ps', r) :=
            if noise_switch && wn then noise_loop ws own 0 ps else (ps, Ok tt) in
          match r with
          | Raise e => (Cell nm ws wn ps' cs n nc t keys dict, Raise e)
          | Ok _ =>
              let '(cs', r') := get_params_comps (get_params noise_switch) cs own in
              (Cell nm ws wn ps' cs' n nc t keys dict, r')
          end
      end
  end.

(** ** [Cell.select_params] *)

(** [params[start:end]]. *)
Definition py_slice {A} (start end_ : nat) (l : list A) : list A :=
  take (end_ - start) (drop start l).

(** The state of the search: [start], [end], [found]. *)
Definition scan := (nat * nat * bool)%type.

(** The loop [for i in xrange(len(component))]; its [break] leaves this
    loop only. *)
Fixpoint select_list (key k : string) (l : list cell) (i : nat) (st : scan)
  : scan :=
  match l with
  | [] => st
  | c_ :: l' =>
      let '(start, end_, found) := st in
      let len := total_params c_ in
      if bool_decide ((k ++ "_" ++ py_decimal i)%string = key)
      then (start, start + len, true)
      else select_list key k l' (S i) (start + len, end_, found)
  end.

(** The loop [for k in self.component_keys]. *)
Fixpoint select_comps (key : string) (cs : list (string * component))
    (st : scan) : scan :=
  match cs with
  | [] => st
  | (k, CompNone) :: cs' => select_comps key cs' st
  | (k, CompList l) :: cs' => select_comps key cs' (select_list key k l 0 st)
  | (k, CompCell sub) :: cs' =>
      let '(start, end_, found) := st in
      let len := total_params sub in
      if bool_decide (k = key) then (start, start + len, true)
      else select_comps key cs' (start + len, end_, found)
  end.

Definition select_params {A} (c : cell) (key : option string) (ps : list A)
  : result (list A) :=
  match key with
  | None => Ok (py_slice 0 (n_params c) ps)
  | Some key =>
      let '(start, end_, found) := select_comps key (comps c) (n_params c, 0, false) in
      if found then Ok (py_slice start end_ ps)
      else Raise (ComponentNotFound key)
  end.

(** ** Vocabulary of the statements *)

(** A name without ['.'], so that ["<name>.<key>"] splits back into the name
    and the key. *)
Fixpoint no_dot (s : string) : bool :=
  match s with
  | EmptyString => true
  | String c s' => negb (Ascii.eqb c dot) && no_dot s'
  end.

(** ["<owner>.<key>"]. *)
Definition ref_to (owner key : string) : string := owner ++ "." ++ key.

(** The endpoint [(owner, key)] of the link from [f] to [t] that is a
    dataset, the other endpoint not being one. *)
Definition only_dataset_endpoint (cm : Manager) (f t owner key : string) : Prop :=
  (split_arg f = (owner, key)
   ∧ has_key (datasets cm) owner = true
   ∧ has_key (datasets cm) (split_arg t).1 = false)
  ∨ (split_arg t = (owner, key)
     ∧ has_key (datasets cm) owner = true
     ∧ has_key (datasets cm) (split_arg f).1 = false).

(** A constructor that, when it returns, has registered the cell, has
    removed no cell, and has at most added entries at the end of the
    argument table (the components it declared). *)
Definition registers (factory : CellClass → string → kwargs → M unit) : Prop :=
  ∀ C cell_name args cm cm',
    factory C cell_name args cm = (cm', Ok tt) →
    od_keys (cell_args cm) `prefix_of` od_keys (cell_args cm')
    ∧ (∀ k, od_mem k (cells cm) = true → od_mem k (cells cm') = true)
    ∧ od_mem cell_name (cells cm') = true.

(** The argument the distribution of a node is stored under: the
    distribution key without its leading ['&'], or ['cell_type']. *)
Definition distribution_argument (s : string) : string :=
  match strip_amp s with
  | Some s' => s'
  | None => "cell_type"
  end.

(** [args.get(k, None) is None]: the argument is not set. *)
Definition unset (args : kwargs) (k : string) : bool := is_None (dict_get args k).

(** A sequence of registrations: [set_tparams] run for one cell after the
    other, each given by its name and its [params]. *)
Definition register_all (regs : list (string * list (string * pvalue)))
    (cm : Manager) : Manager :=
  foldl (fun cm r => (set_tparams r.1 r.2 cm).1) cm regs.

(** The number of parameters a group stands for: its length for a
    list-valued group, one otherwise. *)
Definition group_size (p : pvalue) : nat :=
  match p with
  | PArrs l => length l
  | PArr _ => 1
  end.

(** The later operations on a constructed cell.  [select_params] and
    [get_n_params] assign nothing; [get_params] leaves the cell as its noise
    branch writes it. *)
Inductive operation :=
  | GetParams (noise_switch : bool)
  | SelectParams (key : option string) (ps : list pobj)
  | GetNParams.

Definition run (c : cell) (op : operation) : cell :=
  match op with
  | GetParams noise_switch => (get_params noise_switch c).1
  | SelectParams _ _ | GetNParams => c
  end.

(** A cell whose parameter groups are all scalar, as are those of the cells
    below it. *)
Inductive ScalarOnly : cell → Prop :=
  | ScalarOnly_intro c :
      (∀ k e, (k, e) ∈ params c → ∃ a, e = EInit (PArr a)) →
      (∀ sub, sub ∈ subcells (comps c) → ScalarOnly sub) →
      ScalarOnly c.

(** [key] addresses the component declared under [k]: by its name, or by
    ["<name>_<index>"] for a member of a list-valued component. *)
Definition addresses (key k : string) : Prop :=
  key = k ∨ ∃ i : nat, key = (k ++ "_" ++ py_decimal i)%string.

(** * Further operations *)

(** ** More of the manager *)

(** [Manager.split_ref(ref)]. *)
Definition split_ref (ref : string) : string * string :=
  let l := py_split dot ref in
  (py_join "." (all_but_last l), List.last l "").

(** [del d[k]] on an association list whose keys are distinct. *)
Fixpoint od_del {K V} `{EqDecision K} (k : K) (d : list (K * V)) : list (K * V) :=
  match d with
  | [] => []
  | (k', v) :: d' => if decide (k = k') then d' else (k', v) :: od_del k d'
  end.

(** [Manager.remove_cell(key)]: the two [del] statements in turn. *)
Definition remove_cell (key : string) : M unit := fun cm =>
  if od_mem key (cells cm) then
    let cm1 :=
      {| cells := od_del key (cells cm);
         cell_args := cell_args cm;
         links := links cm;
         classes := classes cm;
         tparams := tparams cm;
         datasets := datasets cm;
         allocated := allocated cm |} in
    if od_mem key (cell_args cm) then
      ({| cells := cells cm1;
          cell_args := od_del key (cell_args cm);
          links := links cm;
          classes := classes cm;
          tparams := tparams cm;
          datasets := datasets cm;
          allocated := allocated cm |}, Ok tt)
    else (cm1, Raise BareKeyError)
  else (cm, Raise BareKeyError).

(** [Manager.__getitem__(key)]. *)
Definition Manager_getitem (cm : Manager) (key : string) : result cell :=
  match od_get key (cells cm) with
  | Some c => Ok c
  | None => Raise BareKeyError
  end.

Section setitem.

(** [cell.get_args()]: it reads attributes of the instance and of its class
    that the record [cell] does not hold. *)
Variable Cell_get_args : cell → result kwargs.

(** [Manager.__setitem__(key, cell)] for a [cell] that is a [Cell]. *)
Definition Manager_setitem (key : string) (c : cell) : M unit := fun cm =>
  let cm1 :=
    {| cells := od_set key c (cells cm);
       cell_args := cell_args cm;
       links := links cm;
       classes := classes cm;
       tparams := tparams cm;
       datasets := datasets cm;
       allocated := allocated cm |} in
  match Cell_get_args c with
  | Ok args => (set_cell_args key args cm1, Ok tt)
  | Raise e => (cm1, Raise e)
  end.

End setitem.


(** ** More of [Cell] *)

(** [Cell.set_options]: an option is taken out of the keyword
    arguments, or takes its default; the pair is the option attributes and
    the arguments that are left. *)
Definition set_options (options kw : kwargs) : kwargs * kwargs :=
  foldl (fun st kv => (<[kv.1 := default kv.2 (st.2 !! kv.1)]> st.1,
                       delete kv.1 st.2))
    (∅, kw) (map_to_list options).

(** The TypeError of [Cell.factory]: a required argument is absent or
    [None]. *)
Inductive factory_error :=
  | MissingRequired (req : string).

(** [reqs = OrderedDict((k, kwargs[k]) for k in C._required if k in kwargs)]. *)
Fixpoint factory_reqs (required : list string) (kw : kwargs)
    (reqs : list (string * pyval)) : list (string * pyval) :=
  match required with
  | [] => reqs
  | k :: required' =>
      match kw !! k with
      | Some v => factory_reqs required' kw (od_set k v reqs)
      | None => factory_reqs required' kw reqs
      end
  end.

(** The loop [for req in C._required] that checks the required arguments. *)
Fixpoint factory_check (required : list string) (reqs : list (string * pyval))
  : option factory_error :=
  match required with
  | [] => None
  | req :: required' =>
      match od_get req reqs with
      | None | Some VNone => Some (MissingRequired req)
      | Some _ => factory_check required' reqs
      end
  end.

(** [Cell.factory(C, cell_type=None, **kwargs)], up to the call of the
    constructor: the positional arguments [reqs.values()] and the keyword
    arguments [options] the constructor is called with.  [required] is
    [C._required]; an entry [cell_type] of the caller binds the parameter of
    that name and is not among [kw]. *)
Definition factory_args (required : list string) (kw : kwargs)
  : factory_error + (list pyval * kwargs) :=
  let reqs := factory_reqs required kw [] in
  let options := filter (fun kv => kv.1 ∉ required) kw in
  match factory_check required reqs with
  | Some e => inl e
  | None => inr (reqs.*2, options)
  end.

(** The body of [get_params(params)] once [params] is a list: the list the
    method builds itself, or the one a subclass passes (as [CNN2D] does for
    its list-valued groups). *)
Definition get_params_from (noise_switch : bool) (own : list pobj) (c : cell)
  : cell * result (list pobj) :=
  match c with
  | Cell nm ws wn ps cs n nc t keys dict =>
      let '(ps', r) :=
        if noise_switch && wn then noise_loop ws own 0 ps else (ps, Ok tt) in
      match r with
      | Raise e => (Cell nm ws wn ps' cs n nc t keys dict, Raise e)
      | Ok _ =>
          let '(cs', r') := get_params_comps (get_params noise_switch) cs own in
          (Cell nm ws wn ps' cs' n nc t keys dict, r')
      end
  end.

(** [CNN2D.get_params]: the handles of [self.weights] and [self.biases],
    paired by [zip] and flattened, are passed to the method of [Cell].
    [weights] and [biases] are the two attributes, which [set_tparams] binds
    to lists of handles. *)
Definition CNN2D_get_params (noise_switch : bool) (weights biases : list handle)
    (c : cell) : cell * result (list pobj) :=
  let params := zip weights biases in
  let params := concat ((fun sl => [OHandle sl.1; OHandle sl.2]) <$> params) in
  get_params_from noise_switch params c.

(** [Cell._feed]: the identity graph,
    [OrderedDict(('X_%d' % i, args[i]) for i in range(len(args)))]. *)
Fixpoint feed_from {A} (i : nat) (args : list A) (d : list (string * A))
  : list (string * A) :=
  match args with
  | [] => d
  | x :: args' => feed_from (S i) args' (od_set ("X_" ++ py_decimal i)%string x d)
  end.

Definition _feed {A} (args : list A) : list (string * A) := feed_from 0 args [].

(** [Cell.__call__] of the base class, where [init_args] returns its
    positional arguments: the inputs and then the parameters are fed to
    [_feed].  The inputs are tensors of any kind [T]. *)
Definition Cell_call {T} (noise_switch : bool) (c : cell) (args : list T)
  : cell * result (list (string * (T + pobj))) :=
  let '(c', r) := get_params noise_switch c in
  (c', params ← r; Ok (_feed ((inl <$> args) ++ (inr <$> params)))).


(** ** More vocabulary *)

(** The list [get_params] returns, empty when it raises. *)
Definition flat_params (noise_switch : bool) (c : cell) : list pobj :=
  match (get_params noise_switch c).2 with
  | Ok l => l
  | Raise _ => []
  end.

(** The parameter table is well named: a handle is registered under its own
    name, was created by the engine, and is registered once. *)
Definition tparams_ok (cm : Manager) : Prop :=
  ∀ n h, tparams cm !! n = Some h →
    h_name h = n
    ∧ h_id h < allocated cm
    ∧ ∀ n' h', tparams cm !! n' = Some h' → h_id h' = h_id h → n' = n.

(** The value a placeholder of the record is replaced by when the cell is
    built. *)
Definition resolved_entry (ls : list Link) (cell_name k : string) (v : pyval)
  : result pyval :=
  match v with
  | VLink i =>
      match ls !! i with
      | Some l => query l cell_name k
      | None => Raise NoAttribute
      end
  | _ => Ok v
  end.

(** The keys a parameter group contributes to [param_keys]: its name, or
    ['<name>[<i>]'] for each member of a list-valued group. *)
Definition group_keys (kp : string * pvalue) : list string :=
  match kp.2 with
  | PArr _ => [kp.1]
  | PArrs l => (fun i => indexed kp.1 i) <$> seq 0 (length l)
  end.

(** ** Sample states

    Small managers, classes and cells on which the operations are run. *)

(** A class with the dimension map of the recurrent cells, that declares a
    distribution taken from the argument [dist]. *)
Definition sample_class : CellClass :=
  {| _dim_map := {[ "input" := "dim_in"; "output" := "dim_out" ]};
     _dist_map := {[ "P" := "distribution_type" ]};
     _distribution := Some (Some "&dist") |}.

Definition empty_manager : Manager :=
  {| cells := [];
     cell_args := [];
     links := [];
     classes := {[ "MLP" := sample_class ]};
     tparams := ∅;
     datasets := ∅;
     allocated := 0 |}.

(** A leaf cell with one scalar parameter, built in the empty manager. *)
Definition sample_leaf : cell :=
  (Cell_init "a" [] false [("W", PArr 0)] [] empty_manager).2.

(** The cell [a] is declared with two arguments and is built. *)
Definition built_manager : Manager :=
  {| cells := [("a", sample_leaf)];
     cell_args := [("a", {[ "cell_type" := VStr "MLP"; "dim_in" := VInt 5 ]})];
     links := [];
     classes := {[ "MLP" := sample_class ]};
     tparams := ∅;
     datasets := ∅;
     allocated := 0 |}.

(** The cell [a] is declared with two arguments and is not built. *)
Definition pending_manager : Manager :=
  {| cells := [];
     cell_args := [("a", {[ "cell_type" := VStr "MLP"; "dim_in" := VInt 5 ]})];
     links := [];
     classes := {[ "MLP" := sample_class ]};
     tparams := ∅;
     datasets := ∅;
     allocated := 0 |}.

Definition sample_dataset : Dataset :=
  {| dims := {[ "input" := VInt 784 ]};
     distributions := {[ "input" := VStr "binomial" ]} |}.

(** The dataset [D] and the declared cell [mlp]. *)
Definition dataset_manager : Manager :=
  {| cells := [];
     cell_args := [("mlp", {[ "cell_type" := VStr "MLP"; "dim_out" := VInt 10 ]})];
     links := [];
     classes := {[ "MLP" := sample_class ]};
     tparams := ∅;
     datasets := {[ "D" := sample_dataset ]};
     allocated := 0 |}.

(** Two datasets. *)
Definition two_datasets_manager : Manager :=
  {| cells := [];
     cell_args := [];
     links := [];
     classes := {[ "MLP" := sample_class ]};
     tparams := ∅;
     datasets := {[ "D" := sample_dataset; "E" := sample_dataset ]};
     allocated := 0 |}.

(** A dataset registered under a name with a dot. *)
Definition dotted_manager : Manager :=
  {| cells := [];
     cell_args := [];
     links := [];
     classes := {[ "MLP" := sample_class ]};
     tparams := ∅;
     datasets := {[ "my.data" := sample_dataset ]};
     allocated := 0 |}.


(** A constructor that registers the cell it is asked for, with no
    parameters and no components. *)
Definition sample_factory (C : CellClass) (cell_name : string) (args : kwargs)
  : M unit := fun cm =>
  ({| cells := od_set cell_name (Cell_init cell_name [] false [] [] cm).2 (cells cm);
      cell_args := cell_args cm;
      links := links cm;
      classes := classes cm;
      tparams := tparams cm;
      datasets := datasets cm;
      allocated := allocated cm |}, Ok tt).

(** [a] is built, [b] is declared. *)
Definition half_built_manager : Manager :=
  {| cells := [("a", sample_leaf)];
     cell_args := [("a", {[ "cell_type" := VStr "MLP" ]});
                   ("b", {[ "cell_type" := VStr "MLP" ]})];
     links := [];
     classes := {[ "MLP" := sample_class ]};
     tparams := ∅;
     datasets := ∅;
     allocated := 0 |}.

(** The manager after the cell [a] was constructed with a scalar parameter
    [W] and a list-valued group [b]. *)
Definition first_manager : Manager :=
  (Cell_init "a" [] false [("W", PArr 0); ("b", PArrs [1; 2])] [] empty_manager).1.

(** The handle this construction registered under ["a.W"]. *)
Definition first_handle : handle :=
  {| h_id := 0; h_name := "a.W"; h_value := 0 |}.


(** A cell with a scalar parameter, a component with one, a list-valued
    component of two such cells, and a component that is absent. *)
Definition sample_unit (cell_name : string) (cm : Manager) : Manager * cell :=
  Cell_init cell_name ["W"] true [("W", PArr 0)] [] cm.

Definition sample_ru : cell := (sample_unit "rnn.RU" empty_manager).2.

Definition sample_layers : list cell :=
  let cm1 := (sample_unit "rnn.RU" empty_manager).1 in
  [(sample_unit "rnn.layers_0" cm1).2;
   (sample_unit "rnn.layers_1" (sample_unit "rnn.layers_0" cm1).1).2].

Definition sample_rnn : cell :=
  let cm1 := (sample_unit "rnn.RU" empty_manager).1 in
  let cm2 := (sample_unit "rnn.layers_0" cm1).1 in
  let cm3 := (sample_unit "rnn.layers_1" cm2).1 in
  (Cell_init "rnn" ["W"] true [("W", PArr 5); ("b", PArr 6)]
     [("RU", CompCell sample_ru); ("aux_net", CompNone);
      ("layers", CompList sample_layers)]
     cm3).2.

(** A cell whose list-valued component is followed by another component. *)
Definition sample_stack : cell :=
  let cm1 := (sample_unit "net.RU" empty_manager).1 in
  let cm2 := (sample_unit "net.layers_0" cm1).1 in
  (Cell_init "net" [] false [("W", PArr 5)]
     [("layers", CompList [(sample_unit "net.layers_0" cm1).2]);
      ("RU", CompCell (sample_unit "net.RU" empty_manager).2)]
     cm2).2.



(** A convolutional cell with two layers: a list of weights and a list of
    biases. *)
Definition sample_cnn : cell :=
  (Cell_init "cnn" [] false
     [("weights", PArrs [0; 1]); ("biases", PArrs [2; 3])] [] empty_manager).2.
(** * Properties *)

(** ** Association lists *)

Section assoc_facts.
Context {K V : Type} `{EqDecision K}.
Implicit Types (k : K) (v : V) (d : list (K * V)).

Lemma od_get_set_eq k v d : od_get k (od_set k v d) = Some v.
Proof.
  induction d as [|[k' v'] d IH]; simpl.
  - by rewrite decide_True.
  - destruct (decide (k = k')) as [->|Hne]; simpl.
    + by rewrite decide_True.
    + by rewrite decide_False.
Qed.

Lemma od_get_set_ne k k' v d : k ≠ k' → od_get k' (od_set k v d) = od_get k' d.
Proof.
  intros Hne. induction d as [|[k0 v0] d IH]; simpl.
  - rewrite decide_False; [done | congruence].
  - destruct (decide (k = k0)) as [->|Hk]; simpl.
    + rewrite !decide_False; [done | congruence | congruence].
    + by rewrite IH.
Qed.

Lemma od_keys_set_mem k v v0 d :
  od_get k d = Some v0 → od_keys (od_set k v d) = od_keys d.
Proof.
  induction d as [|[k' v'] d IH]; simpl; [done|].
  destruct (decide (k = k')) as [->|Hne]; simpl; [done|].
  intros Hget. by rewrite IH.
Qed.

Lemma od_get_Some_keys k v d : od_get k d = Some v → k ∈ od_keys d.
Proof.
  induction d as [|[k' v'] d IH]; simpl; [done|].
  destruct (decide (k = k')) as [->|Hne]; [intros _; apply list_elem_of_here|].
  intros Hget. apply list_elem_of_further. by apply IH.
Qed.

Lemma od_get_None_keys k d : od_get k d = None → k ∉ od_keys d.
Proof.
  induction d as [|[k' v'] d IH]; simpl.
  - intros _. apply not_elem_of_nil.
  - destruct (decide (k = k')) as [->|Hne]; [done|].
    intros Hget Hin. apply elem_of_cons in Hin as [?|Hin]; [done|].
    by apply IH.
Qed.

Lemma od_mem_get k d : od_mem k d = true ↔ is_Some (od_get k d).
Proof.
  unfold od_mem. rewrite bool_decide_eq_true. split.
  - intros Hin. destruct (od_get k d) eqn:Hget; [eauto|].
    by apply od_get_None_keys in Hget.
  - intros [v Hget]. by eapply od_get_Some_keys.
Qed.

End assoc_facts.

(** ** [match_args] *)

Lemma has_key_empty {V} (k : string) : has_key (∅ : gmap string V) k = false.
Proof.
  unfold has_key. apply bool_decide_eq_false. rewrite lookup_empty.
  by intros [? ?].
Qed.

Lemma has_key_true {V} (d : gmap string V) k : has_key d k = true ↔ is_Some (d !! k).
Proof. unfold has_key. apply bool_decide_eq_true. Qed.

Lemma has_key_false {V} (d : gmap string V) k : has_key d k = false ↔ d !! k = None.
Proof.
  unfold has_key. rewrite bool_decide_eq_false. by rewrite eq_None_not_Some.
Qed.

(** On a built cell the record is emptied first, so the first keyword
    argument looked at is rejected as unknown. *)
Lemma match_args_built_rejects cm cell_name k v kw :
  od_mem cell_name (cells cm) = true →
  od_mem cell_name (cell_args cm) = true →
  match_args cell_name ((k, v) :: kw) cm
  = (set_cell_args cell_name ∅ cm, Raise (UnknownArgument k cell_name)).
Proof.
  intros Hc Ha. unfold match_args. rewrite Hc, Ha. simpl.
  by rewrite has_key_empty.
Qed.

(** The loop on a cell that is not built adds every argument. *)
Lemma match_args_loop_unbuilt cell_name kw (args : kwargs) :
  NoDup kw.*1 →
  (∀ k, k ∈ kw.*1 → args !! k = None) →
  match_args_loop false cell_name kw args
  = (foldl (fun a kv => <[kv.1 := kv.2]> a) args kw, Ok tt).
Proof.
  revert args. induction kw as [|[k v] kw IH]; intros args Hnd Hfresh; [done|].
  apply NoDup_cons in Hnd as [Hk Hnd]. simpl.
  assert (has_key args k = false) as ->.
  { apply has_key_false, Hfresh. simpl. apply list_elem_of_here. }
  simpl. rewrite lookup_insert_eq.
  assert (negb (is_None v) && py_ne v v = false) as ->.
  { unfold py_ne. rewrite bool_decide_eq_false_2 by (intros H; by apply H).
    apply andb_false_r. }
  apply IH; [done|].
  intros k' Hk'. rewrite lookup_insert_ne.
  - apply Hfresh. simpl. by apply list_elem_of_further.
  - intros ->. done.
Qed.

Lemma foldl_insert_lookup (kw : list (string * pyval)) (args : kwargs) k :
  NoDup kw.*1 →
  foldl (fun a kv => <[kv.1 := kv.2]> a) args kw !! k
  = match od_get k kw with
    | Some v => Some v
    | None => args !! k
    end.
Proof.
  revert args. induction kw as [|[k' v'] kw IH]; intros args Hnd; [done|].
  apply NoDup_cons in Hnd as [Hk Hnd]. simpl. rewrite IH by done.
  destruct (decide (k = k')) as [->|Hne].
  - destruct (od_get k' kw) eqn:Hget.
    + apply od_get_Some_keys in Hget. done.
    + apply lookup_insert_eq.
  - destruct (od_get k kw); [done|]. by rewrite lookup_insert_ne.
Qed.

(** On a cell that is not built, the record left is exactly the incoming
    arguments: what the record held before is dropped. *)
Lemma match_args_unbuilt_replaces cm cell_name kw :
  od_mem cell_name (cells cm) = false →
  NoDup kw.*1 →
  ∃ args,
    match_args cell_name kw cm = (set_cell_args cell_name args cm, Ok tt)
    ∧ ∀ k, args !! k = od_get k kw.
Proof.
  intros Hc Hnd. unfold match_args. rewrite Hc. simpl.
  rewrite match_args_loop_unbuilt; [|done|intros; apply lookup_empty].
  eexists. split; [done|].
  intros k. rewrite foldl_insert_lookup by done.
  destruct (od_get k kw); [done|apply lookup_empty].
Qed.

(** C1.  On a built cell, [match_args] with a key that the record holds and
    an equal value is expected to succeed and change nothing.  The code
    empties the record before it looks at the arguments: here the cell [a]
    is built with [dim_in = 5], and [match_args('a', dim_in=5)] raises the
    KeyError of an unknown argument and leaves the record of [a] empty. *)
Theorem match_args_built_same_value_raises :
  od_mem "a" (cells built_manager) = true
  ∧ (∃ args, od_get "a" (cell_args built_manager) = Some args
             ∧ args !! "dim_in" = Some (VInt 5))
  ∧ (match_args "a" [("dim_in", VInt 5)] built_manager).2
    = Raise (UnknownArgument "dim_in" "a")
  ∧ od_get "a" (cell_args (match_args "a" [("dim_in", VInt 5)] built_manager).1)
    = Some ∅.
Proof.
  split; [done|]. split; [eexists; split; [reflexivity|done]|].
  rewrite match_args_built_rejects by done. done.
Qed.

(** On a built cell a different value is rejected in the same way, as an
    unknown argument and not as a mismatch. *)
Lemma match_args_built_other_value_raises :
  (match_args "a" [("dim_in", VInt 6)] built_manager).2
  = Raise (UnknownArgument "dim_in" "a").
Proof. by rewrite match_args_built_rejects. Qed.

(** C2.  On a cell that is declared and not built, [match_args] is expected
    to merge the incoming arguments into the record.  The code starts from
    an empty record: here [a] holds [cell_type] and [dim_in], and after
    [match_args('a', dim_out=10)] its record holds [dim_out] alone. *)
Theorem match_args_unbuilt_drops_record :
  od_mem "a" (cells pending_manager) = false
  ∧ (∃ args, od_get "a" (cell_args pending_manager) = Some args
             ∧ args !! "dim_in" = Some (VInt 5))
  ∧ ∃ args',
      match_args "a" [("dim_out", VInt 10)] pending_manager
      = (set_cell_args "a" args' pending_manager, Ok tt)
      ∧ args' !! "dim_out" = Some (VInt 10)
      ∧ args' !! "dim_in" = None
      ∧ args' !! "cell_type" = None.
Proof.
  split; [done|]. split; [eexists; split; [reflexivity|done]|].
  destruct (match_args_unbuilt_replaces pending_manager "a" [("dim_out", VInt 10)])
    as (args' & Heq & Hlook); [done| |].
  { simpl. apply NoDup_singleton. }
  exists args'. split; [done|]. rewrite !Hlook. done.
Qed.

(** ** [build] *)

Section build_all.

Variable factory : CellClass → string → kwargs → M unit.

Hypothesis factory_registers : registers factory.

Lemma build_cell_registers cell_name cm cm' :
  build_cell factory cell_name cm = (cm', Ok tt) →
  od_keys (cell_args cm) `prefix_of` od_keys (cell_args cm')
  ∧ (∀ k, od_mem k (cells cm) = true → od_mem k (cells cm') = true)
  ∧ od_mem cell_name (cells cm') = true.
Proof.
  unfold build_cell, get_cell_args.
  destruct (od_get cell_name (cell_args cm)) as [args|] eqn:Hargs; [|done].
  destruct (subscript args "cell_type" ≫= resolve_class cm) as [C|]; [|done].
  destruct (resolve_placeholders (links cm) cell_name (map_to_list args).*1 args)
    as [args' [[]|e]]; [|done].
  destruct (has_key args' "C" || has_key args' "name"); [done|].
  intros Hf. apply factory_registers in Hf as (Hkeys & Hcells & Hnew).
  simpl in Hkeys, Hcells.
  by rewrite (od_keys_set_mem _ _ _ _ Hargs) in Hkeys.
Qed.

(** The walk from position [i], when every cell before [i] is built and the
    walk returns: every cell of the table it ends with is built. *)
Lemma build_pending_builds_all fuel i cm cm' :
  (∀ j k, j < i → od_keys (cell_args cm) !! j = Some k →
     od_mem k (cells cm) = true) →
  build_pending factory fuel i cm = (cm', Ok tt) →
  ∀ k, k ∈ od_keys (cell_args cm') → od_mem k (cells cm') = true.
Proof.
  revert i cm. induction fuel as [|fuel IH]; intros i cm Hbefore; simpl.
  - destruct (od_keys (cell_args cm) !! i) as [k0|] eqn:Hi; [done|].
    intros [= <-] k [j Hj]%list_elem_of_lookup. apply (Hbefore j); [|done].
    apply lookup_ge_None in Hi. apply lookup_lt_Some in Hj. lia.
  - destruct (od_keys (cell_args cm) !! i) as [k0|] eqn:Hi.
    + destruct (od_mem k0 (cells cm)) eqn:Hbuilt.
      * apply IH. intros j k Hj Hk.
        destruct (decide (j = i)) as [->|Hne]; [congruence|].
        apply (Hbefore j); [lia|done].
      * destruct (build_cell factory k0 cm) as [cm1 [[]|e]] eqn:Hb; [|done].
        apply build_cell_registers in Hb as (Hkeys & Hcells & Hnew).
        apply IH. intros j k Hj Hk.
        assert (od_keys (cell_args cm) !! j = Some k) as Hk'.
        { destruct (od_keys (cell_args cm) !! j) as [k'|] eqn:Hj'.
          - by rewrite (prefix_lookup_Some _ _ _ _ Hj' Hkeys) in Hk.
          - apply lookup_ge_None in Hj'. apply lookup_lt_Some in Hi. lia. }
        destruct (decide (j = i)) as [->|Hne]; [congruence|].
        apply Hcells, (Hbefore j); [lia|done].
    + intros [= <-] k [j Hj]%list_elem_of_lookup. apply (Hbefore j); [|done].
      apply lookup_ge_None in Hi. apply lookup_lt_Some in Hj. lia.
Qed.

(** [build()] that returns leaves no declared cell unbuilt. *)
Lemma build_builds_all fuel cm cm' :
  build factory fuel None cm = (cm', Ok tt) →
  ∀ k, k ∈ od_keys (cell_args cm') → od_mem k (cells cm') = true.
Proof.
  unfold build. apply build_pending_builds_all. intros j k Hj. lia.
Qed.

End build_all.

(** The sample constructor is of this kind. *)
Lemma sample_factory_registers : registers sample_factory.
Proof.
  intros C cell_name args cm cm'. unfold sample_factory. intros [= <-]. simpl. split; [done|]. split.
  - intros k [v Hk]%od_mem_get. apply od_mem_get.
    destruct (decide (cell_name = k)) as [->|Hne].
    + rewrite od_get_set_eq. eauto.
    + rewrite od_get_set_ne by done. eauto.
  - apply od_mem_get. rewrite od_get_set_eq. eauto.
Qed.



(** ** Dotted references *)

Lemma py_split_nonempty sep s : py_split sep s ≠ [].
Proof.
  destruct s as [|c s]; simpl; [done|].
  destruct (Ascii.eqb c sep); [done|]. by destruct (py_split sep s).
Qed.

Lemma py_split_no_dot k : no_dot k = true → py_split dot k = [k].
Proof.
  induction k as [|c k IH]; simpl; [done|].
  intros [Hc Hk]%andb_true_iff. apply negb_true_iff in Hc. rewrite Hc.
  by rewrite IH.
Qed.

Lemma py_split_ref owner key :
  py_split dot (ref_to owner key) = py_split dot owner ++ py_split dot key.
Proof.
  unfold ref_to. induction owner as [|c owner IH]; simpl; [done|].
  destruct (Ascii.eqb c dot); [by rewrite IH|].
  rewrite IH. destruct (py_split dot owner) eqn:Hs; [|done].
  by apply py_split_nonempty in Hs.
Qed.

Lemma py_join_split s : py_join "." (py_split dot s) = s.
Proof.
  unfold py_join. induction s as [|c s IH]; simpl; [done|].
  destruct (Ascii.eqb c dot) eqn:Hc.
  - apply Ascii.eqb_eq in Hc as ->.
    destruct (py_split dot s) eqn:Hs; [by apply py_split_nonempty in Hs|].
    simpl in *. by rewrite IH.
  - destruct (py_split dot s) as [|w [|w' ws]] eqn:Hs.
    + by apply py_split_nonempty in Hs.
    + simpl in *. by rewrite IH.
    + rewrite <- IH. reflexivity.
Qed.

Lemma all_but_last_snoc {A} (l : list A) x : all_but_last (l ++ [x]) = l.
Proof. apply removelast_last. Qed.

Lemma last_slice_snoc {A} (l : list A) x : last_slice (l ++ [x]) = [x].
Proof.
  unfold last_slice. destruct (l ++ [x]) eqn:Hl.
  - by destruct l.
  - rewrite <- Hl. rewrite length_app. simpl.
    replace (length l + 1 - 1) with (length l) by lia.
    by rewrite drop_app_length.
Qed.

Lemma split_arg_ref owner key :
  no_dot key = true → split_arg (ref_to owner key) = (owner, key).
Proof.
  intros Hk. unfold split_arg.
  rewrite py_split_ref, (py_split_no_dot key) by done.
  rewrite all_but_last_snoc, last_slice_snoc, py_join_split. done.
Qed.

Lemma split_head_ref owner key :
  hd "" (py_split dot (ref_to owner key)) = hd "" (py_split dot owner).
Proof.
  rewrite py_split_ref. destruct (py_split dot owner) eqn:Hs; [|done].
  by apply py_split_nonempty in Hs.
Qed.

Lemma split_owner_ref owner key :
  no_dot key = true →
  py_join "." (all_but_last (py_split dot (ref_to owner key))) = owner.
Proof.
  intros Hk. rewrite py_split_ref, (py_split_no_dot key) by done.
  by rewrite all_but_last_snoc, py_join_split.
Qed.

(** ** [Link]: the endpoints *)

Lemma get_args_dataset cm d key :
  no_dot d = true → no_dot key = true →
  has_key (datasets cm) d = true →
  get_args cm (ref_to d key) = Ok (d, key, None).
Proof.
  intros Hd Hk Hin. unfold get_args.
  rewrite split_arg_ref, split_head_ref, (py_split_no_dot d) by done.
  simpl. by rewrite Hin.
Qed.

Lemma get_args_cell cm c key args tag C :
  no_dot key = true →
  has_key (datasets cm) (hd "" (py_split dot c)) = false →
  od_get c (cell_args cm) = Some args →
  args !! "cell_type" = Some (VStr tag) →
  classes cm !! tag = Some C →
  get_args cm (ref_to c key) = Ok (c, key, Some C).
Proof.
  intros Hk Hd Hc Ht HC. unfold get_args.
  rewrite split_arg_ref, split_head_ref, Hd, split_owner_ref by done.
  assert (od_mem c (cell_args cm) = true) as -> by (apply od_mem_get; eauto).
  unfold get_cell_args. rewrite Hc. simpl.
  unfold subscript. rewrite Ht. simpl. rewrite HC. done.
Qed.

(** Whatever [get_args] returns, the owner and the key are those of
    [split_arg]. *)
Lemma get_args_split cm ref owner key C :
  get_args cm ref = Ok (owner, key, C) → split_arg ref = (owner, key).
Proof.
  unfold get_args. destruct (split_arg ref) as [o k].
  destruct (has_key _ _); [by intros [= -> -> _]|].
  destruct (od_mem _ _); [|done].
  destruct (get_cell_args cm o) as [args|]; [simpl|done].
  destruct (subscript args "cell_type") as [ct|]; [simpl|done].
  destruct (resolve_class cm ct); [simpl|done]. by intros [= -> -> _].
Qed.

(** ** [Link]: construction *)

Lemma Link_new_inv cm f t l :
  Link_new cm f t = Ok l →
  ∃ f_name f_key f_class t_name t_key t_class ds value distribution ns,
    get_args cm f = Ok (f_name, f_key, f_class)
    ∧ get_args cm t = Ok (t_name, t_key, t_class)
    ∧ dataset_endpoint cm f_name f_key t_name t_key = Ok ds
    ∧ link_values cm ds f_name f_key f_class t_name t_key t_class
      = Ok (value, distribution)
    ∧ is_None value = false
    ∧ link_nodes ds f_name f_key f_class t_name t_key t_class = Ok ns
    ∧ l = {| link_name := f ++ "->" ++ t;
             link_value := value;
             link_distribution := distribution;
             nodes := ns |}.
Proof.
  unfold Link_new.
  destruct (get_args cm f) as [[[f_name f_key] f_class]|] eqn:Hf; [simpl|done].
  destruct (get_args cm t) as [[[t_name t_key] t_class]|] eqn:Ht; [simpl|done].
  destruct (dataset_endpoint cm f_name f_key t_name t_key) as [ds|] eqn:Hds;
    [simpl|done].
  destruct (link_values cm ds f_name f_key f_class t_name t_key t_class)
    as [[value distribution]|] eqn:Hv; [simpl|done].
  destruct (is_None value) eqn:Hnone; [done|].
  destruct (link_nodes ds f_name f_key f_class t_name t_key t_class)
    as [ns|] eqn:Hns; [simpl|done].
  intros [= <-]. by repeat eexists.
Qed.

Lemma Link_new_intro cm f t f_name f_key f_class t_name t_key t_class ds
    value distribution ns :
  get_args cm f = Ok (f_name, f_key, f_class) →
  get_args cm t = Ok (t_name, t_key, t_class) →
  dataset_endpoint cm f_name f_key t_name t_key = Ok ds →
  link_values cm ds f_name f_key f_class t_name t_key t_class
  = Ok (value, distribution) →
  is_None value = false →
  link_nodes ds f_name f_key f_class t_name t_key t_class = Ok ns →
  Link_new cm f t = Ok {| link_name := f ++ "->" ++ t;
                          link_value := value;
                          link_distribution := distribution;
                          nodes := ns |}.
Proof.
  intros Hf Ht Hds Hv Hnone Hns. unfold Link_new.
  rewrite Hf. simpl. rewrite Ht. simpl. rewrite Hds. simpl.
  rewrite Hv. simpl. rewrite Hnone, Hns. done.
Qed.

(** [set_link_distribution] is called without its argument [key].  When
    the call of [set_link_value] on the same endpoint did not raise a
    TypeError, the record has no entry [key], and the call raises one. *)
Lemma call_set_link_distribution_raises ls C key kw old value :
  try_assign old (call_set_link_value ls C key kw) = Ok value →
  call_set_link_distribution C kw = Raise CallError.
Proof.
  unfold call_set_link_value, call_set_link_distribution.
  destruct C as [C|].
  - destruct (has_key kw "C") eqn:HC; [done|]. simpl.
    destruct (has_key kw "key") eqn:Hkey; [done|].
    apply has_key_false in Hkey. by rewrite Hkey.
  - done.
Qed.

(** Between two cells the values are never obtained: the construction
    stops at the first call of [set_link_distribution], if not before. *)
Lemma link_values_cells_raise cm f_name f_key f_class t_name t_key t_class :
  ∃ e, link_values cm None f_name f_key f_class t_name t_key t_class = Raise e
       ∧ ∀ f t, e ≠ UnresolvableLink f t.
Proof.
  unfold link_values.
  destruct (get_cell_args cm t_name) as [t_args|e] eqn:Hta; [simpl|].
  2:{ exists e. split; [done|]. unfold get_cell_args in Hta.
      destruct (od_get _ _); by simplify_eq. }
  destruct (get_cell_args cm f_name) as [f_args|e] eqn:Hfa; [simpl|].
  2:{ exists e. split; [done|]. unfold get_cell_args in Hfa.
      destruct (od_get _ _); by simplify_eq. }
  destruct (try_assign VNone (call_set_link_value (links cm) t_class t_key t_args))
    as [v1|e] eqn:Hv1; [simpl|].
  2:{ exists e. split; [done|]. intros f t ->.
      destruct (call_set_link_value _ _ _ _) as [|e'] eqn:Hc; [done|].
      simpl in Hv1. destruct (is_ValueError e') eqn:He; [done|].
      injection Hv1 as ->.
      unfold call_set_link_value, set_link_value in Hc.
      repeat case_match; simplify_eq. }
  destruct (try_assign v1 (call_set_link_value (links cm) f_class f_key f_args))
    as [v2|e] eqn:Hv2; [simpl|].
  2:{ exists e. split; [done|]. intros f t ->.
      destruct (call_set_link_value _ f_class _ _) as [|e'] eqn:Hc; [done|].
      simpl in Hv2. destruct (is_ValueError e') eqn:He; [done|].
      injection Hv2 as ->.
      unfold call_set_link_value, set_link_value in Hc.
      repeat case_match; simplify_eq. }
  rewrite (call_set_link_distribution_raises _ _ _ _ _ _ Hv1). simpl.
  exists CallError. done.
Qed.

(** Every link that is constructed has a dataset endpoint. *)
Lemma Link_new_has_dataset cm f t l :
  Link_new cm f t = Ok l →
  ∃ f_name f_key f_class t_name t_key t_class d,
    get_args cm f = Ok (f_name, f_key, f_class)
    ∧ get_args cm t = Ok (t_name, t_key, t_class)
    ∧ dataset_endpoint cm f_name f_key t_name t_key = Ok (Some d).
Proof.
  intros (f_name & f_key & f_class & t_name & t_key & t_class & ds & v & d & ns
          & Hf & Ht & Hds & Hv & _)%Link_new_inv.
  destruct ds as [d'|].
  - by repeat eexists.
  - destruct (link_values_cells_raise cm f_name f_key f_class t_name t_key t_class)
      as (e & He & _). congruence.
Qed.


(** For any two endpoints and any manager, a construction that reaches the
    both-cells branch raises. *)
Lemma Link_init_cells_raises cm f t f_name f_key f_class t_name t_key t_class :
  get_args cm f = Ok (f_name, f_key, f_class) →
  get_args cm t = Ok (t_name, t_key, t_class) →
  has_key (datasets cm) f_name = false →
  has_key (datasets cm) t_name = false →
  ∃ e, Link_init f t cm = (cm, Raise e) ∧ e ≠ UnresolvableLink f t.
Proof.
  intros Hf Ht Hfd Htd. unfold Link_init, Link_new.
  rewrite Hf. cbn [mbind result_bind]. rewrite Ht. cbn [mbind result_bind].
  unfold dataset_endpoint. rewrite Hfd, Htd. cbn [mbind result_bind].
  destruct (link_values_cells_raise cm f_name f_key f_class t_name t_key t_class)
    as (e & -> & Hne).
  cbn [mbind result_bind]. eauto.
Qed.

(** C4, as stated, fails: the owners [D] and [mlp] are registered and the
    dataset gives the value 784, but the class of [mlp] has no link key
    [hidden], and the construction raises the TypeError of [Link.Node]. *)
Lemma link_unknown_key_raises :
  has_key (datasets dataset_manager) "D" = true
  ∧ od_mem "mlp" (cell_args dataset_manager) = true
  ∧ (∃ ds, datasets dataset_manager !! "D" = Some ds
           ∧ dims ds !! "input" = Some (VInt 784))
  ∧ Link_init "D.input" "mlp.hidden" dataset_manager
    = (dataset_manager, Raise (NoLinkKey "hidden")).
Proof.
  split; [by vm_compute|]. split; [by vm_compute|].
  split; [|by vm_compute]. eexists. split; by vm_compute.
Qed.

Lemma dataset_endpoint_source cm d field c key :
  has_key (datasets cm) d = true → has_key (datasets cm) c = false →
  dataset_endpoint cm d field c key = Ok (Some (d, field)).
Proof. intros Hd Hc. unfold dataset_endpoint. by rewrite Hd, Hc. Qed.

Lemma dataset_endpoint_target cm d field c key :
  has_key (datasets cm) d = true → has_key (datasets cm) c = false →
  dataset_endpoint cm c key d field = Ok (Some (d, field)).
Proof. intros Hd Hc. unfold dataset_endpoint. by rewrite Hd, Hc. Qed.

Lemma link_values_dataset cm d field ds value distribution
    f_name f_key f_class t_name t_key t_class :
  datasets cm !! d = Some ds →
  dims ds !! field = Some value →
  distributions ds !! field = Some distribution →
  link_values cm (Some (d, field)) f_name f_key f_class t_name t_key t_class
  = Ok (value, distribution).
Proof.
  intros Hd Hv Hdist. unfold link_values, subscript.
  rewrite Hd. simpl. rewrite Hv. simpl. by rewrite Hdist.
Qed.

(** C4, amended.  A link with one dataset endpoint is constructed when the
    dataset declares the field in both its tables, with a dimension that is
    not [None], and the class of the cell endpoint is registered, lists the
    link key in its dimension map and declares [_distribution]: the cell
    endpoint is the one node of the link, and the link is appended to the
    manager's list.  Names and keys are without dots, the name of the cell
    apart, which must not be or start with the name of a dataset. *)
Theorem link_with_dataset_constructs cm d field c key ds value distribution
    args tag C dk dist :
  no_dot d = true → no_dot field = true → no_dot key = true →
  datasets cm !! d = Some ds →
  dims ds !! field = Some value →
  value ≠ VNone →
  distributions ds !! field = Some distribution →
  has_key (datasets cm) (hd "" (py_split dot c)) = false →
  has_key (datasets cm) c = false →
  od_get c (cell_args cm) = Some args →
  args !! "cell_type" = Some (VStr tag) →
  classes cm !! tag = Some C →
  _dim_map C !! key = Some dk →
  _distribution C = Some dist →
  let node := {| node_C := C; link_key := key; dim_key := dk; dist_key := dist |} in
  (∃ l cm',
      Link_init (ref_to d field) (ref_to c key) cm = (cm', Ok l)
      ∧ nodes l = [(c, node)]
      ∧ links cm' = links cm ++ [l])
  ∧ (∃ l cm',
        Link_init (ref_to c key) (ref_to d field) cm = (cm', Ok l)
        ∧ nodes l = [(c, node)]
        ∧ links cm' = links cm ++ [l]).
Proof.
  intros Hd Hfield Hkey Hds Hv Hnn Hdist Hhd Hc Hargs Htag HC Hdk HD node.
  assert (has_key (datasets cm) d = true) as Hin by (apply has_key_true; eauto).
  assert (is_None value = false) as Hnone by (by destruct value).
  assert (c ≠ d) as Hne by (intros ->; congruence).
  pose proof (get_args_dataset cm d field Hd Hfield Hin) as Hgd.
  pose proof (get_args_cell cm c key args tag C Hkey Hhd Hargs Htag HC) as Hgc.
  assert (Node_init (Some C) key = Ok node) as Hnode.
  { unfold Node_init. by rewrite Hdk, HD. }
  split.
  - eexists _, _. unfold Link_init.
    rewrite (Link_new_intro cm _ _ d field None c key (Some C) (Some (d, field))
               value distribution [(c, node)]);
      [split; [reflexivity|split; reflexivity] | exact Hgd | exact Hgc
      | by apply dataset_endpoint_source | by eapply link_values_dataset
      | exact Hnone | ].
    unfold link_nodes. cbn [fmap option_fmap option_map fst].
    rewrite (bool_decide_eq_false_2 (Some d ≠ Some d)) by (intros H; by apply H).
    rewrite (bool_decide_eq_true_2 (Some c ≠ Some d)) by congruence.
    by rewrite Hnode.
  - eexists _, _. unfold Link_init.
    rewrite (Link_new_intro cm _ _ c key (Some C) d field None (Some (d, field))
               value distribution [(c, node)]);
      [split; [reflexivity|split; reflexivity] | exact Hgc | exact Hgd
      | by apply dataset_endpoint_target | by eapply link_values_dataset
      | exact Hnone | ].
    unfold link_nodes. cbn [fmap option_fmap option_map fst].
    rewrite (bool_decide_eq_false_2 (Some d ≠ Some d)) by (intros H; by apply H).
    rewrite (bool_decide_eq_true_2 (Some c ≠ Some d)) by congruence.
    by rewrite Hnode.
Qed.

Lemma link_with_dataset_constructs_witness :
  let node := {| node_C := sample_class; link_key := "output";
                 dim_key := "dim_out"; dist_key := Some "&dist" |} in
  (∃ l cm',
      Link_init "D.input" "mlp.output" dataset_manager = (cm', Ok l)
      ∧ nodes l = [("mlp", node)]
      ∧ links cm' = links dataset_manager ++ [l])
  ∧ (∃ l cm',
        Link_init "mlp.output" "D.input" dataset_manager = (cm', Ok l)
        ∧ nodes l = [("mlp", node)]
        ∧ links cm' = links dataset_manager ++ [l]).
Proof.
  refine (link_with_dataset_constructs dataset_manager "D" "input" "mlp"
    "output" sample_dataset (VInt 784) (VStr "binomial")
    {[ "cell_type" := VStr "MLP"; "dim_out" := VInt 10 ]} "MLP" sample_class
    "dim_out" (Some "&dist") _ _ _ _ _ _ _ _ _ _ _ _ _ _);
    try reflexivity; by vm_compute.
Defined.

(** C5, as stated, fails: the dataset [my.data] is registered, and a link
    between two of its fields raises the KeyError of a reference that is
    not found, because the reference is split at its first dot. *)
Lemma link_dotted_datasets_not_found :
  has_key (datasets dotted_manager) "my.data" = true
  ∧ Link_init (ref_to "my.data" "input") (ref_to "my.data" "input") dotted_manager
    = (dotted_manager, Raise (ReferenceNotFound "my.data.input")).
Proof. split; by vm_compute. Qed.

(** The values of a link with a dataset endpoint are the entries of the
    dataset's tables. *)
Lemma link_values_dataset_inv cm d field value distribution
    f_name f_key f_class t_name t_key t_class :
  link_values cm (Some (d, field)) f_name f_key f_class t_name t_key t_class
  = Ok (value, distribution) →
  ∃ ds, datasets cm !! d = Some ds
        ∧ dims ds !! field = Some value
        ∧ distributions ds !! field = Some distribution.
Proof.
  unfold link_values, subscript.
  destruct (datasets cm !! d) as [ds|]; [simpl|done].
  destruct (dims ds !! field) as [v|] eqn:Hv; [simpl|done].
  destruct (distributions ds !! field) as [di|] eqn:Hdi; [simpl|done].
  intros [= <- <-]. by exists ds.
Qed.

(** C5, amended.  For registered dataset names and fields without dots, a
    link between two datasets raises the ValueError of an invalid link; and
    a link with exactly one dataset endpoint has the value and the
    distribution that the tables of this dataset hold for the field,
    whatever the argument records of the cells hold. *)
Theorem link_dataset_endpoints cm :
  (∀ d1 field1 d2 field2,
      no_dot d1 = true → no_dot field1 = true →
      no_dot d2 = true → no_dot field2 = true →
      has_key (datasets cm) d1 = true →
      has_key (datasets cm) d2 = true →
      Link_init (ref_to d1 field1) (ref_to d2 field2) cm = (cm, Raise InvalidLink))
  ∧ (∀ f t l d field,
        Link_new cm f t = Ok l →
        only_dataset_endpoint cm f t d field →
        ∃ ds, datasets cm !! d = Some ds
              ∧ dims ds !! field = Some (link_value l)
              ∧ distributions ds !! field = Some (link_distribution l)).
Proof.
  split.
  - intros d1 field1 d2 field2 Hd1 Hf1 Hd2 Hf2 Hin1 Hin2.
    unfold Link_init, Link_new.
    rewrite (get_args_dataset cm d1 field1) by done. cbn [mbind result_bind].
    rewrite (get_args_dataset cm d2 field2) by done. cbn [mbind result_bind].
    unfold dataset_endpoint. by rewrite Hin1, Hin2.
  - intros f t l d field Hl Hone.
    apply Link_new_inv in Hl
      as (f_name & f_key & f_class & t_name & t_key & t_class & ds & value
          & distribution & ns & Hf & Ht & Hds & Hv & _ & _ & ->).
    apply get_args_split in Hf, Ht. simpl.
    assert (ds = Some (d, field)) as ->.
    { unfold dataset_endpoint in Hds.
      destruct Hone as [(Hs & Hin & Hout)|(Hs & Hin & Hout)].
      - rewrite Hf in Hs. injection Hs as -> ->.
        rewrite Ht in Hout. simpl in Hout. rewrite Hin, Hout in Hds. congruence.
      - rewrite Ht in Hs. injection Hs as -> ->.
        rewrite Hf in Hout. simpl in Hout. rewrite Hin, Hout in Hds. congruence. }
    by eapply link_values_dataset_inv.
Qed.

Lemma link_dataset_endpoints_witness :
  Link_init "D.input" "E.input" two_datasets_manager
  = (two_datasets_manager, Raise InvalidLink)
  ∧ ∃ l, Link_new dataset_manager "D.input" "mlp.output" = Ok l
         ∧ ∃ ds, datasets dataset_manager !! "D" = Some ds
                 ∧ dims ds !! "input" = Some (link_value l)
                 ∧ distributions ds !! "input" = Some (link_distribution l).
Proof.
  split.
  - apply (proj1 (link_dataset_endpoints two_datasets_manager)
             "D" "input" "E" "input"); by vm_compute.
  - eexists. split; [by vm_compute|].
    apply (proj2 (link_dataset_endpoints dataset_manager)
             "D.input" "mlp.output"); [by vm_compute|].
    left. split; [by vm_compute|]. split; by vm_compute.
Defined.

(** ** [add_link] *)

Lemma Node_init_inv C key n :
  Node_init C key = Ok n →
  ∃ C', C = Some C' ∧ node_C n = C'
        ∧ _dim_map C' !! key = Some (dim_key n)
        ∧ _distribution C' = Some (dist_key n).
Proof.
  unfold Node_init. destruct C as [C'|]; [|done].
  destruct (_dim_map C' !! key) as [dk|] eqn:Hdk; [|done].
  destruct (_distribution C') as [d|] eqn:Hd; [|done].
  intros [= <-]. by exists C'.
Qed.

(** The nodes of a link have distinct names, and carry the distribution
    key their class declares. *)
Lemma link_nodes_spec ds f_name f_key f_class t_name t_key t_class ns :
  link_nodes ds f_name f_key f_class t_name t_key t_class = Ok ns →
  NoDup ns.*1
  ∧ ∀ cell_name node, (cell_name, node) ∈ ns →
      _distribution (node_C node) = Some (dist_key node).
Proof.
  unfold link_nodes.
  destruct (bool_decide (Some f_name ≠ fst <$> ds)).
  - destruct (Node_init f_class f_key) as [nf|] eqn:Hnf; [|done].
    apply Node_init_inv in Hnf as (Cf & _ & <- & _ & Hdf).
    cbn [mbind result_bind od_set].
    destruct (bool_decide (Some t_name ≠ fst <$> ds)).
    + destruct (Node_init t_class t_key) as [nt|] eqn:Hnt; [|done].
      apply Node_init_inv in Hnt as (Ct & _ & <- & _ & Hdt).
      cbn [mbind result_bind od_set].
      destruct (decide (t_name = f_name)) as [->|Hne]; intros [= <-].
      * split; [apply NoDup_singleton|].
        intros cn node [= -> ->]%list_elem_of_singleton. done.
      * split.
        { simpl. apply NoDup_cons. split; [|apply NoDup_singleton].
          intros ->%list_elem_of_singleton. done. }
        intros cn node [[= -> ->]|[= -> ->]%list_elem_of_singleton]%elem_of_cons; done.
    + intros [= <-]. split; [apply NoDup_singleton|].
      intros cn node [= -> ->]%list_elem_of_singleton. done.
  - cbn [mbind result_bind].
    destruct (bool_decide (Some t_name ≠ fst <$> ds)).
    + destruct (Node_init t_class t_key) as [nt|] eqn:Hnt; [|done].
      apply Node_init_inv in Hnt as (Ct & _ & <- & _ & Hdt).
      cbn [mbind result_bind od_set]. intros [= <-].
      split; [apply NoDup_singleton|].
      intros cn node [= -> ->]%list_elem_of_singleton. done.
    + intros [= <-]. split; [apply NoDup_nil_2|].
      intros cn node []%not_elem_of_nil.
Qed.

Lemma dict_get_insert_eq (args : kwargs) k v : dict_get (<[k := v]> args) k = v.
Proof. unfold dict_get. by rewrite lookup_insert_eq. Qed.

Lemma dict_get_insert_ne (args : kwargs) k k' v :
  k ≠ k' → dict_get (<[k := v]> args) k' = dict_get args k'.
Proof. intros Hne. unfold dict_get. by rewrite lookup_insert_ne. Qed.

(** What the back-fill of one node does to the record of its cell. *)
Lemma backfill_spec i node (args : kwargs) :
  _distribution (node_C node) = Some (dist_key node) →
  ∃ args',
    backfill (VLink i) node args = (args', Ok tt)
    ∧ args' !! dim_key node
      = (if unset args (dim_key node) then Some (VLink i)
         else args !! dim_key node)
    ∧ (∀ s, dist_key node = Some s →
         args' !! distribution_argument s
         = if unset args (distribution_argument s) then Some (VLink i)
           else args !! distribution_argument s)
    ∧ (∀ k, k ≠ dim_key node →
         (∀ s, dist_key node = Some s → k ≠ distribution_argument s) →
         args' !! k = args !! k).
Proof.
  intros Hdist. unfold backfill, declares_distribution, unset. rewrite Hdist.
  destruct (dist_key node) as [s|] eqn:Hs; cbn [dist_arg].
  - assert (match strip_amp s with Some s' => Some s' | None => Some "cell_type" end
            = Some (distribution_argument s)) as ->.
    { unfold distribution_argument. by destruct (strip_amp s). }
    rewrite bool_decide_eq_true_2 by done.
    set (dk := distribution_argument s).
    destruct (is_None (dict_get args (dim_key node))) eqn:Hdim.
    + destruct (decide (dim_key node = dk)) as [Heq|Hne].
      * rewrite <- Heq, dict_get_insert_eq. cbn [is_None].
        eexists. split; [done|]. rewrite lookup_insert_eq.
        split; [done|]. split.
        { intros s' [= <-]. fold dk. rewrite <- Heq, Hdim.
          apply lookup_insert_eq. }
        intros k Hk _. by rewrite lookup_insert_ne.
      * rewrite dict_get_insert_ne by done.
        destruct (is_None (dict_get args dk)) eqn:Hdk.
        { eexists. split; [done|].
          rewrite lookup_insert_ne, lookup_insert_eq by done.
          split; [done|]. split.
          - intros s' [= <-]. fold dk. rewrite Hdk. apply lookup_insert_eq.
          - intros k Hk Hk'. rewrite !lookup_insert_ne; [done|done|].
            intros <-. by apply (Hk' s). }
        eexists. split; [done|]. rewrite lookup_insert_eq.
        split; [done|]. split.
        { intros s' [= <-]. fold dk. rewrite Hdk. by apply lookup_insert_ne. }
        intros k Hk _. by rewrite lookup_insert_ne.
    + destruct (is_None (dict_get args dk)) eqn:Hdk.
      * eexists. split; [done|].
        assert (dim_key node ≠ dk) as Hne by (intros Heq; congruence).
        rewrite lookup_insert_ne by done. split; [done|]. split.
        { intros s' [= <-]. fold dk. rewrite Hdk. apply lookup_insert_eq. }
        intros k _ Hk'. rewrite lookup_insert_ne; [done|].
        intros <-. by apply (Hk' s).
      * eexists. split; [done|]. split; [done|]. split; [|done].
        intros s' [= <-]. fold dk. by rewrite Hdk.
  - rewrite bool_decide_eq_false_2 by (intros H; by apply H).
    destruct (is_None (dict_get args (dim_key node))) eqn:Hdim.
    + eexists. split; [done|]. rewrite lookup_insert_eq.
      split; [done|]. split; [done|].
      intros k Hk _. by rewrite lookup_insert_ne.
    + eexists. split; [done|]. done.
Qed.

Lemma set_cell_args_get cell_name args cm k :
  od_get k (cell_args (set_cell_args cell_name args cm))
  = if decide (cell_name = k) then Some args else od_get k (cell_args cm).
Proof.
  unfold set_cell_args. simpl. destruct (decide (cell_name = k)) as [->|Hne].
  - apply od_get_set_eq.
  - by apply od_get_set_ne.
Qed.

(** The loop of [add_link] over nodes with distinct names: each node that is
    not a dataset has the record of its cell back-filled, and no other
    record changes. *)
Lemma add_link_loop_ok i ns cm cm' :
  NoDup ns.*1 →
  (∀ cell_name node, (cell_name, node) ∈ ns →
     _distribution (node_C node) = Some (dist_key node)) →
  add_link_loop (VLink i) ns cm = (cm', Ok tt) →
  links cm' = links cm
  ∧ datasets cm' = datasets cm
  ∧ (∀ cell_name node, (cell_name, node) ∈ ns →
       has_key (datasets cm) cell_name = false →
       ∃ args, od_get cell_name (cell_args cm) = Some args
               ∧ od_get cell_name (cell_args cm')
                 = Some (backfill (VLink i) node args).1)
  ∧ (∀ cell_name, cell_name ∉ ns.*1 →
       od_get cell_name (cell_args cm') = od_get cell_name (cell_args cm)).
Proof.
  revert cm. induction ns as [|[cn node] ns IH]; intros cm Hnd Hdist; simpl.
  - intros [= <-]. split; [done|]. split; [done|]. split; [|done].
    intros ? ? []%not_elem_of_nil.
  - apply NoDup_cons in Hnd as [Hcn Hnd].
    assert (∀ cell_name n, (cell_name, n) ∈ ns →
              _distribution (node_C n) = Some (dist_key n)) as Hdist'.
    { intros ? ? ?. eapply Hdist. by apply list_elem_of_further. }
    destruct (has_key (datasets cm) cn) eqn:Hds.
    + intros Hloop. destruct (IH cm Hnd Hdist' Hloop) as (Hl & Hd & Hin & Hout).
      split; [done|]. split; [done|]. split.
      * intros cn' node' [[= -> ->]|Hin']%elem_of_cons Hnot; [congruence|].
        by apply Hin.
      * intros cn' [Hne Hnin]%not_elem_of_cons. by apply Hout.
    + unfold get_cell_args.
      destruct (od_get cn (cell_args cm)) as [args|] eqn:Hargs; [|done].
      destruct (backfill_spec i node args) as (args' & Hb & _).
      { eapply Hdist. apply list_elem_of_here. }
      rewrite Hb. intros Hloop.
      destruct (IH _ Hnd Hdist' Hloop) as (Hl & Hd & Hin & Hout).
      split; [done|]. split; [done|]. split.
      * intros cn' node' [[= -> ->]|Hin']%elem_of_cons Hnot.
        { exists args. split; [done|]. rewrite Hb. simpl.
          rewrite Hout by done. rewrite set_cell_args_get.
          by rewrite decide_True. }
        destruct (Hin cn' node' Hin' Hnot) as (args0 & Hget & Hget').
        exists args0. split; [|done].
        rewrite set_cell_args_get in Hget.
        rewrite decide_False in Hget; [done|].
        intros ->. apply Hcn. apply list_elem_of_fmap. by exists (cn', node').
      * intros cn' [Hne Hnin]%not_elem_of_cons. rewrite Hout by done.
        rewrite set_cell_args_get. by rewrite decide_False.
Qed.

(** C6.  When [add_link(f, t)] returns, the new link is the last of the
    manager's list and, for each of its nodes that is not a dataset, the
    record of the cell of the node is back-filled: the dimension argument
    holds the link if it was not set and is left as it was otherwise; when
    the node has a distribution key, which is the [_distribution] its class
    declares, the distribution argument holds the link if it was not set
    and is left as it was otherwise; every other entry of the record is
    unchanged, and so is the record of every cell that is not a node. *)
Theorem add_link_backfills cm f t cm' :
  add_link f t cm = (cm', Ok tt) →
  ∃ l,
    links cm' = links cm ++ [l]
    ∧ (∀ cell_name node,
         (cell_name, node) ∈ nodes l →
         has_key (datasets cm) cell_name = false →
         ∃ args args',
           od_get cell_name (cell_args cm) = Some args
           ∧ od_get cell_name (cell_args cm') = Some args'
           ∧ args' !! dim_key node
             = (if unset args (dim_key node)
                then Some (VLink (length (links cm)))
                else args !! dim_key node)
           ∧ _distribution (node_C node) = Some (dist_key node)
           ∧ (∀ s, dist_key node = Some s →
                args' !! distribution_argument s
                = if unset args (distribution_argument s)
                  then Some (VLink (length (links cm)))
                  else args !! distribution_argument s)
           ∧ (∀ k, k ≠ dim_key node →
                (∀ s, dist_key node = Some s → k ≠ distribution_argument s) →
                args' !! k = args !! k))
    ∧ (∀ cell_name, cell_name ∉ (nodes l).*1 →
         od_get cell_name (cell_args cm') = od_get cell_name (cell_args cm)).
Proof.
  unfold add_link, Link_init.
  destruct (Link_new cm f t) as [l|] eqn:Hl; [|done].
  intros Hloop. exists l.
  apply Link_new_inv in Hl
    as (f_name & f_key & f_class & t_name & t_key & t_class & ds & value
        & distribution & ns & _ & _ & _ & _ & _ & Hns & ->).
  apply link_nodes_spec in Hns as [Hnd Hdist]. simpl in *.
  apply add_link_loop_ok in Hloop as (Hl & Hd & Hin & Hout); [|done|done].
  split; [done|]. split; [|done].
  intros cn node Hnode Hnot.
  destruct (Hin cn node Hnode Hnot) as (args & Hget & Hget').
  destruct (backfill_spec (length (links cm)) node args)
    as (args' & Hb & Hdim & Hdk & Hframe); [by eapply Hdist|].
  rewrite Hb in Hget'. exists args, args'.
  split; [done|]. split; [done|]. split; [done|].
  split; [by eapply Hdist|]. split; done.
Qed.

Lemma add_link_backfills_witness :
  ∃ l,
    links (add_link "D.input" "mlp.input" dataset_manager).1 = [l]
    ∧ ∃ args',
        od_get "mlp" (cell_args (add_link "D.input" "mlp.input" dataset_manager).1)
        = Some args'
        ∧ args' !! "dim_in" = Some (VLink 0)
        ∧ args' !! "dist" = Some (VLink 0)
        ∧ args' !! "dim_out" = Some (VInt 10).
Proof.
  destruct (add_link_backfills dataset_manager "D.input" "mlp.input"
              (add_link "D.input" "mlp.input" dataset_manager).1)
    as (l & Hl & Hnodes & _); [by vm_compute|].
  exists l. split; [exact Hl|].
  eexists. split; [by vm_compute|]. by vm_compute.
Defined.

(** ** [set_tparams]: shared handles *)

Lemma tparam_spec full_name value cm :
  tparams (tparam full_name value cm).1 !! full_name
  = Some (tparam full_name value cm).2
  ∧ (∀ n h, tparams cm !! n = Some h →
       tparams (tparam full_name value cm).1 !! n = Some h).
Proof.
  unfold tparam. destruct (tparams cm !! full_name) as [tp|] eqn:Hn; simpl.
  - done.
  - rewrite lookup_insert_eq. split; [done|].
    intros n h Hh. rewrite lookup_insert_ne; [done|]. congruence.
Qed.

Lemma set_tparams_list_spec cell_name k p i cm :
  let r := set_tparams_list cell_name k p i cm in
  (∀ n h, tparams cm !! n = Some h → tparams r.1 !! n = Some h)
  ∧ length r.2.1 = length p
  ∧ (∀ j h, r.2.1 !! j = Some h →
       tparams r.1 !! _p cell_name (indexed k (i + j)) = Some h).
Proof.
  revert i cm. induction p as [|pp p IH]; intros i cm; simpl.
  - split; [done|]. split; [done|]. intros j h. by rewrite lookup_nil.
  - destruct (tparam (_p cell_name (indexed k i)) pp cm) as [cm1 tp] eqn:Htp.
    pose proof (tparam_spec (_p cell_name (indexed k i)) pp cm) as [Hnew Hkeep].
    rewrite Htp in Hnew, Hkeep. simpl in Hnew, Hkeep.
    specialize (IH (S i) cm1).
    destruct (set_tparams_list cell_name k p (S i) cm1) as [cm2 [tps kks]].
    simpl in *. destruct IH as (Hkeep' & Hlen & Hidx).
    split; [by auto|]. split; [by rewrite Hlen|].
    intros [|j] h; simpl.
    + intros [= <-]. rewrite Nat.add_0_r. by apply Hkeep'.
    + intros Hj. replace (i + S j) with (S i + j) by lia. by apply Hidx.
Qed.

(** The loop of [set_tparams]: what is registered stays registered, and the
    attribute of each parameter is what the table holds under its name. *)
Lemma set_tparams_loop_spec cell_name ps keys dict cm :
  NoDup ps.*1 →
  let r := set_tparams_loop cell_name ps keys dict cm in
  (∀ n h, tparams cm !! n = Some h → tparams r.1 !! n = Some h)
  ∧ (∀ k, k ∉ ps.*1 → od_get k r.2.2 = od_get k dict)
  ∧ (∀ k p, (k, PArr p) ∈ ps →
       ∃ h, od_get k r.2.2 = Some (OHandle h)
            ∧ tparams r.1 !! _p cell_name k = Some h)
  ∧ (∀ k l, (k, PArrs l) ∈ ps →
       ∃ hs, od_get k r.2.2 = Some (OHandles hs)
             ∧ length hs = length l
             ∧ ∀ i h, hs !! i = Some h →
                 tparams r.1 !! _p cell_name (indexed k i) = Some h).
Proof.
  revert keys dict cm. induction ps as [|[k0 p0] ps IH]; intros keys dict cm Hnd.
  - simpl. split; [done|]. split; [done|].
    split; intros ? ? []%not_elem_of_nil.
  - apply NoDup_cons in Hnd as [Hk0 Hnd]. destruct p0 as [a|l0]; simpl.
    + destruct (tparam (_p cell_name k0) a cm) as [cm1 tp] eqn:Htp.
      pose proof (tparam_spec (_p cell_name k0) a cm) as [Hnew Hkeep].
      rewrite Htp in Hnew, Hkeep. simpl in Hnew, Hkeep.
      specialize (IH (keys ++ [k0]) (od_set k0 (OHandle tp) dict) cm1 Hnd).
      simpl in IH. destruct IH as (Hkeep' & Hout & Hsc & Hli).
      split; [by auto|]. split; [|split].
      * intros k [Hne Hnin]%not_elem_of_cons. rewrite Hout by done.
        by apply od_get_set_ne.
      * intros k p [[= -> ->]|Hin]%elem_of_cons; [|by eapply Hsc].
        exists tp. rewrite Hout by done. rewrite od_get_set_eq. by auto.
      * intros k l [[=]|Hin]%elem_of_cons. by eapply Hli.
    + destruct (set_tparams_list cell_name k0 l0 0 cm) as [cm1 [tps kks]] eqn:Hl.
      pose proof (set_tparams_list_spec cell_name k0 l0 0 cm) as Hspec.
      rewrite Hl in Hspec. simpl in Hspec. destruct Hspec as (Hkeep & Hlen & Hidx).
      specialize (IH (keys ++ kks) (od_set k0 (OHandles tps) dict) cm1 Hnd).
      simpl in IH. destruct IH as (Hkeep' & Hout & Hsc & Hli).
      split; [by auto|]. split; [|split].
      * intros k [Hne Hnin]%not_elem_of_cons. rewrite Hout by done.
        by apply od_get_set_ne.
      * intros k p [[=]|Hin]%elem_of_cons. by eapply Hsc.
      * intros k l [[= -> ->]|Hin]%elem_of_cons; [|by eapply Hli].
        exists tps. rewrite Hout by done. rewrite od_get_set_eq.
        split; [done|]. split; [done|]. by auto.
Qed.

Lemma register_all_keeps regs cm n h :
  tparams cm !! n = Some h → tparams (register_all regs cm) !! n = Some h.
Proof.
  unfold register_all. revert cm.
  induction regs as [|[cell_name ps] regs IH]; intros cm Hn; simpl; [done|].
  apply IH. unfold set_tparams.
  revert Hn. generalize (@nil string) (@nil (string * pobj)).
  induction ps as [|[k p] ps IHps] in cm |- *; intros keys dict Hn; [done|].
  destruct p as [a|l]; simpl.
  - destruct (tparam (_p cell_name k) a cm) as [cm1 tp] eqn:Htp.
    apply IHps. pose proof (tparam_spec (_p cell_name k) a cm) as [_ Hkeep].
    rewrite Htp in Hkeep. by apply Hkeep.
  - destruct (set_tparams_list cell_name k l 0 cm) as [cm1 [tps kks]] eqn:Hl.
    apply IHps. pose proof (set_tparams_list_spec cell_name k l 0 cm) as Hspec.
    rewrite Hl in Hspec. by apply Hspec.
Qed.

(** C8.  Once a handle is registered under a fully-qualified name, every
    later registration of this name, after any number of registrations,
    leaves the handle in the table and binds the parameter to this very
    handle, be it a scalar parameter or a member of a list-valued group. *)
Theorem registered_handle_is_reused cm full_name h regs cell_name ps :
  tparams cm !! full_name = Some h →
  NoDup ps.*1 →
  let r := set_tparams cell_name ps (register_all regs cm) in
  tparams r.1 !! full_name = Some h
  ∧ (∀ k p, (k, PArr p) ∈ ps → _p cell_name k = full_name →
       od_get k r.2.2 = Some (OHandle h))
  ∧ (∀ k l i, (k, PArrs l) ∈ ps → i < length l →
       _p cell_name (indexed k i) = full_name →
       ∃ hs, od_get k r.2.2 = Some (OHandles hs) ∧ hs !! i = Some h).
Proof.
  intros Hreg Hnd r.
  pose proof (register_all_keeps regs cm full_name h Hreg) as Hreg'.
  pose proof (set_tparams_loop_spec cell_name ps [] [] (register_all regs cm) Hnd)
    as (Hkeep & _ & Hsc & Hli).
  fold (set_tparams cell_name ps (register_all regs cm)) in Hkeep, Hsc, Hli.
  fold r in Hkeep, Hsc, Hli.
  split; [by apply Hkeep|]. split.
  - intros k p Hin Hname. destruct (Hsc k p Hin) as (h' & Hget & Htab).
    rewrite Hname, (Hkeep _ _ Hreg') in Htab. by simplify_eq.
  - intros k l i Hin Hi Hname.
    destruct (Hli k l Hin) as (hs & Hget & Hlen & Hidx).
    exists hs. split; [done|].
    destruct (lookup_lt_is_Some_2 hs i) as [h' Hh']; [lia|].
    pose proof (Hidx i h' Hh') as Htab.
    rewrite Hname, (Hkeep _ _ Hreg') in Htab. by simplify_eq.
Qed.

Lemma registered_handle_is_reused_witness :
  tparams first_manager !! "a.W" = Some first_handle
  ∧ let r := set_tparams "a" [("W", PArr 7); ("b", PArrs [8; 9])]
               (register_all [("c", [("U", PArr 3)])] first_manager) in
    tparams r.1 !! "a.W" = Some first_handle
    ∧ od_get "W" r.2.2 = Some (OHandle first_handle).
Proof.
  split; [by vm_compute|].
  destruct (registered_handle_is_reused first_manager "a.W" first_handle
              [("c", [("U", PArr 3)])] "a" [("W", PArr 7); ("b", PArrs [8; 9])])
    as (Htab & Hsc & _).
  - by vm_compute.
  - apply (bool_decide_unpack _). by vm_compute.
  - split; [exact Htab|]. apply (Hsc "W" 7); [|reflexivity].
    apply list_elem_of_here.
Defined.

(** ** The parameter counts *)

Lemma count_params_sum ps n :
  count_params ps n = n + sum_list_with (fun kp => group_size kp.2) ps.
Proof.
  revert n. induction ps as [|[k [a|l]] ps IH]; intros n; simpl.
  - lia.
  - rewrite IH. lia.
  - rewrite IH. lia.
Qed.

Lemma count_list_sum cs n :
  count_list cs n = n + sum_list_with total_params cs.
Proof.
  revert n. induction cs as [|c cs IH]; intros n; simpl; [lia|].
  rewrite IH. lia.
Qed.

Lemma count_components_sum cs n :
  count_components cs n = n + sum_list_with total_params (subcells cs).
Proof.
  revert n. induction cs as [|[k [|c|l]] cs IH]; intros n; simpl.
  - lia.
  - by rewrite IH.
  - rewrite IH. unfold subcells. simpl. lia.
  - rewrite IH, count_list_sum. unfold subcells. simpl.
    rewrite sum_list_with_app. lia.
Qed.

(** [get_params] copies the counts, as it does the name, the keys and the
    parameter attributes. *)
Lemma get_params_keeps noise_switch c :
  let c' := (get_params noise_switch c).1 in
  n_params c' = n_params c
  ∧ n_component_params c' = n_component_params c
  ∧ total_params c' = total_params c
  ∧ param_keys c' = param_keys c
  ∧ attrs c' = attrs c.
Proof.
  destruct c as [nm ws wn ps cs n nc t keys dict]. simpl.
  destruct (own_params dict keys) as [own|]; [|done].
  destruct (if noise_switch && wn then noise_loop ws own 0 ps else (ps, Ok tt))
    as [ps' [[]|e]]; [|done].
  by destruct (get_params_comps (get_params noise_switch) cs own).
Qed.

Lemma run_keeps c op :
  n_params (run c op) = n_params c
  ∧ n_component_params (run c op) = n_component_params c
  ∧ total_params (run c op) = total_params c.
Proof.
  destruct op as [ns| |]; simpl; [|done|done].
  destruct (get_params_keeps ns c) as (? & ? & ? & _). done.
Qed.

(** C7.  After construction the total is the sum of the two counts; the
    first counts a list-valued group by its length and any other parameter
    as one, the second adds the totals of the direct sub-components, each
    member of a list-valued component included; and no later operation
    changes the three counts. *)
Theorem param_counts cell_name ws wn ps cs cm ops :
  let c := (Cell_init cell_name ws wn ps cs cm).2 in
  total_params c = n_params c + n_component_params c
  ∧ n_params c = sum_list_with (fun kp => group_size kp.2) ps
  ∧ n_component_params c = sum_list_with total_params (subcells cs)
  ∧ n_params (foldl run c ops) = n_params c
  ∧ n_component_params (foldl run c ops) = n_component_params c
  ∧ total_params (foldl run c ops) = total_params c.
Proof.
  intros c.
  assert (total_params c = n_params c + n_component_params c
          ∧ n_params c = count_params ps 0
          ∧ n_component_params c = count_components cs 0) as (Ht & Hn & Hnc).
  { unfold c, Cell_init.
    by destruct (set_tparams cell_name ps cm) as [cm' [keys dict]]. }
  split; [done|]. split; [by rewrite Hn, count_params_sum|].
  split; [by rewrite Hnc, count_components_sum|].
  clearbody c. clear Ht Hn Hnc. revert c.
  induction ops as [|op ops IH]; intros c; simpl; [done|].
  destruct (IH (run c op)) as (-> & -> & ->). apply run_keeps.
Qed.

(** ** [get_params] and [select_params] *)


(** [set_tparams] on scalar parameters: the keys are the names, in order,
    and each name is bound to a handle. *)
Lemma set_tparams_loop_scalar cell_name ps keys dict cm :
  (∀ k p, (k, p) ∈ ps → ∃ a, p = PArr a) →
  let r := set_tparams_loop cell_name ps keys dict cm in
  r.2.1 = keys ++ ps.*1
  ∧ (∀ k, k ∈ ps.*1 → ∃ h, od_get k r.2.2 = Some (OHandle h))
  ∧ (∀ k, k ∉ ps.*1 → od_get k r.2.2 = od_get k dict).
Proof.
  revert keys dict cm. induction ps as [|[k0 p0] ps IH]; intros keys dict cm Hsc.
  - simpl. rewrite app_nil_r. split; [done|]. split; [|done].
    intros ? []%not_elem_of_nil.
  - destruct (Hsc k0 p0) as [a ->]; [apply list_elem_of_here|]. simpl.
    destruct (tparam (_p cell_name k0) a cm) as [cm1 tp].
    destruct (IH (keys ++ [k0]) (od_set k0 (OHandle tp) dict) cm1)
      as (Hkeys & Hin & Hout).
    { intros k p Hkp. eapply Hsc. by apply list_elem_of_further. }
    split; [by rewrite Hkeys, <- app_assoc|]. split.
    + intros k Hk. destruct (decide (k ∈ ps.*1)) as [Hin'|Hnin]; [by apply Hin|].
      apply elem_of_cons in Hk as [->|Hk]; [|done].
      exists tp. rewrite Hout by done. apply od_get_set_eq.
    + intros k [Hne Hnin]%not_elem_of_cons. rewrite Hout by done.
      by apply od_get_set_ne.
Qed.

Lemma own_params_handles dict keys :
  (∀ k, k ∈ keys → ∃ h, od_get k dict = Some (OHandle h)) →
  ∃ own, own_params dict keys = Ok own
         ∧ Forall2 (fun k o => od_get k dict = Some o ∧ ∃ h, o = OHandle h)
             keys own.
Proof.
  induction keys as [|k keys IH]; intros Hk; simpl.
  - exists []. split; [done|]. constructor.
  - destruct (Hk k) as [h Hh]; [apply list_elem_of_here|]. rewrite Hh.
    destruct IH as (own & -> & Hown).
    { intros k' Hk'. apply Hk. by apply list_elem_of_further. }
    simpl. exists (OHandle h :: own). split; [done|].
    constructor; [|done]. split; [done|]. by exists h.
Qed.

(** The noise branch does not raise on handles, and does not touch the
    list it walks. *)
Lemma add_noise_handle ws h : ∃ o, add_noise ws (OHandle h) = Ok o.
Proof.
  induction ws as [|w ws IH]; simpl; [by eexists|].
  destruct (py_contains w (h_name h)); [by eexists|done].
Qed.

Lemma noise_loop_handles ws own i ps :
  Forall (fun o => ∃ h, o = OHandle h) own →
  ∃ ps', noise_loop ws own i ps = (ps', Ok tt).
Proof.
  intros Hown. revert i ps.
  induction Hown as [|o own [h ->] _ IH]; intros i ps; simpl; [by eexists|].
  destruct (add_noise_handle ws h) as [o ->]. apply IH.
Qed.

(** The walk over the components, when [get_params] returns on each
    sub-cell as many parameters as its total. *)
Lemma get_params_list_ok (gp : cell → cell * result (list pobj)) l acc :
  (∀ sub, sub ∈ l → ∃ ps, (gp sub).2 = Ok ps ∧ length ps = total_params sub) →
  ∃ l' rest,
    get_params_list gp l acc = (l', Ok (acc ++ rest))
    ∧ length rest = sum_list_with total_params l.
Proof.
  revert acc. induction l as [|c_ l IH]; intros acc Hsub; simpl.
  - exists [], []. by rewrite app_nil_r.
  - destruct (Hsub c_) as (ps & Hps & Hlen); [apply list_elem_of_here|].
    destruct (gp c_) as [c_' r]. simpl in Hps. subst r.
    destruct (IH (acc ++ ps)) as (l' & rest & -> & Hrest).
    { intros sub Hin. apply Hsub. by apply list_elem_of_further. }
    exists (c_' :: l'), (ps ++ rest). rewrite app_assoc. split; [done|].
    rewrite length_app. lia.
Qed.

Lemma get_params_comps_ok (gp : cell → cell * result (list pobj)) cs acc :
  (∀ sub, sub ∈ subcells cs →
     ∃ ps, (gp sub).2 = Ok ps ∧ length ps = total_params sub) →
  ∃ cs' rest,
    get_params_comps gp cs acc = (cs', Ok (acc ++ rest))
    ∧ length rest = sum_list_with total_params (subcells cs).
Proof.
  revert acc. induction cs as [|[k comp] cs IH]; intros acc Hsub.
  - exists [], []. simpl. by rewrite app_nil_r.
  - assert (∀ sub, sub ∈ subcells cs →
              ∃ ps, (gp sub).2 = Ok ps ∧ length ps = total_params sub) as Hsub'.
    { intros sub Hin. apply Hsub. unfold subcells. simpl.
      apply elem_of_app. by right. }
    destruct comp as [|sub|l]; simpl.
    + destruct (IH acc Hsub') as (cs' & rest & -> & Hrest).
      by exists ((k, CompNone) :: cs'), rest.
    + destruct (Hsub sub) as (ps & Hps & Hlen).
      { unfold subcells. simpl. apply list_elem_of_here. }
      destruct (gp sub) as [sub' r]. simpl in Hps. subst r.
      destruct (IH (acc ++ ps) Hsub') as (cs' & rest & -> & Hrest).
      exists ((k, CompCell sub') :: cs'), (ps ++ rest).
      rewrite app_assoc. split; [done|].
      unfold subcells in *. simpl. rewrite length_app. lia.
    + destruct (get_params_list_ok gp l acc) as (l' & rest1 & -> & Hrest1).
      { intros sub Hin. apply Hsub. unfold subcells. simpl.
        apply elem_of_app. by left. }
      destruct (IH (acc ++ rest1) Hsub') as (cs' & rest & -> & Hrest).
      exists ((k, CompList l') :: cs'), (rest1 ++ rest).
      rewrite app_assoc. split; [done|].
      unfold subcells in *. simpl.
      rewrite length_app, sum_list_with_app. lia.
Qed.

(** On a built cell with scalar parameters throughout, [get_params]
    returns the attributes of the cell's own parameters, in the order of
    [params], followed by as many entries as the components count. *)
Lemma get_params_built c :
  Built c → ScalarOnly c →
  ∀ noise_switch,
    ∃ own rest,
      (get_params noise_switch c).2 = Ok (own ++ rest)
      ∧ length own = n_params c
      ∧ length rest = n_component_params c
      ∧ total_params c = n_params c + n_component_params c
      ∧ Forall2 (fun ke o => ∃ k h, ke.1 = KName k ∧ o = OHandle h
                                    ∧ od_get k (attrs c) = Some o)
          (params c) own.
Proof.
  induction 1 as [cell_name ws wn ps cs cm Hsub IH].
  intros Hscalar ns. inversion Hscalar as [c Hps Hcs Hc]. clear Hscalar.
  unfold Cell_init, set_tparams in *.
  pose proof (set_tparams_loop_scalar cell_name ps [] [] cm) as Hloop.
  destruct (set_tparams_loop cell_name ps [] [] cm) as [cm' [keys dict]].
  simpl in *.
  destruct Hloop as (-> & Hin & _).
  { intros k p Hkp. destruct (Hps (KName k) (EInit p)) as [a [= ->]]; [|by eexists].
    apply list_elem_of_fmap. by exists (k, p). }
  destruct (own_params_handles dict ps.*1 Hin) as (own & -> & Hown).
  assert (Forall (fun o => ∃ h, o = OHandle h) own) as Hhandles.
  { clear -Hown. induction Hown as [|k o keys own [_ Ho] _ IH]; by constructor. }
  assert (∃ ps', (if ns && wn
                  then noise_loop ws own 0 ((fun kp => (KName kp.1, EInit kp.2)) <$> ps)
                  else ((fun kp => (KName kp.1, EInit kp.2)) <$> ps, Ok tt))
                 = (ps', Ok tt)) as [ps' ->].
  { destruct (ns && wn); [by apply noise_loop_handles|by eexists]. }
  destruct (get_params_comps_ok (get_params ns) cs own) as (cs' & rest & -> & Hrest).
  { intros sub Hin'. destruct (IH sub Hin' (Hcs sub Hin') ns)
      as (o & r & Hget & Ho & Hr & Ht & _).
    exists (o ++ r). split; [done|]. rewrite length_app. lia. }
  exists own, rest. simpl. split; [done|].
  assert (length own = length ps) as Hlen.
  { apply Forall2_length in Hown. by rewrite length_fmap in Hown. }
  split.
  { rewrite Hlen, count_params_sum. simpl. clear -Hps.
    induction ps as [|[k p] ps IHps]; [done|]. simpl.
    destruct (Hps (KName k) (EInit p)) as [a [= ->]]; [apply list_elem_of_here|].
    simpl. f_equal. apply IHps. intros k' e Hin. eapply Hps.
    by apply list_elem_of_further. }
  split; [by rewrite Hrest, count_components_sum|]. split; [done|].
  clear -Hown. revert own Hown.
  induction ps as [|[k p] ps IHps]; intros own Hown; simpl in *.
  - inversion Hown. constructor.
  - inversion Hown as [|? o ? own' [Hget [h ->]] Hrest]; subst.
    constructor; [|by apply IHps]. simpl. by exists k, h.
Qed.









Lemma sample_unit_built cell_name cm : Built (sample_unit cell_name cm).2.
Proof. apply Built_init. intros sub []%not_elem_of_nil. Qed.

Lemma sample_unit_scalar cell_name cm : ScalarOnly (sample_unit cell_name cm).2.
Proof.
  unfold sample_unit, Cell_init.
  destruct (set_tparams cell_name [("W", PArr 0)] cm) as [cm' [keys dict]].
  constructor; simpl.
  - intros k e [= -> ->]%list_elem_of_singleton. by eexists.
  - intros sub []%not_elem_of_nil.
Qed.

Lemma sample_rnn_subcells sub :
  sub ∈ subcells [("RU", CompCell sample_ru); ("aux_net", CompNone);
                  ("layers", CompList sample_layers)] →
  ∃ cell_name cm, sub = (sample_unit cell_name cm).2.
Proof.
  unfold subcells, sample_layers, sample_ru. simpl.
  intros [->|[->|[->|[]%not_elem_of_nil]%elem_of_cons]%elem_of_cons]%elem_of_cons;
    by eexists _, _.
Qed.

Lemma sample_rnn_built : Built sample_rnn.
Proof.
  apply Built_init. intros sub (cell_name & cm & ->)%sample_rnn_subcells.
  apply sample_unit_built.
Qed.

Lemma sample_rnn_scalar : ScalarOnly sample_rnn.
Proof.
  constructor.
  - intros k e Hin. vm_compute in Hin.
    apply elem_of_cons in Hin as [[= -> ->]|Hin]; [by eexists|].
    apply list_elem_of_singleton in Hin as [= -> ->]. by eexists.
  - intros sub Hin.
    change (comps sample_rnn)
      with [("RU", CompCell sample_ru); ("aux_net", @CompNone cell);
            ("layers", CompList sample_layers)] in Hin.
    apply sample_rnn_subcells in Hin as (cell_name & cm & ->).
    apply sample_unit_scalar.
Qed.


(** The [break] taken for a member of a list-valued component leaves the
    inner loop only: the components that follow still move [start], and the
    slice returned is not the member's.  Here [layers_0] owns the second
    entry of the list, and the slice is empty. *)
Lemma select_params_list_member_shifted :
  select_params sample_stack (Some "layers_0") ["W"; "layers_0.W"; "RU.W"]
  = Ok []
  ∧ select_params sample_stack (Some "RU") ["W"; "layers_0.W"; "RU.W"]
    = Ok ["RU.W"].
Proof. split; by vm_compute. Qed.

(** * Further properties *)

(** ** References *)

Lemma py_split_segments s : Forall (fun w => no_dot w = true) (py_split dot s).
Proof.
  induction s as [|c s IH]; simpl; [by repeat constructor|].
  destruct (Ascii.eqb c dot) eqn:Hc; [by constructor|].
  destruct (py_split dot s) as [|w ws].
  - constructor; [|constructor]. simpl. by rewrite Hc.
  - inversion IH as [|? ? Hw Hws]; subst. constructor; [|done].
    simpl. by rewrite Hc, Hw.
Qed.

Lemma py_split_dotted s :
  no_dot s = false → ∃ w w' ws, py_split dot s = w :: w' :: ws.
Proof.
  induction s as [|c s IH]; simpl; [done|].
  destruct (Ascii.eqb c dot) eqn:Hc; simpl.
  - intros _. destruct (py_split dot s) as [|w ws] eqn:Hs.
    + by apply py_split_nonempty in Hs.
    + by eexists _, _, _.
  - intros (w & w' & ws & ->)%IH. by eexists _, _, _.
Qed.

Lemma snoc_decompose {A} (l : list A) d :
  l ≠ [] → l = all_but_last l ++ [List.last l d].
Proof. intros Hl. by apply app_removelast_last. Qed.

Lemma string_app_assoc (a b c : string) :
  ((a ++ b) ++ c = a ++ b ++ c)%string.
Proof.
  induction a as [|x a IH]; [done|].
  change (String x ((a ++ b) ++ c) = String x (a ++ b ++ c))%string.
  by rewrite IH.
Qed.

Lemma py_join_snoc l w :
  l ≠ [] → py_join "." (l ++ [w]) = ref_to (py_join "." l) w.
Proof.
  unfold py_join, ref_to. induction l as [|x l IH]; [done|]. intros _.
  destruct l as [|y l]; [done|].
  change (String.concat "." ((x :: y :: l) ++ [w]))
    with (x ++ "." ++ String.concat "." ((y :: l) ++ [w]))%string.
  rewrite IH by done.
  change (String.concat "." (x :: y :: l))
    with (x ++ "." ++ String.concat "." (y :: l))%string.
  by rewrite !string_app_assoc.
Qed.

Lemma last_slice_last (l : list string) :
  l ≠ [] → py_join "." (last_slice l) = List.last l "".
Proof.
  intros Hl. rewrite (snoc_decompose l "" Hl) at 1.
  by rewrite last_slice_snoc.
Qed.

(** X1.  [split_ref] and [split_arg] split a reference at its last dot, and
    nothing is lost: the key has no dot; a reference without a dot has the
    empty owner and is its own key; any other reference is the owner, a
    dot and the key. *)
Theorem split_ref_round_trip ref :
  split_arg ref = split_ref ref
  ∧ no_dot (split_ref ref).2 = true
  ∧ (if no_dot ref then split_ref ref = ("", ref)
     else ref_to (split_ref ref).1 (split_ref ref).2 = ref).
Proof.
  unfold split_arg, split_ref.
  pose proof (py_split_nonempty dot ref) as Hne.
  pose proof (py_split_segments ref) as Hseg.
  pose proof (py_join_split ref) as Hjoin.
  split; [by rewrite last_slice_last|]. simpl. split.
  - rewrite (snoc_decompose _ "" Hne) in Hseg.
    apply Forall_app in Hseg as [_ Hlast]. by inversion Hlast.
  - destruct (no_dot ref) eqn:Hd.
    + by rewrite (py_split_no_dot ref Hd).
    + destruct (py_split_dotted ref Hd) as (w & w' & ws & Hs).
      rewrite (snoc_decompose _ "" Hne), py_join_snoc in Hjoin; [done|].
      rewrite Hs. simpl. by destruct ws.
Qed.

(** ** [match_args], [prepare_cell], [remove_cell] *)



Lemma od_get_map_to_list (m : kwargs) k : od_get k (map_to_list m) = m !! k.
Proof.
  pose proof (NoDup_fst_map_to_list m) as Hnd.
  destruct (m !! k) as [v|] eqn:Hk.
  - apply elem_of_map_to_list in Hk. revert Hnd Hk.
    generalize (map_to_list m). intros l.
    induction l as [|[k' v'] l IH]; intros Hnd Hin; simpl.
    + by apply not_elem_of_nil in Hin.
    + apply NoDup_cons in Hnd as [Hk' Hnd].
      destruct (decide (k = k')) as [->|Hne].
      * apply elem_of_cons in Hin as [[= ->]|Hin]; [done|].
        exfalso. apply Hk'. apply list_elem_of_fmap. by exists (k', v).
      * apply elem_of_cons in Hin as [[= -> ->]|Hin]; [done|]. by apply IH.
  - destruct (od_get k (map_to_list m)) as [v|] eqn:Hget; [|done].
    assert ((k, v) ∈ map_to_list m) as Hin.
    { clear -Hget. induction (map_to_list m) as [|[k' v'] l IH]; [done|].
      simpl in Hget. destruct (decide (k = k')) as [->|Hne].
      - injection Hget as ->. apply list_elem_of_here.
      - apply list_elem_of_further. by apply IH. }
    apply elem_of_map_to_list in Hin. congruence.
Qed.



Section assoc_del.
Context {K V : Type} `{EqDecision K}.
Implicit Types (k : K) (v : V) (d : list (K * V)).



Lemma od_del_set_fresh k v d : od_get k d = None → od_del k (od_set k v d) = d.
Proof.
  induction d as [|[k0 v0] d IH]; simpl.
  - by rewrite decide_True.
  - destruct (decide (k = k0)) as [->|Hk]; [done|]. simpl.
    rewrite decide_False by done. intros Hget. by rewrite IH.
Qed.


End assoc_del.



(** X5.  After [manager[key] = cell] the manager gives the cell back under
    the key, and the other cells as before; when [cell.get_args()] returns,
    the record of the key is what it returns; when it raises, the cell is in
    [cells] all the same.  For a key that was in neither table,
    [remove_cell] then gives back the manager as it was. *)
Theorem setitem_round_trip Cell_get_args key c cm :
  let r := Manager_setitem Cell_get_args key c cm in
  Manager_getitem r.1 key = Ok c
  ∧ (∀ k, k ≠ key → Manager_getitem r.1 k = Manager_getitem cm k)
  ∧ (∀ args, Cell_get_args c = Ok args →
       r.2 = Ok tt
       ∧ get_cell_args r.1 key = Ok args
       ∧ (od_get key (cells cm) = None → od_get key (cell_args cm) = None →
          remove_cell key r.1 = (cm, Ok tt)))
  ∧ (∀ e, Cell_get_args c = Raise e →
       r.2 = Raise e ∧ cell_args r.1 = cell_args cm).
Proof.
  intros r. unfold r, Manager_setitem, Manager_getitem.
  destruct (Cell_get_args c) as [args|e]; simpl.
  - rewrite od_get_set_eq. split; [done|].
    split; [intros k Hk; by rewrite od_get_set_ne|]. split; [|done].
    intros ? [= <-]. split; [done|].
    unfold get_cell_args. simpl. rewrite od_get_set_eq. split; [done|].
    intros Hc Ha. unfold remove_cell. simpl.
    assert (od_mem key (od_set key c (cells cm)) = true) as ->.
    { apply od_mem_get. rewrite od_get_set_eq. eauto. }
    assert (od_mem key (od_set key args (cell_args cm)) = true) as ->.
    { apply od_mem_get. rewrite od_get_set_eq. eauto. }
    rewrite !od_del_set_fresh by done. by destruct cm.
  - rewrite od_get_set_eq. split; [done|].
    split; [intros k Hk; by rewrite od_get_set_ne|]. split; [done|].
    by intros ? [= <-].
Qed.

Lemma setitem_round_trip_witness :
  let get_args := fun _ : cell => Ok ({[ "cell_type" := VStr "MLP" ]} : kwargs) in
  let r := Manager_setitem get_args "a" sample_leaf empty_manager in
  Manager_getitem r.1 "a" = Ok sample_leaf
  ∧ r.2 = Ok tt
  ∧ remove_cell "a" r.1 = (empty_manager, Ok tt).
Proof.
  intros get_args.
  destruct (setitem_round_trip get_args "a" sample_leaf empty_manager)
    as (Hget & _ & Hok & _).
  destruct (Hok _ eq_refl) as (Hr & _ & Hback).
  split; [exact Hget|]. split; [exact Hr|]. by apply Hback.
Defined.

(** ** More on links *)

Lemma get_args_class_declared cm ref owner key C :
  get_args cm ref = Ok (owner, key, Some C) →
  ∃ args ct, od_get owner (cell_args cm) = Some args
             ∧ args !! "cell_type" = Some ct
             ∧ resolve_class cm ct = Ok C.
Proof.
  unfold get_args. destruct (split_arg ref) as [o k].
  destruct (has_key _ _); [done|].
  destruct (od_mem _ _); [|done].
  unfold get_cell_args.
  destruct (od_get o (cell_args cm)) as [args|] eqn:Hargs; [simpl|done].
  unfold subscript.
  destruct (args !! "cell_type") as [ct|] eqn:Hct; [simpl|done].
  destruct (resolve_class cm ct) as [C'|] eqn:HC; [simpl|done].
  intros [= <- <- <-]. by exists args, ct.
Qed.

(** Each node of a link is the [Node] of one of its endpoints. *)
Lemma link_nodes_origin ds f_name f_key f_class t_name t_key t_class ns :
  link_nodes ds f_name f_key f_class t_name t_key t_class = Ok ns →
  ∀ cell_name node, (cell_name, node) ∈ ns →
    (cell_name = f_name ∧ Some f_name ≠ fst <$> ds
     ∧ Node_init f_class f_key = Ok node)
    ∨ (cell_name = t_name ∧ Some t_name ≠ fst <$> ds
       ∧ Node_init t_class t_key = Ok node).
Proof.
  unfold link_nodes.
  destruct (bool_decide (Some f_name ≠ fst <$> ds)) eqn:Hf.
  - apply bool_decide_eq_true in Hf.
    destruct (Node_init f_class f_key) as [nf|] eqn:Hnf; [|done].
    cbn [mbind result_bind od_set].
    destruct (bool_decide (Some t_name ≠ fst <$> ds)) eqn:Ht.
    + apply bool_decide_eq_true in Ht.
      destruct (Node_init t_class t_key) as [nt|] eqn:Hnt; [|done].
      cbn [mbind result_bind od_set].
      destruct (decide (t_name = f_name)) as [->|Hne]; intros [= <-] cn node.
      * intros [= -> ->]%list_elem_of_singleton. by right.
      * intros [[= -> ->]|[= -> ->]%list_elem_of_singleton]%elem_of_cons;
          [by left|by right].
    + intros [= <-] cn node [= -> ->]%list_elem_of_singleton. by left.
  - cbn [mbind result_bind].
    destruct (bool_decide (Some t_name ≠ fst <$> ds)) eqn:Ht.
    + apply bool_decide_eq_true in Ht.
      destruct (Node_init t_class t_key) as [nt|] eqn:Hnt; [|done].
      cbn [mbind result_bind od_set].
      intros [= <-] cn node [= -> ->]%list_elem_of_singleton. by right.
    + intros [= <-] cn node []%not_elem_of_nil.
Qed.

Lemma Node_init_link_key C key n : Node_init C key = Ok n → link_key n = key.
Proof.
  unfold Node_init. destruct C as [C'|]; [|done].
  destruct (_dim_map C' !! key); [|done].
  destruct (_distribution C'); [|done]. by intros [= <-].
Qed.

(** The nodes of a constructed link are declared cells, and none is a
    dataset. *)
Lemma Link_new_nodes cm f t l cell_name node :
  Link_new cm f t = Ok l → (cell_name, node) ∈ nodes l →
  is_Some (od_get cell_name (cell_args cm))
  ∧ has_key (datasets cm) cell_name = false
  ∧ _dim_map (node_C node) !! link_key node = Some (dim_key node)
  ∧ _distribution (node_C node) = Some (dist_key node).
Proof.
  intros (f_name & f_key & f_class & t_name & t_key & t_class & ds & value
          & distribution & ns & Hf & Ht & Hds & _ & _ & Hns & ->)%Link_new_inv.
  simpl. intros Hin.
  assert (∀ n, Some n ≠ fst <$> ds → (n = f_name ∨ n = t_name) →
            has_key (datasets cm) n = false) as Hnot.
  { unfold dataset_endpoint in Hds. intros n Hn Hor.
    destruct (has_key (datasets cm) f_name) eqn:Hfd;
      destruct (has_key (datasets cm) t_name) eqn:Htd; simplify_eq; simpl in *;
      destruct Hor as [->| ->]; congruence. }
  destruct (link_nodes_origin _ _ _ _ _ _ _ _ Hns _ _ Hin)
    as [(-> & Hne & Hnode)|(-> & Hne & Hnode)];
    pose proof (Node_init_link_key _ _ _ Hnode) as Hkey;
    apply Node_init_inv in Hnode as (C & -> & <- & Hdim & Hdist);
    rewrite <- Hkey in Hdim.
  - apply get_args_class_declared in Hf as (args & ct & Hargs & _).
    split; [eauto|]. split; [apply Hnot; auto|]. done.
  - apply get_args_class_declared in Ht as (args & ct & Hargs & _).
    split; [eauto|]. split; [apply Hnot; auto|]. done.
Qed.

Lemma add_link_loop_returns i ns cm :
  (∀ cell_name node, (cell_name, node) ∈ ns →
     is_Some (od_get cell_name (cell_args cm))
     ∧ _distribution (node_C node) = Some (dist_key node)) →
  ∃ cm', add_link_loop (VLink i) ns cm = (cm', Ok tt).
Proof.
  revert cm. induction ns as [|[cn node] ns IH]; intros cm Hns; simpl.
  - by eexists.
  - assert (∀ cm', (∀ k, is_Some (od_get k (cell_args cm)) →
                        is_Some (od_get k (cell_args cm'))) →
              ∃ cm'', add_link_loop (VLink i) ns cm' = (cm'', Ok tt)) as Hrest.
    { intros cm' Hkeep. apply IH. intros cn' node' Hin.
      destruct (Hns cn' node') as [Hrec Hdist];
        [by apply list_elem_of_further|]. split; [by apply Hkeep|done]. }
    destruct (has_key (datasets cm) cn); [by apply Hrest|].
    destruct (Hns cn node) as [[args Hargs] Hdist]; [apply list_elem_of_here|].
    unfold get_cell_args. rewrite Hargs.
    destruct (backfill_spec i node args Hdist) as (args' & -> & _).
    apply Hrest. intros k Hk. rewrite set_cell_args_get.
    destruct (decide (cn = k)); [eauto|done].
Qed.

(** X6.  [add_link] is all or nothing: when the link is constructed the
    back-fill of its nodes does not raise and [add_link] returns; when the
    construction raises, [add_link] raises the same exception and the
    manager is as it was. *)
Theorem add_link_all_or_nothing cm f t :
  match Link_new cm f t with
  | Ok l => ∃ cm', add_link f t cm = (cm', Ok tt)
  | Raise e => add_link f t cm = (cm, Raise e)
  end.
Proof.
  unfold add_link, Link_init.
  destruct (Link_new cm f t) as [l|e] eqn:Hl; [|done].
  apply add_link_loop_returns. intros cn node Hin.
  destruct (Link_new_nodes cm f t l cn node Hl Hin) as (Hrec & _ & _ & Hdist).
  done.
Qed.

Lemma od_get_elem_of {V} (d : list (string * V)) k v :
  NoDup d.*1 → (k, v) ∈ d → od_get k d = Some v.
Proof.
  induction d as [|[k' v'] d IH]; intros Hnd Hin; simpl.
  - by apply not_elem_of_nil in Hin.
  - apply NoDup_cons in Hnd as [Hk' Hnd].
    apply elem_of_cons in Hin as [[= -> ->]|Hin]; [by rewrite decide_True|].
    rewrite decide_False; [by apply IH|].
    intros ->. apply Hk'. apply list_elem_of_fmap. by exists (k', v).
Qed.

Lemma Link_new_nodes_NoDup cm f t l : Link_new cm f t = Ok l → NoDup (nodes l).*1.
Proof.
  intros (f_name & f_key & f_class & t_name & t_key & t_class & ds & value
          & distribution & ns & _ & _ & _ & _ & _ & Hns & ->)%Link_new_inv.
  by apply link_nodes_spec in Hns as [Hnd _].
Qed.

Lemma distribution_argument_tail s :
  distribution_argument s = "cell_type" ∨ distribution_argument s = py_tail s.
Proof.
  unfold distribution_argument, strip_amp. destruct s as [|c s]; [by left|].
  destruct (Ascii.eqb c "&"); [by right|by left].
Qed.

(** X7.  A constructed link answers the queries of its nodes: under the
    dimension key of a node it gives the value of the link, under the
    distribution argument of the node its distribution, and [query] does
    not raise the ValueError of an unresolved link; for a name that is not
    a node it raises the KeyError of a missing node. *)
Theorem query_constructed cm f t l cell_name node :
  Link_new cm f t = Ok l →
  (cell_name, node) ∈ nodes l →
  link_value l ≠ VNone
  ∧ query l cell_name (dim_key node) = Ok (link_value l)
  ∧ (∀ s, dist_key node = Some s →
       distribution_argument s ≠ dim_key node →
       query l cell_name (distribution_argument s) = Ok (link_distribution l))
  ∧ (∀ other key, other ∉ (nodes l).*1 →
       query l other key = Raise (NoSuchNode other)).
Proof.
  intros Hl Hin.
  pose proof (Link_new_nodes_NoDup cm f t l Hl) as Hnd.
  destruct (Link_new_nodes cm f t l cell_name node Hl Hin)
    as (_ & _ & Hdim & _).
  assert (is_None (link_value l) = false) as Hvalue.
  { apply Link_new_inv in Hl
      as (? & ? & ? & ? & ? & ? & ? & ? & ? & ? & _ & _ & _ & _ & Hv & _ & ->).
    done. }
  split; [by destruct (link_value l)|].
  unfold query. rewrite (od_get_elem_of _ _ _ Hnd Hin). split; [|split].
  - rewrite bool_decide_eq_true_2 by done.
    unfold get_link_value. rewrite Hdim, Hvalue. simpl. by rewrite Hvalue.
  - intros s Hs Hne. rewrite bool_decide_eq_false_2 by done.
    case_bool_decide; [done|]. rewrite Hs.
    destruct (distribution_argument_tail s) as [Hct|Htail]; [done|].
    by rewrite bool_decide_eq_true_2.
  - intros other key Hother.
    destruct (od_get other (nodes l)) as [node'|] eqn:Hget; [|done].
    by apply od_get_Some_keys in Hget.
Qed.

Lemma query_constructed_witness :
  ∃ l node,
    Link_new dataset_manager "D.input" "mlp.input" = Ok l
    ∧ ("mlp", node) ∈ nodes l
    ∧ query l "mlp" "dim_in" = Ok (VInt 784)
    ∧ query l "mlp" "dist" = Ok (VStr "binomial").
Proof.
  eexists _, _. split; [by vm_compute|]. split; [apply list_elem_of_here|].
  edestruct (query_constructed dataset_manager "D.input" "mlp.input")
    as (_ & Hdim & Hdist & _); [by vm_compute|apply list_elem_of_here|].
  split; [exact Hdim|]. apply (Hdist "&dist"); by vm_compute.
Defined.

(** ** [build_cell]: the placeholders *)

(** The loop over the keys of the record, when every placeholder among
    them resolves: each is replaced by what it resolves to, and nothing else
    changes. *)
Lemma resolve_placeholders_spec ls cell_name ks (args : kwargs) :
  NoDup ks →
  (∀ k v, k ∈ ks → args !! k = Some v →
     ∃ v', resolved_entry ls cell_name k v = Ok v') →
  ∃ args',
    resolve_placeholders ls cell_name ks args = (args', Ok tt)
    ∧ (∀ k v, k ∈ ks → args !! k = Some v →
         ∃ v', resolved_entry ls cell_name k v = Ok v' ∧ args' !! k = Some v')
    ∧ (∀ k, k ∉ ks → args' !! k = args !! k)
    ∧ (∀ k, args !! k = None → args' !! k = None).
Proof.
  revert args. induction ks as [|k0 ks IH]; intros args Hnd Hres.
  - exists args. split; [done|]. split; [|done].
    intros k v []%not_elem_of_nil.
  - apply NoDup_cons in Hnd as [Hk0 Hnd]. simpl.
    assert (∀ args1 : kwargs,
              (∀ k, k ≠ k0 → args1 !! k = args !! k) →
              (∀ v, args !! k0 = Some v →
                 ∃ v', resolved_entry ls cell_name k0 v = Ok v'
                       ∧ args1 !! k0 = Some v') →
              (args !! k0 = None → args1 !! k0 = None) →
              ∃ args',
                resolve_placeholders ls cell_name ks args1 = (args', Ok tt)
                ∧ (∀ k v, k ∈ k0 :: ks → args !! k = Some v →
                     ∃ v', resolved_entry ls cell_name k v = Ok v'
                           ∧ args' !! k = Some v')
                ∧ (∀ k, k ∉ k0 :: ks → args' !! k = args !! k)
                ∧ (∀ k, args !! k = None → args' !! k = None)) as Hstep.
    { intros args1 Hother Hsame Hnone.
      destruct (IH args1 Hnd) as (args' & Hloop & Hin & Hout & Hnone').
      { intros k v Hk Hv. apply (Hres k v); [by apply list_elem_of_further|].
        rewrite <- Hother; [done|]. by intros ->. }
      exists args'. split; [done|]. split; [|split].
      - intros k v [->|Hk]%elem_of_cons Hv.
        + destruct (Hsame v Hv) as (v' & Hv' & Hget). exists v'.
          split; [done|]. by rewrite Hout.
        + apply Hin; [done|]. rewrite Hother; [done|]. by intros ->.
      - intros k [Hne Hk]%not_elem_of_cons. rewrite Hout by done.
        by apply Hother.
      - intros k Hk. destruct (decide (k = k0)) as [->|Hne].
        + rewrite Hout by done. by apply Hnone.
        + apply Hnone'. by rewrite Hother. }
    destruct (args !! k0) as [v0|] eqn:Hv0.
    + destruct (Hres k0 v0) as [v' Hv']; [apply list_elem_of_here|done|].
      destruct v0 as [|z|s|i]; simpl in Hv';
        try (apply Hstep; [done| |done]; intros v [= <-];
             eexists; split; [reflexivity|done]).
      destruct (ls !! i) as [l|] eqn:Hl; [|done]. rewrite Hv'.
      apply Hstep.
      * intros k Hk. by rewrite lookup_insert_ne.
      * intros v [= <-]. exists v'. simpl. rewrite Hl.
        split; [done|apply lookup_insert_eq].
      * done.
    + apply Hstep; [done| |done]. done.
Qed.

(** What [build_cell] does with a record whose placeholders resolve. *)
Lemma build_cell_outcome factory cm cell_name args ct C :
  od_get cell_name (cell_args cm) = Some args →
  args !! "cell_type" = Some ct →
  resolve_class cm ct = Ok C →
  (∀ k v, args !! k = Some v →
     ∃ v', resolved_entry (links cm) cell_name k v = Ok v') →
  ∃ args',
    (∀ k v, args !! k = Some v →
       ∃ v', resolved_entry (links cm) cell_name k v = Ok v'
             ∧ args' !! k = Some v')
    ∧ (∀ k, args !! k = None → args' !! k = None)
    ∧ build_cell factory cell_name cm
      = if has_key args' "C" || has_key args' "name"
        then (set_cell_args cell_name args' cm, Raise CallError)
        else factory C cell_name args' (set_cell_args cell_name args' cm).
Proof.
  intros Hargs Hct HC Hres.
  destruct (resolve_placeholders_spec (links cm) cell_name
              (map_to_list args).*1 args)
    as (args' & Hloop & Hin & _ & Hnone).
  { apply NoDup_fst_map_to_list. }
  { intros k v _. apply Hres. }
  exists args'. split; [|split; [done|]].
  - intros k v Hv. apply Hin; [|done].
    apply list_elem_of_fmap. exists (k, v). split; [done|].
    by apply elem_of_map_to_list.
  - unfold build_cell, get_cell_args, subscript.
    rewrite Hargs, Hct. simpl. rewrite HC, Hloop. done.
Qed.

(** X8.  [build_cell] of a declared cell whose placeholders all resolve
    hands the constructor of its class the record in which each link is
    replaced by the value [query] gives for the cell and the key, every
    other entry being as it was; the record of the cell is left in this
    form.  A record with an entry [C] or [name] cannot be passed on. *)
Theorem build_cell_resolves factory cm cell_name args ct C :
  od_get cell_name (cell_args cm) = Some args →
  args !! "cell_type" = Some ct →
  resolve_class cm ct = Ok C →
  (∀ k v, args !! k = Some v →
     ∃ v', resolved_entry (links cm) cell_name k v = Ok v') →
  ∃ args',
    (∀ k v, args !! k = Some v →
       ∃ v', resolved_entry (links cm) cell_name k v = Ok v'
             ∧ args' !! k = Some v')
    ∧ (∀ k, args !! k = None → args' !! k = None)
    ∧ build_cell factory cell_name cm
      = if has_key args' "C" || has_key args' "name"
        then (set_cell_args cell_name args' cm, Raise CallError)
        else factory C cell_name args' (set_cell_args cell_name args' cm).
Proof. apply build_cell_outcome. Qed.

Lemma build_cell_resolves_witness :
  let cm1 := (add_link "D.input" "mlp.input" dataset_manager).1 in
  ∃ args',
    args' !! "dim_in" = Some (VInt 784)
    ∧ args' !! "dist" = Some (VStr "binomial")
    ∧ args' !! "dim_out" = Some (VInt 10)
    ∧ build_cell sample_factory "mlp" cm1
      = sample_factory sample_class "mlp" args' (set_cell_args "mlp" args' cm1).
Proof.
  intros cm1.
  destruct (build_cell_resolves sample_factory cm1 "mlp"
              (<["dist" := VLink 0]> (<["dim_in" := VLink 0]>
                 {[ "cell_type" := VStr "MLP"; "dim_out" := VInt 10 ]}))
              (VStr "MLP") sample_class)
    as (args' & Hres & Hnone & Hbuild).
  - by vm_compute.
  - by vm_compute.
  - by vm_compute.
  - intros k v Hv.
    apply lookup_insert_Some in Hv as [[<- <-]|[_ Hv]]; [by eexists|].
    apply lookup_insert_Some in Hv as [[<- <-]|[_ Hv]]; [by eexists|].
    apply lookup_insert_Some in Hv as [[<- <-]|[_ Hv]]; [by eexists|].
    apply lookup_singleton_Some in Hv as [<- <-]. by eexists.
  - exists args'.
    destruct (Hres "dim_in" (VLink 0)) as (v1 & Hv1 & ->); [by vm_compute|].
    destruct (Hres "dist" (VLink 0)) as (v2 & Hv2 & ->); [by vm_compute|].
    destruct (Hres "dim_out" (VInt 10)) as (v3 & Hv3 & ->); [by vm_compute|].
    vm_compute in Hv1, Hv2, Hv3.
    injection Hv1 as <-. injection Hv2 as <-. injection Hv3 as <-.
    repeat (split; [done|]). rewrite Hbuild.
    rewrite (proj2 (has_key_false args' "C")) by (apply Hnone; by vm_compute).
    rewrite (proj2 (has_key_false args' "name")) by (apply Hnone; by vm_compute).
    done.
Defined.

(** ** From [add_link] to [build_cell] *)

Lemma add_link_loop_classes link ns cm :
  classes (add_link_loop link ns cm).1 = classes cm.
Proof.
  revert cm. induction ns as [|[cn node] ns IH]; intros cm; simpl; [done|].
  destruct (has_key (datasets cm) cn); [apply IH|].
  destruct (get_cell_args cm cn) as [args|]; [|done].
  destruct (backfill link node args) as [args' [[]|e]]; [|done].
  by rewrite IH.
Qed.

Lemma Link_new_node_class cm f t l cell_name node :
  Link_new cm f t = Ok l → (cell_name, node) ∈ nodes l →
  ∃ args ct, od_get cell_name (cell_args cm) = Some args
             ∧ args !! "cell_type" = Some ct
             ∧ resolve_class cm ct = Ok (node_C node).
Proof.
  intros (f_name & f_key & f_class & t_name & t_key & t_class & ds & value
          & distribution & ns & Hf & Ht & _ & _ & _ & Hns & ->)%Link_new_inv.
  simpl. intros Hin.
  destruct (link_nodes_origin _ _ _ _ _ _ _ _ Hns _ _ Hin)
    as [(-> & _ & Hnode)|(-> & _ & Hnode)];
    apply Node_init_inv in Hnode as (C & -> & <- & _).
  - by apply get_args_class_declared in Hf.
  - by apply get_args_class_declared in Ht.
Qed.

Lemma query_node_dim l cell_name node :
  od_get cell_name (nodes l) = Some node →
  _dim_map (node_C node) !! link_key node = Some (dim_key node) →
  is_None (link_value l) = false →
  query l cell_name (dim_key node) = Ok (link_value l).
Proof.
  intros Hget Hdim Hvalue. unfold query. rewrite Hget.
  rewrite bool_decide_eq_true_2 by done.
  unfold get_link_value. rewrite Hdim, Hvalue. simpl. by rewrite Hvalue.
Qed.

Lemma query_node_dist l cell_name node s :
  od_get cell_name (nodes l) = Some node →
  dist_key node = Some s →
  distribution_argument s ≠ dim_key node →
  query l cell_name (distribution_argument s) = Ok (link_distribution l).
Proof.
  intros Hget Hs Hne. unfold query. rewrite Hget.
  rewrite bool_decide_eq_false_2 by done.
  case_bool_decide; [done|]. rewrite Hs.
  destruct (distribution_argument_tail s) as [Hct|Htail]; [done|].
  by rewrite bool_decide_eq_true_2.
Qed.

Lemma resolve_class_not_None cm ct C : resolve_class cm ct = Ok C → is_None ct = false.
Proof. by destruct ct. Qed.

(** X9.  From the declaration of a link to the construction of a cell: when
    [add_link] has constructed a link with the cell as a node, and the
    record of the cell held no link before, [build_cell] calls the
    constructor of the class of the cell with the record in which the
    dimension argument is the value of the link if it was not set, the
    distribution argument is the distribution of the link if it was not
    set, and every argument that was set is as it was declared. *)
Theorem add_link_then_build_cell factory cm f t l cell_name node args :
  Link_new cm f t = Ok l →
  (cell_name, node) ∈ nodes l →
  od_get cell_name (cell_args cm) = Some args →
  (∀ k i, args !! k ≠ Some (VLink i)) →
  let cm1 := (add_link f t cm).1 in
  ∃ args',
    (add_link f t cm).2 = Ok tt
    ∧ build_cell factory cell_name cm1
      = (if has_key args' "C" || has_key args' "name"
         then (set_cell_args cell_name args' cm1, Raise CallError)
         else factory (node_C node) cell_name args'
                (set_cell_args cell_name args' cm1))
    ∧ args' !! dim_key node
      = (if unset args (dim_key node) then Some (link_value l)
         else args !! dim_key node)
    ∧ (∀ s, dist_key node = Some s →
         distribution_argument s ≠ dim_key node →
         args' !! distribution_argument s
         = if unset args (distribution_argument s)
           then Some (link_distribution l)
           else args !! distribution_argument s)
    ∧ (∀ k, k ≠ dim_key node →
         (∀ s, dist_key node = Some s → k ≠ distribution_argument s) →
         args' !! k = args !! k).
Proof.
  intros Hl Hin Hargs Hnolink cm1.
  pose proof (Link_new_nodes_NoDup cm f t l Hl) as Hnd.
  destruct (Link_new_nodes cm f t l cell_name node Hl Hin)
    as (_ & Hnotds & Hdim & Hdist).
  destruct (Link_new_node_class cm f t l cell_name node Hl Hin)
    as (args0 & ct & Hargs0 & Hct & HC).
  rewrite Hargs in Hargs0. injection Hargs0 as <-.
  assert (is_None (link_value l) = false) as Hvalue.
  { apply Link_new_inv in Hl
      as (? & ? & ? & ? & ? & ? & ? & ? & ? & ? & _ & _ & _ & _ & Hv & _ & ->).
    done. }
  pose proof (od_get_elem_of _ _ _ Hnd Hin) as Hnode.
  (* the state [add_link] leaves *)
  set (n := length (links cm)).
  assert (∃ cm', add_link_loop (VLink n) (nodes l) (append_link l cm) = (cm', Ok tt))
    as [cm' Hloop].
  { apply add_link_loop_returns. intros cn nd Hnd'.
    destruct (Link_new_nodes cm f t l cn nd Hl Hnd') as (? & _ & _ & ?). done. }
  assert (add_link f t cm = (cm', Ok tt)) as Hadd.
  { unfold add_link, Link_init. by rewrite Hl. }
  assert (classes cm' = classes cm) as Hclasses.
  { pose proof (add_link_loop_classes (VLink n) (nodes l) (append_link l cm)) as H.
    by rewrite Hloop in H. }
  apply add_link_loop_ok in Hloop as (Hlinks & _ & Hrec & _); [|done|].
  2:{ intros cn nd Hnd'.
      by destruct (Link_new_nodes cm f t l cn nd Hl Hnd') as (_ & _ & _ & ?). }
  destruct (Hrec cell_name node Hin Hnotds) as (args0 & Hargs0 & Hargs1).
  simpl in Hargs0, Hlinks. rewrite Hargs in Hargs0. injection Hargs0 as <-.
  destruct (backfill_spec n node args Hdist) as (args1 & Hb & Hb_dim & Hb_dist & Hb_frame).
  rewrite Hb in Hargs1. simpl in Hargs1.
  assert (links cm' !! n = Some l) as Hln.
  { rewrite Hlinks. unfold n. by rewrite list_lookup_middle. }
  (* every entry of the back-filled record resolves *)
  assert (∀ k, (args1 !! k = Some (VLink n)
                ∧ unset args k = true
                ∧ (k = dim_key node
                   ∨ ∃ s, dist_key node = Some s ∧ k = distribution_argument s
                          ∧ k ≠ dim_key node))
               ∨ (args1 !! k = args !! k
                  ∧ (k = dim_key node → unset args k = false)
                  ∧ (∀ s, dist_key node = Some s → k = distribution_argument s →
                       unset args k = false))) as Hcases.
  { intros k. destruct (decide (k = dim_key node)) as [->|Hk].
    - rewrite Hb_dim. destruct (unset args (dim_key node)) eqn:Hu.
      + left. auto.
      + right. auto.
    - destruct (dist_key node) as [s|] eqn:Hs.
      + destruct (decide (k = distribution_argument s)) as [->|Hk'].
        * rewrite (Hb_dist s eq_refl).
          destruct (unset args (distribution_argument s)) eqn:Hu.
          { left. split; [done|]. split; [done|]. right. by exists s. }
          right. split; [done|]. split; [done|]. by intros s' [= <-].
        * right. split; [|split; [done|]].
          { apply Hb_frame; [done|]. by intros s' [= <-]. }
          by intros s' [= <-].
      + right. split; [|done]. by apply Hb_frame. }
  assert (∀ k v, args1 !! k = Some v →
            ∃ v', resolved_entry (links cm') cell_name k v = Ok v'
                  ∧ ((unset args k = true ∧ k = dim_key node ∧ v' = link_value l)
                     ∨ (unset args k = true ∧ k ≠ dim_key node
                        ∧ v' = link_distribution l
                        ∧ ∃ s, dist_key node = Some s ∧ k = distribution_argument s)
                     ∨ (args !! k = Some v'
                        ∧ (k = dim_key node → unset args k = false)
                        ∧ (∀ s, dist_key node = Some s →
                             k = distribution_argument s → unset args k = false))))
    as Hresolve.
  { intros k v Hv. destruct (Hcases k) as [(Hk & Hu & Hwhich)|(Hk & Hd1 & Hd2)].
    - rewrite Hk in Hv. injection Hv as <-. simpl. rewrite Hln.
      destruct Hwhich as [->|(s & Hs & -> & Hne)].
      + rewrite query_node_dim by done.
        eexists. split; [done|]. left. done.
      + rewrite (query_node_dist l cell_name node s) by done.
        eexists. split; [done|]. right. left.
        split; [done|]. split; [done|]. split; [done|]. by exists s.
    - rewrite Hk in Hv. exists v. split.
      + destruct v as [| | |i]; try done. by apply Hnolink in Hv.
      + right. right. done. }
  assert (args1 !! "cell_type" = Some ct) as Hct1.
  { destruct (Hcases "cell_type") as [(_ & Hu & _)|(-> & _)]; [|done].
    unfold unset, dict_get in Hu. rewrite Hct in Hu. simpl in Hu.
    apply resolve_class_not_None in HC. congruence. }
  destruct (build_cell_outcome factory cm' cell_name args1 ct (node_C node))
    as (args' & Hres & Hnone & Hbuild); [done|done| | |].
  { destruct ct; try done. simpl in *. by rewrite Hclasses. }
  { intros k v Hv. destruct (Hresolve k v Hv) as (v' & Hv' & _). eauto. }
  assert (cm1 = cm') as -> by (unfold cm1; by rewrite Hadd).
  exists args'. split; [by rewrite Hadd|]. split; [done|].
  assert (∀ k, args' !! k
               = match args1 !! k with
                 | Some v =>
                     match resolved_entry (links cm') cell_name k v with
                     | Ok v' => Some v'
                     | Raise _ => None
                     end
                 | None => None
                 end) as Hlook.
  { intros k. destruct (args1 !! k) as [v|] eqn:Hv.
    - destruct (Hres k v Hv) as (v' & -> & ->). done.
    - by apply Hnone. }
  assert (∀ k, unset args k = false → args' !! k = args !! k) as Hset.
  { intros k Hu. rewrite Hlook. destruct (args1 !! k) as [v|] eqn:Hv.
    - destruct (Hresolve k v Hv) as (v' & -> & [(Hu' & _)|[(Hu' & _)|(Hv' & _)]]);
        congruence.
    - destruct (Hcases k) as [(Hk & _)|(Hk & _)]; congruence. }
  split; [|split].
  - destruct (unset args (dim_key node)) eqn:Hu; [|by apply Hset].
    rewrite Hlook, Hb_dim. try rewrite Hu. simpl. rewrite Hln.
    by rewrite query_node_dim.
  - intros s Hs Hne.
    destruct (unset args (distribution_argument s)) eqn:Hu; [|by apply Hset].
    rewrite Hlook, (Hb_dist s Hs). try rewrite Hu. simpl. rewrite Hln.
    by rewrite (query_node_dist l cell_name node s).
  - intros k Hk Hk'. rewrite Hlook, Hb_frame by done.
    destruct (args !! k) as [v|] eqn:Hv; [|done].
    destruct v as [| | |i]; try done. by apply Hnolink in Hv.
Qed.

Lemma add_link_then_build_cell_witness :
  let cm1 := (add_link "D.input" "mlp.input" dataset_manager).1 in
  ∃ args',
    (add_link "D.input" "mlp.input" dataset_manager).2 = Ok tt
    ∧ build_cell sample_factory "mlp" cm1
      = (if has_key args' "C" || has_key args' "name"
         then (set_cell_args "mlp" args' cm1, Raise CallError)
         else sample_factory sample_class "mlp" args'
                (set_cell_args "mlp" args' cm1))
    ∧ args' !! "dim_in" = Some (VInt 784)
    ∧ args' !! "dist" = Some (VStr "binomial")
    ∧ args' !! "dim_out" = Some (VInt 10).
Proof.
  intros cm1.
  destruct (add_link_then_build_cell sample_factory dataset_manager
              "D.input" "mlp.input"
              {| link_name := "D.input->mlp.input";
                 link_value := VInt 784;
                 link_distribution := VStr "binomial";
                 nodes := [("mlp", {| node_C := sample_class;
                                      link_key := "input";
                                      dim_key := "dim_in";
                                      dist_key := Some "&dist" |})] |}
              "mlp"
              {| node_C := sample_class; link_key := "input";
                 dim_key := "dim_in"; dist_key := Some "&dist" |}
              {[ "cell_type" := VStr "MLP"; "dim_out" := VInt 10 ]})
    as (args' & Hadd & Hbuild & Hdim & Hdist & Hframe).
  - by vm_compute.
  - apply list_elem_of_here.
  - by vm_compute.
  - intros k i Hk.
    apply lookup_insert_Some in Hk as [[_ [=]]|[_ Hk]].
    by apply lookup_singleton_Some in Hk as [_ [=]].
  - exists args'. split; [exact Hadd|]. split; [exact Hbuild|].
    split; [exact Hdim|]. split.
    + apply (Hdist "&dist"); [reflexivity|by vm_compute].
    + rewrite Hframe; [by vm_compute|by vm_compute|].
      intros s [= <-]. by vm_compute.
Defined.

(** ** [build] again *)

Lemma build_pending_nothing factory fuel i cm :
  (∀ k, k ∈ od_keys (cell_args cm) → od_mem k (cells cm) = true) →
  (length (cell_args cm) - i ≤ fuel)%nat →
  build_pending factory fuel i cm = (cm, Ok tt).
Proof.
  intros Hbuilt. revert i. induction fuel as [|fuel IH]; intros i Hfuel; simpl.
  - destruct (od_keys (cell_args cm) !! i) as [k|] eqn:Hi; [|done].
    apply lookup_lt_Some in Hi. unfold od_keys in Hi.
    rewrite length_map in Hi. lia.
  - destruct (od_keys (cell_args cm) !! i) as [k|] eqn:Hi; [|done].
    rewrite Hbuilt by (apply list_elem_of_lookup; eauto).
    apply IH. lia.
Qed.

(** X10.  When every declared cell is built, [build()] calls no constructor
    and returns the manager as it is, as soon as the bound on the walk is
    the number of declared cells; so, with a constructor that registers
    the cells it builds, a second [build()] after one that returned changes
    nothing. *)
Theorem build_twice factory fuel cm :
  ((∀ k, k ∈ od_keys (cell_args cm) → od_mem k (cells cm) = true) →
   (length (cell_args cm) ≤ fuel)%nat →
   build factory fuel None cm = (cm, Ok tt))
  ∧ (registers factory →
     ∀ fuel' cm', build factory fuel' None cm = (cm', Ok tt) →
       (length (cell_args cm') ≤ fuel)%nat →
       build factory fuel None cm' = (cm', Ok tt)).
Proof.
  split.
  - intros Hbuilt Hfuel. unfold build.
    apply build_pending_nothing; [done|lia].
  - intros Hreg fuel' cm' Hbuild Hfuel. unfold build.
    apply build_pending_nothing; [|lia].
    by eapply build_builds_all.
Qed.

Lemma build_twice_witness :
  ∃ cm',
    build sample_factory 5 None half_built_manager = (cm', Ok tt)
    ∧ od_mem "b" (cells cm') = true
    ∧ build sample_factory 2 None cm' = (cm', Ok tt).
Proof.
  eexists. split; [by vm_compute|]. split; [by vm_compute|].
  eapply (proj2 (build_twice sample_factory 2 half_built_manager)
            sample_factory_registers 5).
  - by vm_compute.
  - vm_compute. lia.
Defined.

(** ** [set_tparams] again *)

Lemma set_tparams_list_keys cell_name k p i cm :
  (set_tparams_list cell_name k p i cm).2.2
  = (fun j => indexed k j) <$> seq i (length p).
Proof.
  revert i cm. induction p as [|pp p IH]; intros i cm; simpl; [done|].
  destruct (tparam (_p cell_name (indexed k i)) pp cm) as [cm1 tp].
  specialize (IH (S i) cm1).
  destruct (set_tparams_list cell_name k p (S i) cm1) as [cm2 [tps kks]].
  simpl in *. by rewrite IH.
Qed.

Lemma set_tparams_loop_keys cell_name ps keys dict cm :
  (set_tparams_loop cell_name ps keys dict cm).2.1
  = keys ++ concat (group_keys <$> ps).
Proof.
  revert keys dict cm. induction ps as [|[k [a|l]] ps IH]; intros keys dict cm;
    simpl.
  - by rewrite app_nil_r.
  - destruct (tparam (_p cell_name k) a cm) as [cm1 tp].
    rewrite IH. by rewrite <- app_assoc.
  - pose proof (set_tparams_list_keys cell_name k l 0 cm) as Hkeys.
    destruct (set_tparams_list cell_name k l 0 cm) as [cm1 [tps kks]].
    simpl in Hkeys. rewrite IH, Hkeys. by rewrite <- app_assoc.
Qed.

(** X11.  A constructed cell has one parameter key for each parameter it
    counts: [param_keys] lists, in the order of [params], the name of each
    scalar parameter and the keys ['<name>[<i>]'] of the members of each
    list-valued group, and has [n_params] entries. *)
Theorem constructed_param_keys cell_name ws wn ps cs cm :
  let c := (Cell_init cell_name ws wn ps cs cm).2 in
  param_keys c = concat (group_keys <$> ps)
  ∧ length (param_keys c) = n_params c.
Proof.
  intros c.
  assert (param_keys c = concat (group_keys <$> ps)
          ∧ n_params c = count_params ps 0) as [Hkeys Hn].
  { unfold c, Cell_init, set_tparams.
    pose proof (set_tparams_loop_keys cell_name ps [] [] cm) as Hkeys.
    by destruct (set_tparams_loop cell_name ps [] [] cm) as [cm' [keys dict]]. }
  split; [done|]. rewrite Hkeys, Hn, count_params_sum. simpl.
  clear. induction ps as [|[k [a|l]] ps IH]; simpl; [done| |].
  - f_equal. exact IH.
  - rewrite length_app. f_equal; [|exact IH].
    unfold group_keys. simpl. by rewrite length_fmap, length_seq.
Qed.

Lemma tparam_ok full_name value cm :
  tparams_ok cm →
  tparams_ok (tparam full_name value cm).1
  ∧ (allocated cm ≤ allocated (tparam full_name value cm).1)%nat.
Proof.
  intros Hok. unfold tparam.
  destruct (tparams cm !! full_name) as [tp|] eqn:Hn; simpl; [done|].
  split; [|lia]. intros n h Hh. simpl in *.
  apply lookup_insert_Some in Hh as [[<- <-]|[Hne Hh]]; simpl.
  - split; [done|]. split; [lia|]. intros n' h' Hh' Hid.
    apply lookup_insert_Some in Hh' as [[<- <-]|[Hne' Hh']]; [done|].
    destruct (Hok n' h' Hh') as (_ & Hlt & _). simpl in Hid. lia.
  - destruct (Hok n h Hh) as (Hname & Hlt & Huniq).
    split; [done|]. split; [lia|]. intros n' h' Hh' Hid.
    apply lookup_insert_Some in Hh' as [[<- <-]|[Hne' Hh']].
    + simpl in Hid. lia.
    + by eapply Huniq.
Qed.

Lemma set_tparams_list_ok cell_name k p i cm :
  tparams_ok cm →
  tparams_ok (set_tparams_list cell_name k p i cm).1
  ∧ (allocated cm ≤ allocated (set_tparams_list cell_name k p i cm).1)%nat.
Proof.
  revert i cm. induction p as [|pp p IH]; intros i cm Hok; simpl; [done|].
  destruct (tparam_ok (_p cell_name (indexed k i)) pp cm Hok) as [Hok1 Hle1].
  destruct (tparam (_p cell_name (indexed k i)) pp cm) as [cm1 tp].
  destruct (IH (S i) cm1 Hok1) as [Hok2 Hle2].
  destruct (set_tparams_list cell_name k p (S i) cm1) as [cm2 [tps kks]].
  simpl in *. split; [done|lia].
Qed.

Lemma set_tparams_loop_ok cell_name ps keys dict cm :
  tparams_ok cm →
  tparams_ok (set_tparams_loop cell_name ps keys dict cm).1
  ∧ (allocated cm ≤ allocated (set_tparams_loop cell_name ps keys dict cm).1)%nat.
Proof.
  revert keys dict cm. induction ps as [|[k [a|l]] ps IH]; intros keys dict cm Hok;
    simpl; [done| |].
  - destruct (tparam_ok (_p cell_name k) a cm Hok) as [Hok1 Hle1].
    destruct (tparam (_p cell_name k) a cm) as [cm1 tp].
    destruct (IH (keys ++ [k]) (od_set k (OHandle tp) dict) cm1 Hok1). simpl in *.
    split; [done|lia].
  - destruct (set_tparams_list_ok cell_name k l 0 cm Hok) as [Hok1 Hle1].
    destruct (set_tparams_list cell_name k l 0 cm) as [cm1 [tps kks]].
    destruct (IH (keys ++ kks) (od_set k (OHandles tps) dict) cm1 Hok1).
    simpl in *. split; [done|lia].
Qed.

(** X12.  The construction of a cell keeps the parameter table well named:
    if every handle is registered under its own name, bears a stamp below
    the engine's count and shares it with no handle of another name, this
    holds afterwards too; no handle is forgotten; and each scalar parameter
    of the cell is bound to a handle named ["<cell_name>.<key>"]. *)
Theorem Cell_init_keeps_table cell_name ws wn ps cs cm :
  tparams_ok cm →
  NoDup ps.*1 →
  let r := Cell_init cell_name ws wn ps cs cm in
  tparams_ok r.1
  ∧ (allocated cm ≤ allocated r.1)%nat
  ∧ (∀ n h, tparams cm !! n = Some h → tparams r.1 !! n = Some h)
  ∧ (∀ k a, (k, PArr a) ∈ ps →
       ∃ h, od_get k (attrs r.2) = Some (OHandle h)
            ∧ h_name h = _p cell_name k
            ∧ tparams r.1 !! _p cell_name k = Some h).
Proof.
  intros Hok Hnd r. unfold r, Cell_init, set_tparams.
  pose proof (set_tparams_loop_ok cell_name ps [] [] cm Hok) as [Hok' Hle].
  pose proof (set_tparams_loop_spec cell_name ps [] [] cm Hnd)
    as (Hkeep & _ & Hsc & _).
  destruct (set_tparams_loop cell_name ps [] [] cm) as [cm' [keys dict]].
  simpl in *. split; [done|]. split; [done|]. split; [done|].
  intros k a Hin. destruct (Hsc k a Hin) as (h & Hget & Htab).
  exists h. split; [done|]. split; [|done]. by destruct (Hok' _ _ Htab).
Qed.

Lemma Cell_init_keeps_table_witness :
  let r := Cell_init "a" [] false [("W", PArr 7); ("b", PArrs [8; 9])] []
             first_manager in
  tparams_ok r.1
  ∧ ∃ h, od_get "W" (attrs r.2) = Some (OHandle h) ∧ h_name h = "a.W".
Proof.
  destruct (Cell_init_keeps_table "a" [] false
              [("W", PArr 7); ("b", PArrs [8; 9])] [] first_manager)
    as (Hok & _ & _ & Hsc).
  - pose proof (Cell_init_keeps_table "a" [] false
                  [("W", PArr 0); ("b", PArrs [1; 2])] [] empty_manager) as H0.
    apply H0.
    + intros n h Hh. change (tparams empty_manager) with (∅ : gmap string handle) in Hh.
      by rewrite lookup_empty in Hh.
    + apply (bool_decide_unpack _). by vm_compute.
  - apply (bool_decide_unpack _). by vm_compute.
  - split; [exact Hok|].
    destruct (Hsc "W" 7) as (h & Hget & Hname & _); [apply list_elem_of_here|].
    by exists h.
Defined.

Lemma tparam_again full_name value cm cm2 :
  (∀ n h, tparams (tparam full_name value cm).1 !! n = Some h →
     tparams cm2 !! n = Some h) →
  tparam full_name value cm2 = (cm2, (tparam full_name value cm).2).
Proof.
  intros Hext. destruct (tparam_spec full_name value cm) as [Hnew _].
  apply Hext in Hnew. unfold tparam at 1. by rewrite Hnew.
Qed.

Lemma set_tparams_list_again cell_name k p i cm cm2 :
  (∀ n h, tparams (set_tparams_list cell_name k p i cm).1 !! n = Some h →
     tparams cm2 !! n = Some h) →
  set_tparams_list cell_name k p i cm2
  = (cm2, (set_tparams_list cell_name k p i cm).2).
Proof.
  revert i cm. induction p as [|pp p IH]; intros i cm Hext; simpl; [done|].
  simpl in Hext.
  pose proof (tparam_again (_p cell_name (indexed k i)) pp cm cm2) as Hhead.
  destruct (tparam (_p cell_name (indexed k i)) pp cm) as [cm1 tp].
  pose proof (set_tparams_list_spec cell_name k p (S i) cm1) as (Hkeep & _).
  specialize (IH (S i) cm1).
  destruct (set_tparams_list cell_name k p (S i) cm1) as [cm3 [tps kks]].
  simpl in *. rewrite Hhead by auto. by rewrite IH.
Qed.

Lemma set_tparams_loop_keeps cell_name ps keys dict cm n h :
  tparams cm !! n = Some h →
  tparams (set_tparams_loop cell_name ps keys dict cm).1 !! n = Some h.
Proof.
  revert keys dict cm. induction ps as [|[k [a|l]] ps IH]; intros keys dict cm Hn;
    simpl; [done| |].
  - pose proof (tparam_spec (_p cell_name k) a cm) as [_ Hkeep].
    destruct (tparam (_p cell_name k) a cm) as [cm1 tp]. apply IH. by apply Hkeep.
  - pose proof (set_tparams_list_spec cell_name k l 0 cm) as (Hkeep & _).
    destruct (set_tparams_list cell_name k l 0 cm) as [cm1 [tps kks]].
    apply IH. by apply Hkeep.
Qed.

Lemma set_tparams_loop_again cell_name ps keys dict cm cm2 :
  (∀ n h, tparams (set_tparams_loop cell_name ps keys dict cm).1 !! n = Some h →
     tparams cm2 !! n = Some h) →
  set_tparams_loop cell_name ps keys dict cm2
  = (cm2, (set_tparams_loop cell_name ps keys dict cm).2).
Proof.
  revert keys dict cm. induction ps as [|[k [a|l]] ps IH]; intros keys dict cm Hext;
    simpl; [done| |]; simpl in Hext.
  - pose proof (tparam_again (_p cell_name k) a cm cm2) as Hhead.
    destruct (tparam (_p cell_name k) a cm) as [cm1 tp]. simpl in Hhead.
    rewrite Hhead.
    + by apply IH.
    + intros n h Hn. apply Hext. by apply set_tparams_loop_keeps.
  - pose proof (set_tparams_list_again cell_name k l 0 cm cm2) as Hhead.
    destruct (set_tparams_list cell_name k l 0 cm) as [cm1 [tps kks]].
    simpl in Hhead. rewrite Hhead.
    + by apply IH.
    + intros n h Hn. apply Hext. by apply set_tparams_loop_keeps.
Qed.

(** X13.  [set_tparams] is stable: run again for the same cell, at once or
    after any number of other registrations, it creates no handle, leaves
    the manager as it finds it, and gives the same parameter keys and the
    same handles as the first run. *)
Theorem set_tparams_stable cell_name ps cm regs :
  let r := set_tparams cell_name ps cm in
  set_tparams cell_name ps (register_all regs r.1)
  = (register_all regs r.1, r.2).
Proof.
  intros r. unfold set_tparams. apply set_tparams_loop_again.
  intros n h Hn. by apply register_all_keeps.
Qed.

(** ** What [get_params] returns *)

(** The walk over the components appends, for each sub-cell in the order of
    the components, the list [get_params] returns on it. *)
Lemma get_params_list_flat ns l acc :
  (∀ sub, sub ∈ l → ∃ ps, (get_params ns sub).2 = Ok ps) →
  ∃ l', get_params_list (get_params ns) l acc
        = (l', Ok (acc ++ concat (flat_params ns <$> l))).
Proof.
  revert acc. induction l as [|c_ l IH]; intros acc Hsub.
  - exists []. simpl. by rewrite app_nil_r.
  - destruct (Hsub c_) as (ps & Hps); [apply list_elem_of_here|].
    destruct (IH (acc ++ ps)) as (l' & Hl').
    { intros sub Hin. apply Hsub. by apply list_elem_of_further. }
    exists ((get_params ns c_).1 :: l').
    change (flat_params ns <$> c_ :: l)
      with (flat_params ns c_ :: (flat_params ns <$> l)).
    unfold flat_params at 1. rewrite Hps. simpl.
    destruct (get_params ns c_) as [c_' r]. simpl in Hps. subst r.
    rewrite Hl'. by rewrite app_assoc.
Qed.

Lemma get_params_comps_flat ns cs acc :
  (∀ sub, sub ∈ subcells cs → ∃ ps, (get_params ns sub).2 = Ok ps) →
  ∃ cs', get_params_comps (get_params ns) cs acc
         = (cs', Ok (acc ++ concat (flat_params ns <$> subcells cs))).
Proof.
  revert acc. induction cs as [|[k comp] cs IH]; intros acc Hsub.
  - exists []. simpl. by rewrite app_nil_r.
  - assert (∀ sub, sub ∈ subcells cs → ∃ ps, (get_params ns sub).2 = Ok ps)
      as Hsub'.
    { intros sub Hin. apply Hsub. unfold subcells. simpl.
      apply elem_of_app. by right. }
    destruct comp as [|sub|l].
    + destruct (IH acc Hsub') as (cs' & Hcs'). simpl. rewrite Hcs'.
      by eexists.
    + destruct (Hsub sub) as (ps & Hps).
      { unfold subcells. simpl. apply list_elem_of_here. }
      destruct (IH (acc ++ ps) Hsub') as (cs' & Hcs').
      exists ((k, CompCell (get_params ns sub).1) :: cs').
      change (subcells ((k, CompCell sub) :: cs)) with (sub :: subcells cs).
      change (flat_params ns <$> sub :: subcells cs)
        with (flat_params ns sub :: (flat_params ns <$> subcells cs)).
      unfold flat_params at 1. rewrite Hps. simpl.
      destruct (get_params ns sub) as [sub' r]. simpl in Hps. subst r.
      rewrite Hcs'. by rewrite app_assoc.
    + destruct (get_params_list_flat ns l acc) as (l' & Hl').
      { intros sub Hin. apply Hsub. unfold subcells. simpl.
        apply elem_of_app. by left. }
      destruct (IH (acc ++ concat (flat_params ns <$> l)) Hsub') as (cs' & Hcs').
      exists ((k, CompList l') :: cs').
      change (subcells ((k, CompList l) :: cs)) with (l ++ subcells cs).
      rewrite fmap_app, concat_app. simpl. rewrite Hl', Hcs'.
      by rewrite app_assoc.
Qed.

(** The cell's own parameters, read through [param_keys]: as many handles
    as [n_params] counts. *)
Lemma own_params_built cell_name ws wn ps cs cm :
  let c := (Cell_init cell_name ws wn ps cs cm).2 in
  ScalarOnly c →
  comps c = cs
  ∧ ∃ own, own_params (attrs c) (param_keys c) = Ok own
           ∧ length own = n_params c
           ∧ Forall (fun o => ∃ h, o = OHandle h) own.
Proof.
  intros c Hscalar. inversion Hscalar as [c0 Hps _ Hc0]. clear Hscalar. subst c0.
  unfold c, Cell_init, set_tparams in *. clear c.
  pose proof (set_tparams_loop_scalar cell_name ps [] [] cm) as Hloop.
  destruct (set_tparams_loop cell_name ps [] [] cm) as [cm' [keys dict]].
  simpl in *. split; [done|].
  destruct Hloop as (-> & Hin & _).
  { intros k p Hkp. destruct (Hps (KName k) (EInit p)) as [a [= ->]]; [|by eexists].
    apply list_elem_of_fmap. by exists (k, p). }
  destruct (own_params_handles dict ps.*1 Hin) as (own & -> & Hown).
  exists own. split; [done|]. split.
  - apply Forall2_length in Hown. rewrite length_fmap in Hown. rewrite <- Hown.
    rewrite count_params_sum. simpl. clear -Hps.
    induction ps as [|[k p] ps IHps]; [done|]. simpl.
    destruct (Hps (KName k) (EInit p)) as [a [= ->]]; [apply list_elem_of_here|].
    simpl. f_equal. apply IHps. intros k' e Hin. eapply Hps.
    by apply list_elem_of_further.
  - clear -Hown. induction Hown as [|k o keys own [_ Ho] _ IH]; by constructor.
Qed.

(** The list [get_params] returns on a built cell with scalar parameters:
    the cell's own handles, then what each sub-cell returns. *)
Lemma get_params_flat c ns :
  Built c → ScalarOnly c →
  ∃ own,
    own_params (attrs c) (param_keys c) = Ok own
    ∧ length own = n_params c
    ∧ Forall (fun o => ∃ h, o = OHandle h) own
    ∧ (get_params ns c).2 = Ok (flat_params ns c)
    ∧ flat_params ns c = own ++ concat (flat_params ns <$> subcells (comps c)).
Proof.
  intros Hbuilt Hscalar.
  assert (∀ sub, sub ∈ subcells (comps c) → ∃ ps, (get_params ns sub).2 = Ok ps)
    as Hsubs.
  { inversion Hscalar as [c0 _ Hcs Hc0]. subst c0.
    inversion Hbuilt as [cell_name ws wn ps cs cm Hsub Hc].
    assert (comps c = cs) as Hcomps.
    { subst c. unfold Cell_init.
      by destruct (set_tparams cell_name ps cm) as [cm' [keys dict]]. }
    intros sub Hin.
    rewrite Hc in Hin.
    assert (Built sub) as Hb by (apply Hsub; by rewrite <- Hcomps).
    destruct (get_params_built sub Hb (Hcs sub Hin) ns) as (o & r & Hget & _).
    by eexists. }
  assert (∃ own, own_params (attrs c) (param_keys c) = Ok own
                 ∧ length own = n_params c
                 ∧ Forall (fun o => ∃ h, o = OHandle h) own)
    as (own & Hown & Hlen & Hhandles).
  { inversion Hbuilt as [cell_name ws wn ps cs cm Hsub Hc]. subst c.
    by destruct (own_params_built cell_name ws wn ps cs cm Hscalar). }
  exists own. split; [done|]. split; [done|]. split; [done|].
  destruct c as [nm ws wn ps cs n nc t keys dict]. simpl in *.
  unfold flat_params. simpl. rewrite Hown.
  assert (∃ ps', (if ns && wn then noise_loop ws own 0 ps else (ps, Ok tt))
                 = (ps', Ok tt)) as [ps' ->].
  { destruct (ns && wn); [by apply noise_loop_handles|by eexists]. }
  destruct (get_params_comps_flat ns cs own Hsubs) as (cs' & ->). done.
Qed.

Lemma built_subcells c sub :
  Built c → ScalarOnly c → sub ∈ subcells (comps c) → Built sub ∧ ScalarOnly sub.
Proof.
  intros Hbuilt Hscalar Hin.
  inversion Hscalar as [c0 _ Hcs Hc0]. subst c0. split; [|by apply Hcs].
  inversion Hbuilt as [cell_name ws wn ps cs cm Hsub Hc]. apply Hsub.
  rewrite <- Hc in Hin. unfold Cell_init in Hin.
  by destruct (set_tparams cell_name ps cm) as [cm' [keys dict]].
Qed.

Lemma flat_params_length c ns :
  Built c → ScalarOnly c → length (flat_params ns c) = total_params c.
Proof.
  intros Hbuilt Hscalar.
  destruct (get_params_built c Hbuilt Hscalar ns)
    as (own & rest & Hget & Hown & Hrest & Htotal & _).
  unfold flat_params. rewrite Hget, length_app. lia.
Qed.

Lemma flat_params_subcells_length l ns :
  (∀ sub, sub ∈ l → Built sub ∧ ScalarOnly sub) →
  length (concat (flat_params ns <$> l)) = sum_list_with total_params l.
Proof.
  induction l as [|c_ l IH]; intros Hl; [done|].
  change (flat_params ns <$> c_ :: l) with (flat_params ns c_ :: (flat_params ns <$> l)).
  simpl. rewrite length_app, IH.
  - destruct (Hl c_) as [Hb Hs]; [apply list_elem_of_here|].
    by rewrite flat_params_length.
  - intros sub Hin. apply Hl. by apply list_elem_of_further.
Qed.

(** With the noise switch off the walk gives every component back as it
    was. *)
Lemma get_params_list_id (gp : cell → cell * result (list pobj)) l acc :
  (∀ sub, sub ∈ l → (gp sub).1 = sub) →
  (get_params_list gp l acc).1 = l.
Proof.
  revert acc. induction l as [|c_ l IH]; intros acc Hl; simpl; [done|].
  pose proof (Hl c_ (list_elem_of_here _ _)) as Hc.
  destruct (gp c_) as [c_' [ps|e]]; simpl in Hc; subst c_'; [|done].
  specialize (IH (acc ++ ps)).
  destruct (get_params_list gp l (acc ++ ps)) as [l'' r]. simpl in *.
  rewrite IH; [done|]. intros sub Hin. apply Hl. by apply list_elem_of_further.
Qed.

Lemma get_params_comps_id (gp : cell → cell * result (list pobj)) cs acc :
  (∀ sub, sub ∈ subcells cs → (gp sub).1 = sub) →
  (get_params_comps gp cs acc).1 = cs.
Proof.
  revert acc. induction cs as [|[k comp] cs IH]; intros acc Hsub; [done|].
  assert (∀ sub, sub ∈ subcells cs → (gp sub).1 = sub) as Hsub'.
  { intros sub Hin. apply Hsub. unfold subcells. simpl.
    apply elem_of_app. by right. }
  destruct comp as [|sub|l]; simpl.
  - specialize (IH acc Hsub').
    destruct (get_params_comps gp cs acc) as [cs'' r]. simpl in *. by subst.
  - assert ((gp sub).1 = sub) as Hc.
    { apply Hsub. unfold subcells. simpl. apply list_elem_of_here. }
    destruct (gp sub) as [sub' [ps|e]]; simpl in Hc; subst sub'; [|done].
    specialize (IH (acc ++ ps) Hsub').
    destruct (get_params_comps gp cs (acc ++ ps)) as [cs'' r]. simpl in *.
    by subst.
  - pose proof (get_params_list_id gp l acc) as Hl.
    destruct (get_params_list gp l acc) as [l' [acc'|e]]; simpl in Hl.
    + rewrite Hl.
      * specialize (IH acc' Hsub').
        destruct (get_params_comps gp cs acc') as [cs'' r]. simpl in *. by subst.
      * intros sub Hin. apply Hsub. unfold subcells. simpl.
        apply elem_of_app. by left.
    + simpl. rewrite Hl; [done|]. intros sub Hin. apply Hsub. unfold subcells.
      simpl. apply elem_of_app. by left.
Qed.

Lemma get_params_off_keeps c : Built c → (get_params false c).1 = c.
Proof.
  induction 1 as [cell_name ws wn ps cs cm Hsub IH].
  unfold Cell_init. destruct (set_tparams cell_name ps cm) as [cm' [keys dict]].
  simpl. destruct (own_params dict keys) as [own|e]; [|done].
  pose proof (get_params_comps_id (get_params false) cs own IH) as Hcs.
  destruct (get_params_comps (get_params false) cs own) as [cs' r].
  simpl in *. by subst.
Qed.

Lemma flat_params_handles c ns :
  Built c → ScalarOnly c →
  flat_params true c = flat_params false c
  ∧ Forall (fun o => ∃ h, o = OHandle h) (flat_params ns c).
Proof.
  intros Hbuilt. revert ns. induction Hbuilt as [cell_name ws wn ps cs cm Hsub IH].
  intros ns Hscalar.
  assert (Built (Cell_init cell_name ws wn ps cs cm).2) as Hbuilt
    by by apply Built_init.
  destruct (own_params_built cell_name ws wn ps cs cm Hscalar) as [Hcomps _].
  assert (∀ sub, sub ∈ subcells cs → ScalarOnly sub) as Hcs.
  { intros sub Hin. eapply built_subcells; [exact Hbuilt|exact Hscalar|].
    by rewrite Hcomps. }
  split.
  - destruct (get_params_flat _ true Hbuilt Hscalar) as (own & Hown & _ & _ & _ & ->).
    destruct (get_params_flat _ false Hbuilt Hscalar)
      as (own' & Hown' & _ & _ & _ & ->).
    rewrite Hown in Hown'. injection Hown' as <-. rewrite Hcomps. do 2 f_equal.
    apply Forall_fmap_ext, Forall_forall. intros sub Hin.
    by apply (IH sub Hin true), Hcs.
  - destruct (get_params_flat _ ns Hbuilt Hscalar) as (own & _ & _ & Hh & _ & ->).
    rewrite Hcomps. apply Forall_app. split; [done|].
    apply Forall_concat, Forall_fmap, Forall_forall. intros sub Hin.
    by apply (IH sub Hin ns), Hcs.
Qed.

(** X14.  Weight noise never reaches the list [get_params] returns.  On a
    built cell with scalar parameters throughout, [get_params] returns the
    same list with the noise switch on as with it off: as many entries as
    [total_params], each of them a registered handle and none a noisy value;
    and with the switch off the call leaves the cell, its components
    included, as it was. *)
Theorem get_params_noise_free c :
  Built c → ScalarOnly c →
  (get_params true c).2 = (get_params false c).2
  ∧ (get_params false c).1 = c
  ∧ ∀ noise_switch,
      ∃ l, (get_params noise_switch c).2 = Ok l
           ∧ length l = total_params c
           ∧ Forall (fun o => ∃ h, o = OHandle h) l.
Proof.
  intros Hbuilt Hscalar. split; [|split].
  - destruct (get_params_flat c true Hbuilt Hscalar) as (_ & _ & _ & _ & -> & _).
    destruct (get_params_flat c false Hbuilt Hscalar) as (_ & _ & _ & _ & -> & _).
    f_equal. by apply (flat_params_handles c true).
  - by apply get_params_off_keeps.
  - intros ns. exists (flat_params ns c).
    destruct (get_params_flat c ns Hbuilt Hscalar) as (_ & _ & _ & _ & -> & _).
    split; [done|]. split; [by apply flat_params_length|].
    by apply flat_params_handles.
Qed.

Lemma get_params_noise_free_witness :
  Built sample_rnn ∧ ScalarOnly sample_rnn
  ∧ (get_params true sample_rnn).2 = (get_params false sample_rnn).2
  ∧ (get_params false sample_rnn).1 = sample_rnn
  ∧ ∀ noise_switch,
      ∃ l, (get_params noise_switch sample_rnn).2 = Ok l
           ∧ length l = total_params sample_rnn
           ∧ Forall (fun o => ∃ h, o = OHandle h) l.
Proof.
  split; [exact sample_rnn_built|]. split; [exact sample_rnn_scalar|].
  exact (get_params_noise_free sample_rnn sample_rnn_built sample_rnn_scalar).
Defined.

(** ** The slice of a component *)

(** A list-valued component none of whose members the key addresses moves
    [start] past all its members. *)
Lemma select_list_skip key k l i start end_ found :
  ¬ addresses key k →
  select_list key k l i (start, end_, found)
  = (start + sum_list_with total_params l, end_, found).
Proof.
  intros Hk. revert i start.
  induction l as [|c_ l IH]; intros i start; simpl.
  - by rewrite Nat.add_0_r.
  - rewrite bool_decide_eq_false_2.
    + rewrite IH. f_equal. f_equal. lia.
    + intros <-. apply Hk. right. by exists i.
Qed.

(** The search stops at the first component with the key, past the
    parameters of all the components before it. *)
Lemma select_comps_find key pre sub post start end_ found :
  key ∉ pre.*1 →
  (∀ k l, (k, CompList l) ∈ pre → ¬ addresses key k) →
  select_comps key (pre ++ (key, CompCell sub) :: post) (start, end_, found)
  = (start + sum_list_with total_params (subcells pre),
     start + sum_list_with total_params (subcells pre) + total_params sub,
     true).
Proof.
  revert start. induction pre as [|[k comp] pre IH]; intros start Hkey Hlists.
  - simpl. rewrite bool_decide_eq_true_2 by done.
    unfold subcells. simpl. by rewrite Nat.add_0_r.
  - apply not_elem_of_cons in Hkey as [Hne Hkey].
    assert (∀ k' l, (k', CompList l) ∈ pre → ¬ addresses key k') as Hlists'.
    { intros k' l Hin. eapply Hlists. by apply list_elem_of_further. }
    destruct comp as [|c_|l]; simpl.
    + by rewrite IH.
    + rewrite bool_decide_eq_false_2 by done. rewrite IH by done.
      unfold subcells. simpl. f_equal. f_equal; lia.
    + rewrite select_list_skip by (eapply Hlists; apply list_elem_of_here).
      rewrite IH by done. unfold subcells. simpl.
      rewrite sum_list_with_app. f_equal. f_equal; lia.
Qed.

Lemma py_slice_middle {A} (before mid after : list A) :
  py_slice (length before) (length before + length mid) (before ++ mid ++ after)
  = mid.
Proof.
  unfold py_slice. rewrite drop_app_length.
  replace (length before + length mid - length before) with (length mid) by lia.
  by rewrite take_app_length.
Qed.

(** X15.  The slice of a component is what the component returns.  On a
    built cell with scalar parameters throughout, whose component names are
    distinct, for a component [k] that is a cell, and when [k] is not the
    name ['<name>_<i>'] of a member of a list-valued component:
    [select_params(k, ...)] applied to the list [get_params] returns on the
    cell is the list [get_params] returns on that component. *)
Theorem select_params_component c noise_switch k sub :
  Built c → ScalarOnly c →
  NoDup (comps c).*1 →
  (k, CompCell sub) ∈ comps c →
  (∀ k' l, (k', CompList l) ∈ comps c → ¬ addresses k k') →
  ∃ ps sub_ps,
    (get_params noise_switch c).2 = Ok ps
    ∧ (get_params noise_switch sub).2 = Ok sub_ps
    ∧ select_params c (Some k) ps = Ok sub_ps.
Proof.
  intros Hbuilt Hscalar Hnodup Hin Hlists.
  apply list_elem_of_split in Hin as (pre & post & Hcomps).
  assert (subcells (comps c) = subcells pre ++ sub :: subcells post) as Hsubs.
  { rewrite Hcomps. unfold subcells. by rewrite map_app, concat_app. }
  assert (∀ s, s ∈ subcells (comps c) → Built s ∧ ScalarOnly s) as Hall.
  { intros s Hs'. by apply (built_subcells c). }
  destruct (Hall sub) as [Hb Hs].
  { rewrite Hsubs. apply elem_of_app. right. apply list_elem_of_here. }
  destruct (get_params_flat c noise_switch Hbuilt Hscalar)
    as (own & _ & Hlen & _ & Hget & Hflat).
  destruct (get_params_flat sub noise_switch Hb Hs) as (_ & _ & _ & _ & Hgets & _).
  exists (flat_params noise_switch c), (flat_params noise_switch sub).
  split; [done|]. split; [done|].
  rewrite Hflat, Hsubs. unfold select_params. rewrite Hcomps.
  rewrite select_comps_find.
  - rewrite fmap_app, concat_app.
    change (flat_params noise_switch <$> sub :: subcells post)
      with (flat_params noise_switch sub
            :: (flat_params noise_switch <$> subcells post)).
    simpl. rewrite (app_assoc own).
    rewrite <- Hlen.
    rewrite <- (flat_params_subcells_length _ noise_switch).
    + rewrite <- (flat_params_length sub noise_switch Hb Hs).
      rewrite <- length_app. by rewrite py_slice_middle.
    + intros s Hs'. apply Hall. rewrite Hsubs. apply elem_of_app. by left.
  - rewrite Hcomps, fmap_app in Hnodup.
    apply NoDup_app in Hnodup as (_ & Hdisj & _).
    intros Hk. apply (Hdisj k Hk). simpl. apply list_elem_of_here.
  - intros k' l Hl. apply (Hlists k' l). rewrite Hcomps. apply elem_of_app.
    by left.
Qed.

Lemma select_params_component_witness :
  Built sample_rnn ∧ ScalarOnly sample_rnn
  ∧ NoDup (comps sample_rnn).*1
  ∧ ("RU", CompCell sample_ru) ∈ comps sample_rnn
  ∧ (∀ k' l, (k', CompList l) ∈ comps sample_rnn → ¬ addresses "RU" k')
  ∧ ∃ ps sub_ps,
      (get_params true sample_rnn).2 = Ok ps
      ∧ (get_params true sample_ru).2 = Ok sub_ps
      ∧ select_params sample_rnn (Some "RU") ps = Ok sub_ps.
Proof.
  assert (NoDup (comps sample_rnn).*1) as Hnodup.
  { apply (bool_decide_unpack _). by vm_compute. }
  assert (("RU", CompCell sample_ru) ∈ comps sample_rnn) as Hin
    by apply list_elem_of_here.
  assert (∀ k' l, (k', CompList l) ∈ comps sample_rnn → ¬ addresses "RU" k')
    as Hlists.
  { intros k' l Hl.
    change (comps sample_rnn)
      with [("RU", CompCell sample_ru); ("aux_net", @CompNone cell);
            ("layers", CompList sample_layers)] in Hl.
    apply elem_of_cons in Hl as [[=]|Hl].
    apply elem_of_cons in Hl as [[=]|Hl].
    apply list_elem_of_singleton in Hl as [= -> ->].
    intros [[=]|[i [=]]]. }
  split; [exact sample_rnn_built|]. split; [exact sample_rnn_scalar|].
  split; [exact Hnodup|]. split; [exact Hin|]. split; [exact Hlists|].
  exact (select_params_component sample_rnn true "RU" sample_ru
           sample_rnn_built sample_rnn_scalar Hnodup Hin Hlists).
Defined.

(** ** [Cell.factory] *)

Lemma od_set_fresh {V} k (v : V) (d : list (string * V)) :
  od_get k d = None → od_set k v d = d ++ [(k, v)].
Proof.
  induction d as [|[k0 v0] d IH]; simpl; [done|].
  destruct (decide (k = k0)) as [->|Hk]; [done|]. intros Hget. by rewrite IH.
Qed.

Lemma od_get_app_fresh {V} k (d d' : list (string * V)) :
  od_get k d = None → od_get k (d ++ d') = od_get k d'.
Proof.
  induction d as [|[k0 v0] d IH]; simpl; [done|].
  destruct (decide (k = k0)) as [->|Hk]; [done|]. apply IH.
Qed.

(** [reqs] holds the required arguments that were passed, in the order of
    [_required]. *)
Lemma factory_reqs_spec required kw reqs :
  NoDup required →
  (∀ k, k ∈ required → od_get k reqs = None) →
  ∃ found,
    factory_reqs required kw reqs = reqs ++ found
    ∧ (∀ k, od_get k found = if bool_decide (k ∈ required) then kw !! k else None)
    ∧ (Forall (fun k => is_Some (kw !! k)) required →
       Forall2 (fun k v => kw !! k = Some v) required found.*2).
Proof.
  revert reqs. induction required as [|k0 required IH]; intros reqs Hnd Hfresh.
  - exists []. simpl. rewrite app_nil_r. split; [done|]. split; [done|].
    intros _. constructor.
  - apply NoDup_cons in Hnd as [Hk0 Hnd]. simpl.
    destruct (kw !! k0) as [v0|] eqn:Hkw.
    + destruct (IH (od_set k0 v0 reqs) Hnd) as (found & -> & Hget & Hall).
      { intros k Hk. rewrite od_get_set_ne by (intros ->; done).
        apply Hfresh. by apply list_elem_of_further. }
      rewrite od_set_fresh by (apply Hfresh; apply list_elem_of_here).
      exists ((k0, v0) :: found). rewrite <- app_assoc. split; [done|]. split.
      * intros k. simpl. destruct (decide (k = k0)) as [->|Hne].
        -- rewrite bool_decide_eq_true_2 by apply list_elem_of_here. done.
        -- rewrite Hget. repeat case_bool_decide; try done.
           ++ exfalso. apply H0. by apply list_elem_of_further.
           ++ exfalso. apply elem_of_cons in H0 as [->|H0]; done.
      * intros [_ Hreq]%Forall_cons. simpl. constructor; [done|]. by apply Hall.
    + destruct (IH reqs Hnd) as (found & -> & Hget & Hall).
      { intros k Hk. apply Hfresh. by apply list_elem_of_further. }
      exists found. split; [done|]. split.
      * intros k. rewrite Hget. repeat case_bool_decide; try done.
        -- exfalso. apply H0. by apply list_elem_of_further.
        -- apply elem_of_cons in H0 as [->|H0]; done.
      * intros [[v Hv] _]%Forall_cons. congruence.
Qed.

(** The check stops at the first required argument that is absent from
    [reqs] or [None] there. *)
Lemma factory_check_spec required reqs :
  match factory_check required reqs with
  | None =>
      Forall (fun k => ∃ v, od_get k reqs = Some v ∧ v ≠ VNone) required
  | Some (MissingRequired req) =>
      ∃ before after,
        required = before ++ req :: after
        ∧ (od_get req reqs = None ∨ od_get req reqs = Some VNone)
        ∧ Forall (fun k => ∃ v, od_get k reqs = Some v ∧ v ≠ VNone) before
  end.
Proof.
  induction required as [|k0 required IH]; simpl; [constructor|].
  destruct (od_get k0 reqs) as [v|] eqn:Hget.
  - assert (v = VNone ∨ v ≠ VNone) as [->|Hv]
      by (destruct v; (by left) || (by right)).
    + exists [], required. split; [done|]. split; [by right|constructor].
    + assert (match v with
              | VNone => Some (MissingRequired k0)
              | _ => factory_check required reqs
              end = factory_check required reqs) as -> by by destruct v.
      destruct (factory_check required reqs) as [[req]|].
      * destruct IH as (before & after & -> & Hreq & Hbefore).
        exists (k0 :: before), after. split; [done|]. split; [done|].
        constructor; [by exists v|done].
      * constructor; [by exists v|done].
  - exists [], required. split; [done|]. split; [by left|constructor].
Qed.

(** X17.  [Cell.factory] passes every keyword argument once.  When the
    names in [_required] are distinct: if the factory reaches the
    constructor, every required argument was passed and is not [None], the
    positional arguments are their values in the order of [_required], and
    the keyword arguments are the remaining ones, unchanged; if it raises,
    the TypeError names the first required argument that is absent or
    [None]. *)
Theorem factory_args_spec required kw :
  NoDup required →
  match factory_args required kw with
  | inr (args, options) =>
      Forall2 (fun k v => kw !! k = Some v ∧ v ≠ VNone) required args
      ∧ ∀ k, options !! k = if bool_decide (k ∈ required) then None else kw !! k
  | inl (MissingRequired req) =>
      ∃ before after,
        required = before ++ req :: after
        ∧ (kw !! req = None ∨ kw !! req = Some VNone)
        ∧ Forall (fun k => ∃ v, kw !! k = Some v ∧ v ≠ VNone) before
  end.
Proof.
  intros Hnd. unfold factory_args.
  destruct (factory_reqs_spec required kw [] Hnd) as (found & Hfound & Hget & Hall);
    [done|].
  simpl in Hfound. rewrite Hfound.
  pose proof (factory_check_spec required found) as Hcheck.
  destruct (factory_check required found) as [[req]|].
  - destruct Hcheck as (before & after & Hreq & Hmiss & Hbefore).
    exists before, after. split; [done|].
    assert (∀ k, k ∈ required → od_get k found = kw !! k) as Hin.
    { intros k Hk. by rewrite Hget, bool_decide_eq_true_2. }
    split.
    + rewrite <- Hin; [done|]. rewrite Hreq. apply elem_of_app. right.
      apply list_elem_of_here.
    + apply Forall_forall. intros k Hk. rewrite Forall_forall in Hbefore.
      destruct (Hbefore k Hk) as (v & Hv & Hne). exists v.
      rewrite <- Hin; [done|]. rewrite Hreq. apply elem_of_app. by left.
  - assert (Forall (fun k => ∃ v, kw !! k = Some v ∧ v ≠ VNone) required) as Hkw.
    { apply Forall_forall. intros k Hk. rewrite Forall_forall in Hcheck.
      destruct (Hcheck k Hk) as (v & Hv & Hne). exists v.
      by rewrite Hget, bool_decide_eq_true_2 in Hv. }
    split.
    + assert (Forall2 (fun k v => kw !! k = Some v) required found.*2) as Hvals.
      { apply Hall. eapply Forall_impl; [exact Hkw|].
        intros k (v & Hv & _). by exists v. }
      clear -Hvals Hkw. induction Hvals as [|k v l vs Hk _ IH]; [constructor|].
      apply Forall_cons in Hkw as [(v' & Hv' & Hne) Hkw].
      constructor; [|by apply IH]. split; [done|]. congruence.
    + intros k. case_bool_decide as Hk.
      * apply map_lookup_filter_None. right. intros v _ Hn. by apply Hn.
      * destruct (kw !! k) as [v|] eqn:Hv.
        -- by apply map_lookup_filter_Some.
        -- apply map_lookup_filter_None. by left.
Qed.

Lemma factory_args_spec_witness :
  NoDup ["dim_in"; "dim_out"]
  ∧ match factory_args ["dim_in"; "dim_out"]
            (<["name" := VStr "rnn"]>
               (<["dim_out" := VInt 4]> {[ "dim_in" := VInt 3 ]})) with
    | inr (args, options) =>
        Forall2 (fun k v =>
                   (<["name" := VStr "rnn"]>
                      (<["dim_out" := VInt 4]> {[ "dim_in" := VInt 3 ]}) : kwargs)
                     !! k = Some v ∧ v ≠ VNone)
          ["dim_in"; "dim_out"] args
        ∧ ∀ k, options !! k
               = if bool_decide (k ∈ ["dim_in"; "dim_out"]) then None
                 else (<["name" := VStr "rnn"]>
                         (<["dim_out" := VInt 4]> {[ "dim_in" := VInt 3 ]}) : kwargs)
                        !! k
    | inl (MissingRequired req) =>
        ∃ before after,
          ["dim_in"; "dim_out"] = before ++ req :: after
          ∧ ((<["name" := VStr "rnn"]>
                (<["dim_out" := VInt 4]> {[ "dim_in" := VInt 3 ]}) : kwargs)
               !! req = None
             ∨ (<["name" := VStr "rnn"]>
                  (<["dim_out" := VInt 4]> {[ "dim_in" := VInt 3 ]}) : kwargs)
                 !! req = Some VNone)
          ∧ Forall (fun k => ∃ v,
                      (<["name" := VStr "rnn"]>
                         (<["dim_out" := VInt 4]> {[ "dim_in" := VInt 3 ]}) : kwargs)
                        !! k = Some v ∧ v ≠ VNone) before
    end.
Proof.
  assert (NoDup ["dim_in"; "dim_out"]) as Hnd.
  { apply (bool_decide_unpack _). by vm_compute. }
  split; [exact Hnd|].
  exact (factory_args_spec ["dim_in"; "dim_out"]
           (<["name" := VStr "rnn"]>
              (<["dim_out" := VInt 4]> {[ "dim_in" := VInt 3 ]})) Hnd).
Defined.

(** ** [Cell.set_options] *)

Lemma set_options_fold (l : list (string * pyval)) (a m : kwargs) :
  NoDup l.*1 →
  let r := foldl (fun st kv => (<[kv.1 := default kv.2 (st.2 !! kv.1)]> st.1,
                                delete kv.1 st.2)) (a, m) l in
  (∀ k, r.1 !! k = match od_get k l with
                   | Some d => Some (default d (m !! k))
                   | None => a !! k
                   end)
  ∧ (∀ k, r.2 !! k = match od_get k l with
                     | Some _ => None
                     | None => m !! k
                     end).
Proof.
  revert a m. induction l as [|[k0 d0] l IH]; intros a m Hnd; [done|].
  apply NoDup_cons in Hnd as [Hk0 Hnd]. simpl.
  destruct (IH (<[k0 := default d0 (m !! k0)]> a) (delete k0 m) Hnd) as [H1 H2].
  assert (od_get k0 l = None) as Hfresh.
  { destruct (od_get k0 l) eqn:Hget; [|done].
    apply od_get_Some_keys in Hget. done. }
  split; intros k.
  - rewrite H1. destruct (decide (k = k0)) as [->|Hne].
    + by rewrite Hfresh, lookup_insert_eq.
    + rewrite lookup_insert_ne, lookup_delete_ne by done. done.
  - rewrite H2. destruct (decide (k = k0)) as [->|Hne].
    + by rewrite Hfresh, lookup_delete_eq.
    + by rewrite lookup_delete_ne by done.
Qed.

(** X18.  [set_options] splits the keyword arguments.  Every declared
    option becomes an attribute, with the value passed for it (a passed
    [None] included) or else its default; nothing else becomes one; and the
    arguments returned are the ones passed that are no option, unchanged. *)
Theorem set_options_spec options kw :
  let r := set_options options kw in
  (∀ k, r.1 !! k = (fun d => default d (kw !! k)) <$> options !! k)
  ∧ (∀ k, r.2 !! k = match options !! k with
                     | Some _ => None
                     | None => kw !! k
                     end).
Proof.
  unfold set_options.
  destruct (set_options_fold (map_to_list options) ∅ kw) as [H1 H2];
    [apply NoDup_fst_map_to_list|].
  split; intros k.
  - rewrite H1, od_get_map_to_list. by destruct (options !! k).
  - by rewrite H2, od_get_map_to_list.
Qed.

(** ** [Cell._feed] *)

Lemma py_decimal_inj i j : py_decimal i = py_decimal j → i = j.
Proof.
  assert (∀ n, Nat.to_uint n ≠ Decimal.Nil) as Hnonnil.
  { intros n. rewrite <- (DecimalNat.Unsigned.of_to n) at 1.
    rewrite DecimalNat.Unsigned.to_of. apply DecimalFacts.unorm_nonnil. }
  unfold py_decimal. intros H.
  apply (f_equal NilZero.uint_of_string) in H.
  rewrite !NilZero.usu in H by apply Hnonnil.
  injection H as H. by apply DecimalNat.Unsigned.to_uint_inj.
Qed.

Lemma feed_key_inj i j :
  ("X_" ++ py_decimal i)%string = ("X_" ++ py_decimal j)%string → i = j.
Proof. intros [= H]. by apply py_decimal_inj. Qed.

Lemma feed_from_spec {A} i (args : list A) d :
  (∀ j, (i ≤ j)%nat → od_get ("X_" ++ py_decimal j)%string d = None) →
  feed_from i args d
  = d ++ zip ((fun j => ("X_" ++ py_decimal j)%string) <$> seq i (length args)) args.
Proof.
  revert i d. induction args as [|x args IH]; intros i d Hfresh; simpl.
  - by rewrite app_nil_r.
  - rewrite od_set_fresh by (apply Hfresh; lia). rewrite IH.
    + by rewrite <- app_assoc.
    + intros j Hj. rewrite od_get_app_fresh by (apply Hfresh; lia). simpl.
      rewrite decide_False; [done|]. intros Heq%feed_key_inj. lia.
Qed.

Lemma od_get_feed {A} i j (args : list A) :
  od_get ("X_" ++ py_decimal (i + j))%string
    (zip ((fun j => ("X_" ++ py_decimal j)%string) <$> seq i (length args)) args)
  = args !! j.
Proof.
  revert i j. induction args as [|x args IH]; intros i j; simpl; [done|].
  destruct j as [|j].
  - rewrite Nat.add_0_r. by rewrite decide_True.
  - rewrite decide_False by (intros Heq%feed_key_inj; lia).
    replace (i + S j) with (S i + j) by lia. apply IH.
Qed.

Lemma feed_zip {A} (args : list A) :
  _feed args
  = zip ((fun j => ("X_" ++ py_decimal j)%string) <$> seq 0 (length args)) args.
Proof. unfold _feed. by rewrite feed_from_spec. Qed.

Lemma feed_values {A} (args : list A) : (_feed args).*2 = args.
Proof.
  rewrite feed_zip. apply snd_zip. by rewrite length_fmap, length_seq.
Qed.

Lemma feed_lookup {A} (args : list A) i :
  od_get ("X_" ++ py_decimal i)%string (_feed args) = args !! i.
Proof. rewrite feed_zip. apply (od_get_feed 0 i). Qed.

(** X19.  The identity graph of [_feed] names its inputs ['X_0'],
    ['X_1'], ... in order and loses none: the values of the result are the
    inputs, in order; its keys are the names, in order; and ['X_<i>'] gives
    back the input at position [i], and nothing when there is none. *)
Theorem feed_round_trip {A} (args : list A) :
  (_feed args).*2 = args
  ∧ od_keys (_feed args)
    = (fun i => ("X_" ++ py_decimal i)%string) <$> seq 0 (length args)
  ∧ ∀ i, od_get ("X_" ++ py_decimal i)%string (_feed args) = args !! i.
Proof.
  split; [apply feed_values|]. split; [|apply feed_lookup].
  rewrite feed_zip. unfold od_keys. apply fst_zip.
  by rewrite length_fmap, length_seq.
Qed.

(** ** [CNN2D.get_params] *)

Lemma zip_flat_length (hw hb : list handle) :
  length hw = length hb →
  length (concat ((fun sl => [OHandle sl.1; OHandle sl.2]) <$> zip hw hb))
  = length hw + length hb.
Proof.
  revert hb. induction hw as [|w hw IH]; intros [|b hb] Hlen; simpl in *;
    try done.
  rewrite IH by lia. lia.
Qed.

Lemma zip_flat_handles (hw hb : list handle) :
  Forall (fun o => ∃ h, o = OHandle h)
    (concat ((fun sl => [OHandle sl.1; OHandle sl.2]) <$> zip hw hb)).
Proof.
  revert hb. induction hw as [|w hw IH]; intros [|b hb]; simpl;
    try by constructor.
  constructor; [by eexists|]. constructor; [by eexists|]. apply IH.
Qed.

(** X16.  The override of [CNN2D] returns the handles of its list-valued
    groups.  For a cell constructed with the two list-valued groups
    [weights] and [biases] of one length and without components, the two
    attributes are lists of handles registered under
    ['<cell>.weights[<i>]'] and ['<cell>.biases[<i>]'], and
    [CNN2D.get_params] returns them alternating, weight before bias, layer
    after layer: as many entries as [n_params] and [total_params] count, so
    that [select_params(None, ...)] selects all of them. *)
Theorem CNN2D_get_params_spec cell_name ws wn w b ps cm noise_switch :
  ps = [("weights", PArrs w); ("biases", PArrs b)]
  ∨ ps = [("biases", PArrs b); ("weights", PArrs w)] →
  length w = length b →
  let r := Cell_init cell_name ws wn ps [] cm in
  ∃ hw hb,
    od_get "weights" (attrs r.2) = Some (OHandles hw)
    ∧ od_get "biases" (attrs r.2) = Some (OHandles hb)
    ∧ length hw = length w ∧ length hb = length b
    ∧ (∀ i h, hw !! i = Some h →
         tparams r.1 !! _p cell_name (indexed "weights" i) = Some h)
    ∧ (∀ i h, hb !! i = Some h →
         tparams r.1 !! _p cell_name (indexed "biases" i) = Some h)
    ∧ let l := concat ((fun sl => [OHandle sl.1; OHandle sl.2]) <$> zip hw hb) in
      (CNN2D_get_params noise_switch hw hb r.2).2 = Ok l
      ∧ length l = n_params r.2
      ∧ n_params r.2 = total_params r.2
      ∧ select_params r.2 None l = Ok l.
Proof.
  intros Hps Hlen r.
  assert (NoDup ps.*1) as Hnd.
  { destruct Hps as [-> | ->]; apply (bool_decide_unpack _); by vm_compute. }
  assert (("weights", PArrs w) ∈ ps ∧ ("biases", PArrs b) ∈ ps) as [Hw Hb].
  { destruct Hps as [-> | ->]; split;
      (apply list_elem_of_here || (apply list_elem_of_further, list_elem_of_here)). }
  assert (count_params ps 0 = length w + length b) as Hcount.
  { destruct Hps as [-> | ->]; simpl; lia. }
  unfold r, Cell_init, set_tparams. clear r.
  pose proof (set_tparams_loop_spec cell_name ps [] [] cm Hnd) as Hspec.
  destruct (set_tparams_loop cell_name ps [] [] cm) as [cm' [keys dict]].
  simpl in Hspec |- *. destruct Hspec as (_ & _ & _ & Hli).
  destruct (Hli "weights" w Hw) as (hw & Hgw & Hlw & Hrw).
  destruct (Hli "biases" b Hb) as (hb & Hgb & Hlb & Hrb).
  exists hw, hb. do 6 (split; [done|]).
  assert (length (concat ((fun sl => [OHandle sl.1; OHandle sl.2]) <$> zip hw hb))
          = count_params ps 0) as Hl.
  { rewrite zip_flat_length by congruence. rewrite Hcount. congruence. }
  split; [|split; [done|split; [simpl; lia|]]].
  - unfold CNN2D_get_params, get_params_from.
    destruct (noise_loop_handles ws _ 0
                ((fun kp => (KName kp.1, EInit kp.2)) <$> ps)
                (zip_flat_handles hw hb)) as [ps' Hnoise].
    destruct (noise_switch && wn); [rewrite Hnoise|]; done.
  - unfold select_params. simpl. rewrite <- Hl. unfold py_slice.
    by rewrite Nat.sub_0_r, drop_0, firstn_all.
Qed.

Lemma CNN2D_get_params_spec_witness :
  ([("weights", PArrs [0; 1]); ("biases", PArrs [2; 3])]
   = [("weights", PArrs [0; 1]); ("biases", PArrs [2; 3])]
   ∨ [("weights", PArrs [0; 1]); ("biases", PArrs [2; 3])]
     = [("biases", PArrs [2; 3]); ("weights", PArrs [0; 1])])
  ∧ length [0; 1] = length [2; 3]
  ∧ ∃ hw hb,
      od_get "weights" (attrs sample_cnn) = Some (OHandles hw)
      ∧ od_get "biases" (attrs sample_cnn) = Some (OHandles hb)
      ∧ (CNN2D_get_params true hw hb sample_cnn).2
        = Ok (concat ((fun sl => [OHandle sl.1; OHandle sl.2]) <$> zip hw hb))
      ∧ (get_params true sample_cnn).2 = Raise BareKeyError.
Proof.
  split; [by left|]. split; [reflexivity|].
  destruct (CNN2D_get_params_spec "cnn" [] false [0; 1] [2; 3]
              [("weights", PArrs [0; 1]); ("biases", PArrs [2; 3])]
              empty_manager true (or_introl eq_refl) eq_refl)
    as (hw & hb & Hgw & Hgb & _ & _ & _ & _ & Hget & _).
  exists hw, hb. split; [exact Hgw|]. split; [exact Hgb|]. split; [exact Hget|].
  reflexivity.
Defined.

(** ** The slice of a member of a list-valued component *)

Lemma string_app_inv_head (a b c : string) :
  (a ++ b)%string = (a ++ c)%string → b = c.
Proof.
  induction a as [|x a IH]; intros H; [exact H|].
  change (String x (a ++ b) = String x (a ++ c))%string in H.
  injection H as H. by apply IH.
Qed.

Lemma member_key_inj k i j :
  (k ++ "_" ++ py_decimal i)%string = (k ++ "_" ++ py_decimal j)%string → i = j.
Proof.
  intros H%string_app_inv_head. injection H as H. by apply py_decimal_inj.
Qed.

(** The inner loop stops at the member the key names, past the parameters
    of the members before it. *)
Lemma select_list_find k l i m j0 start end_ found :
  l !! i = Some m →
  select_list (k ++ "_" ++ py_decimal (j0 + i))%string k l j0 (start, end_, found)
  = (start + sum_list_with total_params (take i l),
     start + sum_list_with total_params (take i l) + total_params m,
     true).
Proof.
  revert i j0 start. induction l as [|c_ l IH]; intros i j0 start Hi; [done|].
  destruct i as [|i]; simpl in *.
  - injection Hi as ->. rewrite Nat.add_0_r.
    rewrite bool_decide_eq_true_2 by done. by rewrite Nat.add_0_r.
  - rewrite bool_decide_eq_false_2 by (intros Heq%member_key_inj; lia).
    replace (j0 + S i) with (S j0 + i) by lia. rewrite IH by done.
    f_equal. f_equal; lia.
Qed.

(** Components the key does not address move [start] past their
    parameters, and leave [end] and [found] as they are. *)
Lemma select_comps_skip key cs rest start end_ found :
  (∀ k, k ∈ cs.*1 → ¬ addresses key k) →
  select_comps key (cs ++ rest) (start, end_, found)
  = select_comps key rest
      (start + sum_list_with total_params (subcells cs), end_, found).
Proof.
  revert start. induction cs as [|[k comp] cs IH]; intros start Hk.
  - unfold subcells. simpl. by rewrite Nat.add_0_r.
  - assert (¬ addresses key k) as Hk0 by (apply Hk; simpl; apply list_elem_of_here).
    assert (∀ k', k' ∈ cs.*1 → ¬ addresses key k') as Hk'.
    { intros k' Hin. apply Hk. simpl. by apply list_elem_of_further. }
    destruct comp as [|c_|l]; simpl.
    + by rewrite IH.
    + rewrite bool_decide_eq_false_2 by (intros ->; apply Hk0; by left).
      rewrite IH by done. unfold subcells. simpl. do 3 f_equal. lia.
    + rewrite select_list_skip by done. rewrite IH by done.
      unfold subcells. simpl. rewrite sum_list_with_app. do 3 f_equal. lia.
Qed.

Lemma select_comps_skip_all key cs start end_ found :
  (∀ k, k ∈ cs.*1 → ¬ addresses key k) →
  select_comps key cs (start, end_, found)
  = (start + sum_list_with total_params (subcells cs), end_, found).
Proof.
  intros Hk. rewrite <- (app_nil_r cs) at 1. by rewrite select_comps_skip.
Qed.

Lemma py_slice_member {A} (before mid after : list A) (p : nat) :
  py_slice (length before + p) (length before + length mid)
    (before ++ mid ++ after)
  = drop p mid.
Proof.
  unfold py_slice. rewrite <- drop_drop, drop_app_length.
  replace (length before + length mid - (length before + p))
    with (length mid - p) by lia.
  destruct (decide (p ≤ length mid)%nat) as [Hle|Hgt].
  - rewrite drop_app_le by done.
    rewrite take_app_le by (rewrite length_drop; lia).
    apply take_ge. rewrite length_drop. lia.
  - replace (length mid - p) with 0 by lia. rewrite take_0.
    symmetry. apply drop_ge. lia.
Qed.

(** X20.  The slice of a member of a list-valued component starts too late
    by the parameters of the components that follow.  On a built cell with
    scalar parameters throughout, for the member [i] of the list-valued
    component [k], and when the key ['<k>_<i>'] addresses no other
    component: the [break] leaves the inner loop only, every later
    component still moves [start], and [select_params] returns the list of
    the member without as many of its first entries as the later components
    have parameters.  It is the member's list when nothing with parameters
    follows. *)
Theorem select_params_member c noise_switch k l i m pre post :
  Built c → ScalarOnly c →
  comps c = pre ++ (k, CompList l) :: post →
  l !! i = Some m →
  (∀ k', k' ∈ pre.*1 ++ post.*1 →
     ¬ addresses (k ++ "_" ++ py_decimal i)%string k') →
  ∃ ps m_ps,
    (get_params noise_switch c).2 = Ok ps
    ∧ (get_params noise_switch m).2 = Ok m_ps
    ∧ select_params c (Some (k ++ "_" ++ py_decimal i)%string) ps
      = Ok (drop (sum_list_with total_params (subcells post)) m_ps)
    ∧ (sum_list_with total_params (subcells post) = 0 →
       select_params c (Some (k ++ "_" ++ py_decimal i)%string) ps = Ok m_ps).
Proof.
  intros Hbuilt Hscalar Hcomps Hi Hother.
  assert (subcells (comps c) = subcells pre ++ l ++ subcells post) as Hsubs.
  { rewrite Hcomps. unfold subcells. by rewrite map_app, concat_app. }
  assert (∀ s, s ∈ subcells (comps c) → Built s ∧ ScalarOnly s) as Hall.
  { intros s Hs'. by apply (built_subcells c). }
  assert (l = take i l ++ m :: drop (S i) l) as Hl
    by (symmetry; by apply take_drop_middle).
  destruct (Hall m) as [Hb Hs].
  { rewrite Hsubs. apply elem_of_app. right. apply elem_of_app. left.
    by eapply list_elem_of_lookup_2. }
  destruct (get_params_flat c noise_switch Hbuilt Hscalar)
    as (own & _ & Hlen & _ & Hget & Hflat).
  destruct (get_params_flat m noise_switch Hb Hs) as (_ & _ & _ & _ & Hgetm & _).
  exists (flat_params noise_switch c), (flat_params noise_switch m).
  split; [done|]. split; [done|].
  assert (select_params c (Some (k ++ "_" ++ py_decimal i)%string)
            (flat_params noise_switch c)
          = Ok (drop (sum_list_with total_params (subcells post))
                  (flat_params noise_switch m))) as Hsel.
  { unfold select_params. rewrite Hcomps.
    rewrite select_comps_skip.
    2:{ intros k' Hk'. apply Hother. apply elem_of_app. by left. }
    simpl.
    rewrite (select_list_find k l i m 0) by done.
    rewrite select_comps_skip_all.
    2:{ intros k' Hk'. apply Hother. apply elem_of_app. by right. }
    simpl. rewrite Hflat, Hsubs.
    rewrite !fmap_app, !concat_app.
    replace (flat_params noise_switch <$> l)
      with (flat_params noise_switch <$> (take i l ++ m :: drop (S i) l))
      by (by rewrite <- Hl).
    rewrite fmap_app, concat_app.
    change (flat_params noise_switch <$> m :: drop (S i) l)
      with (flat_params noise_switch m
            :: (flat_params noise_switch <$> drop (S i) l)).
    simpl.
    assert (length (own ++ concat (flat_params noise_switch <$> subcells pre)
                    ++ concat (flat_params noise_switch <$> take i l))
            = n_params c + sum_list_with total_params (subcells pre)
              + sum_list_with total_params (take i l)) as Hbefore.
    { rewrite !length_app, Hlen.
      rewrite !flat_params_subcells_length; [lia| |].
      - intros s Hs'. apply Hall. rewrite Hsubs. apply elem_of_app. right.
        apply elem_of_app. left. apply elem_of_take in Hs' as (j & Hj & _).
        by eapply list_elem_of_lookup_2.
      - intros s Hs'. apply Hall. rewrite Hsubs. apply elem_of_app. by left. }
    rewrite <- (flat_params_length m noise_switch Hb Hs).
    rewrite <- Hbefore.
    replace (own ++ concat (flat_params noise_switch <$> subcells pre)
             ++ (concat (flat_params noise_switch <$> take i l)
                 ++ flat_params noise_switch m
                 ++ concat (flat_params noise_switch <$> drop (S i) l))
             ++ concat (flat_params noise_switch <$> subcells post))
      with ((own ++ concat (flat_params noise_switch <$> subcells pre)
             ++ concat (flat_params noise_switch <$> take i l))
            ++ flat_params noise_switch m
            ++ (concat (flat_params noise_switch <$> drop (S i) l)
                ++ concat (flat_params noise_switch <$> subcells post)))
      by (by rewrite <- !app_assoc).
    by rewrite py_slice_member. }
  split; [done|]. intros Hzero. by rewrite Hsel, Hzero, drop_0.
Qed.

Lemma sample_stack_subcells sub :
  sub ∈ subcells (comps sample_stack) →
  ∃ cell_name cm, sub = (sample_unit cell_name cm).2.
Proof.
  change (comps sample_stack)
    with [("layers", CompList [(sample_unit "net.layers_0"
                                  (sample_unit "net.RU" empty_manager).1).2]);
          ("RU", CompCell (sample_unit "net.RU" empty_manager).2)].
  unfold subcells. simpl.
  intros [->|[->|[]%not_elem_of_nil]%elem_of_cons]%elem_of_cons;
    by eexists _, _.
Qed.

Lemma sample_stack_built : Built sample_stack.
Proof.
  apply Built_init. intros sub Hin.
  destruct (sample_stack_subcells sub) as (cell_name & cm & ->); [exact Hin|].
  apply sample_unit_built.
Qed.

Lemma sample_stack_scalar : ScalarOnly sample_stack.
Proof.
  constructor.
  - intros k e Hin. vm_compute in Hin.
    apply list_elem_of_singleton in Hin as [= -> ->]. by eexists.
  - intros sub (cell_name & cm & ->)%sample_stack_subcells.
    apply sample_unit_scalar.
Qed.

Lemma select_params_member_witness :
  Built sample_stack ∧ ScalarOnly sample_stack
  ∧ ∃ ps m_ps,
      (get_params false sample_stack).2 = Ok ps
      ∧ (get_params false
           (sample_unit "net.layers_0" (sample_unit "net.RU" empty_manager).1).2).2
        = Ok m_ps
      ∧ length m_ps = 1
      ∧ select_params sample_stack (Some "layers_0") ps = Ok (drop 1 m_ps).
Proof.
  split; [exact sample_stack_built|]. split; [exact sample_stack_scalar|].
  destruct (select_params_member sample_stack false "layers"
              [(sample_unit "net.layers_0" (sample_unit "net.RU" empty_manager).1).2]
              0
              (sample_unit "net.layers_0" (sample_unit "net.RU" empty_manager).1).2
              [] [("RU", CompCell (sample_unit "net.RU" empty_manager).2)]
              sample_stack_built sample_stack_scalar eq_refl eq_refl)
    as (ps & m_ps & Hps & Hm & Hsel & _).
  { intros k' Hk'. simpl in Hk'. apply list_elem_of_singleton in Hk' as ->.
    intros [[=]|[i [=]]]. }
  exists ps, m_ps. split; [exact Hps|]. split; [exact Hm|]. split.
  - vm_compute in Hm. injection Hm as <-. reflexivity.
  - exact Hsel.
Defined.

(** ** Calling a cell *)

(** X21.  Calling a base cell feeds its inputs and then its parameters to
    the identity graph.  On a built cell with scalar parameters throughout
    the call returns; the values of the result are the inputs followed by
    the list [get_params] returns; input [i] is found under ['X_<i>'], and
    parameter [j] under ['X_<n + j>'], [n] being the number of inputs. *)
Theorem Cell_call_spec {T} c noise_switch (args : list T) :
  Built c → ScalarOnly c →
  ∃ ps d,
    (get_params noise_switch c).2 = Ok ps
    ∧ (Cell_call noise_switch c args).2 = Ok d
    ∧ d.*2 = (inl <$> args) ++ (inr <$> ps)
    ∧ length d = length args + total_params c
    ∧ (∀ i x, args !! i = Some x →
         od_get ("X_" ++ py_decimal i)%string d = Some (inl x))
    ∧ (∀ j p, ps !! j = Some p →
         od_get ("X_" ++ py_decimal (length args + j))%string d = Some (inr p)).
Proof.
  intros Hbuilt Hscalar.
  destruct (get_params_flat c noise_switch Hbuilt Hscalar)
    as (_ & _ & _ & _ & Hget & _).
  exists (flat_params noise_switch c),
         (_feed ((inl <$> args) ++ (inr <$> flat_params noise_switch c))).
  split; [done|]. split.
  { unfold Cell_call. destruct (get_params noise_switch c) as [c' r].
    simpl in Hget. by subst r. }
  split; [apply feed_values|]. split.
  { rewrite <- (length_fmap snd), feed_values, length_app, !length_fmap.
    by rewrite flat_params_length. }
  split.
  - intros i x Hi. rewrite feed_lookup, lookup_app_l.
    + by rewrite list_lookup_fmap, Hi.
    + rewrite length_fmap. by eapply lookup_lt_Some.
  - intros j p Hj. rewrite feed_lookup, lookup_app_r by (rewrite length_fmap; lia).
    rewrite length_fmap. replace (length args + j - length args) with j by lia.
    by rewrite list_lookup_fmap, Hj.
Qed.

Lemma Cell_call_spec_witness :
  Built sample_rnn ∧ ScalarOnly sample_rnn
  ∧ ∃ ps d,
      (get_params true sample_rnn).2 = Ok ps
      ∧ (Cell_call true sample_rnn ["x"; "y"]).2 = Ok d
      ∧ d.*2 = (inl <$> ["x"; "y"]) ++ (inr <$> ps)
      ∧ length d = 2 + total_params sample_rnn
      ∧ (∀ i x, ["x"; "y"] !! i = Some x →
           od_get ("X_" ++ py_decimal i)%string d = Some (inl x))
      ∧ (∀ j p, ps !! j = Some p →
           od_get ("X_" ++ py_decimal (2 + j))%string d = Some (inr p)).
Proof.
  split; [exact sample_rnn_built|]. split; [exact sample_rnn_scalar|].
  exact (Cell_call_spec sample_rnn true ["x"; "y"]
           sample_rnn_built sample_rnn_scalar).
Defined.

(** ** [get_components] and the counts *)



Lemma sum_list_with_ext_in {A} (f g : A → nat) (l : list A) :
  (∀ x, x ∈ l → f x = g x) → sum_list_with f l = sum_list_with g l.
Proof.
  induction l as [|x l IH]; intros Hfg; simpl; [done|].
  rewrite Hfg by apply list_elem_of_here. rewrite IH; [done|].
  intros y Hy. apply Hfg. by apply list_elem_of_further.
Qed.


